(** * job-search: the fetch-and-extract pipeline

    A shallow embedding of [src/lib/parse.ts] (text sanitising, URL and
    number normalisation, listing and detail extraction) and of
    [src/lib/scrape.ts] (result cache, rate limiter, request
    de-duplication), with the properties of the specification stated over
    it. *)

From Stdlib Require Import ZArith NArith Ascii String List Bool Lia.
From stdpp Require Import base option list gmap.
Import ListNotations.

Local Open Scope N_scope.

(** * JavaScript strings

    A JavaScript string is a sequence of UTF-16 code units; the regular
    expressions of [parse.ts] carry no [u] flag, so they work on code units
    too. *)

Module JS.

Abbreviation jstring := (list N).

(** An ASCII literal as a JavaScript string. *)
Definition str (s : string) : jstring :=
  map N_of_ascii (list_ascii_of_string s).

(** [\s], which is also the set [String.prototype.trim] removes:
    WhiteSpace and LineTerminator of ECMA-262. *)
Definition is_space (c : N) : bool :=
  ((9 <=? c) && (c <=? 13)) || (c =? 32) || (c =? 160) || (c =? 5760)
  || ((8192 <=? c) && (c <=? 8202)) || (c =? 8232) || (c =? 8233)
  || (c =? 8239) || (c =? 8287) || (c =? 12288) || (c =? 65279).

(** [\d] *)
Definition is_digit (c : N) : bool := (48 <=? c) && (c <=? 57).

(** [\w] *)
Definition is_word (c : N) : bool :=
  is_digit c || ((65 <=? c) && (c <=? 90)) || ((97 <=? c) && (c <=? 122))
  || (c =? 95).

(** Truthiness of a string: [!text] holds of the empty string only. *)
Definition truthy (s : jstring) : bool :=
  match s with [] => false | _ :: _ => true end.

(** [a || b] on strings. *)
Definition or_else (a b : jstring) : jstring := if truthy a then a else b.

(** [s.startsWith(p)] *)
Fixpoint startsWith (p s : jstring) : bool :=
  match p, s with
  | [], _ => true
  | _ :: _, [] => false
  | a :: p', b :: s' => (a =? b) && startsWith p' s'
  end.

(** [s.indexOf(p)], as the number of code units before the first
    occurrence. *)
Fixpoint indexOf (p s : jstring) : option nat :=
  if startsWith p s then Some 0%nat
  else match s with
       | [] => None
       | _ :: s' => S <$> indexOf p s'
       end.

(** [s.includes(p)] *)
Definition includes (p s : jstring) : bool := bool_decide (is_Some (indexOf p s)).

Fixpoint trimStart (s : jstring) : jstring :=
  match s with
  | c :: s' => if is_space c then trimStart s' else s
  | [] => []
  end.

Definition trimEnd (s : jstring) : jstring := rev (trimStart (rev s)).

(** [s.trim()] *)
Definition trim (s : jstring) : jstring := trimEnd (trimStart s).

(** A JavaScript number that came out of [parseInt]: an integer the double
    format holds exactly, a larger one that was rounded, or [NaN]. *)
Inductive number := Int (z : Z) | Rounded | NaN.

Definition digit_value (c : N) : Z := Z.of_N (c - 48).

Definition digits_value (ds : jstring) : Z :=
  fold_left (fun acc c => (10 * acc + digit_value c)%Z) ds 0%Z.

Fixpoint take_while (f : N -> bool) (s : jstring) : jstring :=
  match s with
  | c :: s' => if f c then c :: take_while f s' else []
  | [] => []
  end.

(** [parseInt(s, 10)]: leading white space, a sign, then the longest
    prefix of decimal digits. *)
Definition parseInt10 (s : jstring) : number :=
  let s := trimStart s in
  let '(neg, s) := match s with
                   | 45 :: s' => (true, s')
                   | 43 :: s' => (false, s')
                   | _ => (false, s)
                   end in
  match take_while is_digit s with
  | [] => NaN
  | ds => let v := digits_value ds in
          if (v <=? 2 ^ 53)%Z then Int (if neg then - v else v)%Z else Rounded
  end.

End JS.

(** * URLSearchParams

    The [application/x-www-form-urlencoded] serialiser of the URL standard,
    which [URLSearchParams.prototype.toString] runs. *)

Module URLSearchParams.
Import JS.

Definition is_high_surrogate (c : N) : bool := (55296 <=? c) && (c <=? 56319).
Definition is_low_surrogate (c : N) : bool := (56320 <=? c) && (c <=? 57343).

(** The scalar values of a string: a surrogate pair is one code point, a
    surrogate on its own becomes U+FFFD. [skip] says that the code unit at
    the head is the low surrogate of the pair just read. *)
Fixpoint scalars_from (skip : bool) (s : jstring) : list N :=
  match s with
  | [] => []
  | c :: s' =>
      if skip then scalars_from false s'
      else if is_high_surrogate c then
        match s' with
        | d :: _ =>
            if is_low_surrogate d
            then (65536 + (c - 55296) * 1024 + (d - 56320)) :: scalars_from true s'
            else 65533 :: scalars_from false s'
        | [] => [65533]
        end
      else if is_low_surrogate c then 65533 :: scalars_from false s'
      else c :: scalars_from false s'
  end.

Definition scalars (s : jstring) : list N := scalars_from false s.

(** The UTF-8 bytes of a code point. *)
Definition utf8 (cp : N) : list N :=
  if cp <? 128 then [cp]
  else if cp <? 2048 then [192 + cp / 64; 128 + cp mod 64]
  else if cp <? 65536
  then [224 + cp / 4096; 128 + (cp / 64) mod 64; 128 + cp mod 64]
  else [240 + cp / 262144; 128 + (cp / 4096) mod 64;
        128 + (cp / 64) mod 64; 128 + cp mod 64].

Definition hex_digit (d : N) : N := if d <? 10 then 48 + d else 55 + d.

Definition is_alnum (c : N) : bool :=
  is_digit c || ((65 <=? c) && (c <=? 90)) || ((97 <=? c) && (c <=? 122)).

(** One byte, serialised: alphanumerics and [*-._] stay, a space becomes a
    plus sign, anything else is percent-encoded. *)
Definition encode_byte (b : N) : jstring :=
  if is_alnum b || (b =? 42) || (b =? 45) || (b =? 46) || (b =? 95) then [b]
  else if b =? 32 then [43]
  else [37; hex_digit (b / 16); hex_digit (b mod 16)].

Definition encode (s : jstring) : jstring :=
  flat_map encode_byte (flat_map utf8 (scalars s)).

(** [name=value] pairs joined by [&]. *)
Fixpoint join_pairs (params : list (jstring * jstring)) : jstring :=
  match params with
  | [] => []
  | [(k, v)] => encode k ++ 61 :: encode v
  | (k, v) :: rest => encode k ++ 61 :: encode v ++ 38 :: join_pairs rest
  end.

Definition toString (params : list (jstring * jstring)) : jstring :=
  join_pairs params.

End URLSearchParams.

(** * parse.ts *)

Module Parse.
Import JS.

(** ** cleanText *)

(** The length of the match of [<!--[\s\S]*?-->] at the head of [s], when
    there is one: the lazy star stops at the first ["-->"] after the
    opening. *)
Definition comment_length (s : jstring) : option nat :=
  if startsWith (str "<!--") s
  then (fun k => (4 + k + 3)%nat) <$> indexOf (str "-->") (drop 4 s)
  else None.

(** [.replace(/<!--[\s\S]*?-->/g, '')]: [skip] counts the code units of the
    current match that are still to be dropped. *)
Fixpoint remove_comments_from (skip : nat) (s : jstring) : jstring :=
  match s with
  | [] => []
  | c :: s' =>
      match skip with
      | S k => remove_comments_from k s'
      | O => match comment_length s with
             | Some n => remove_comments_from (pred n) s'
             | None => c :: remove_comments_from 0 s'
             end
      end
  end.

Definition remove_comments (s : jstring) : jstring := remove_comments_from 0 s.

(** [.replace(/\*+/g, '')] *)
Definition remove_asterisks (s : jstring) : jstring :=
  List.filter (fun c => negb (c =? 42)) s.

(** [.replace(/\s+/g, ' ')]: [in_run] says that the previous code unit was
    white space, whose run has already been replaced. *)
Fixpoint collapse_spaces_from (in_run : bool) (s : jstring) : jstring :=
  match s with
  | [] => []
  | c :: s' =>
      if is_space c
      then if in_run then collapse_spaces_from true s'
           else 32 :: collapse_spaces_from true s'
      else c :: collapse_spaces_from false s'
  end.

Definition collapse_spaces (s : jstring) : jstring := collapse_spaces_from false s.

(** The class [[\w\s\-.,!?()&$+]]. *)
Definition allowed (c : N) : bool :=
  is_word c || is_space c
  || (c =? 45) || (c =? 46) || (c =? 44) || (c =? 33) || (c =? 63)
  || (c =? 40) || (c =? 41) || (c =? 38) || (c =? 36) || (c =? 43).

(** [.replace(/[^\w\s\-.,!?()&$+]/g, '')] *)
Definition strip_special (s : jstring) : jstring := List.filter allowed s.

Definition cleanText (text : jstring) : jstring :=
  if negb (truthy text) then []
  else trim (strip_special (collapse_spaces (remove_asterisks (remove_comments text)))).

(** ** normalizeLinkedInUrl *)

Definition origin : jstring := str "https://www.linkedin.com".

Definition normalizeLinkedInUrl (url : jstring) : jstring :=
  if negb (truthy url) then []
  else if startsWith (str "/") url then origin ++ url else url.

(** ** extractNumberFromText *)

(** The longest prefix of at most [n] digits, and what follows it. *)
Fixpoint take_digits (n : nat) (s : jstring) : jstring * jstring :=
  match n, s with
  | S n', c :: s' =>
      if is_digit c
      then let '(ds, r) := take_digits n' s' in (c :: ds, r)
      else ([], s)
  | _, _ => ([], s)
  end.

(** The greedy repetition of [,\d{3}]: the groups matched at the head of
    [s]. *)
Fixpoint comma_groups (s : jstring) : jstring :=
  match s with
  | c :: d1 :: d2 :: d3 :: s' =>
      if (c =? 44) && is_digit d1 && is_digit d2 && is_digit d3
      then c :: d1 :: d2 :: d3 :: comma_groups s'
      else []
  | _ => []
  end.

(** Capture group 1 of the pattern of [extractNumberFromText] (one to
    three digits, then any number of groups of a comma and three digits,
    then an optional plus sign outside the group) matched at the head of
    [s], which starts with a digit. Every part after the first digit is
    optional, so the greedy choice never has to be undone. *)
Definition number_at (s : jstring) : jstring :=
  let '(ds, r) := take_digits 3 s in ds ++ comma_groups r.

(** [text.match(...)] for that pattern, reduced to its capture group: the
    match starts at the first digit of the text. *)
Fixpoint match_number (s : jstring) : option jstring :=
  match s with
  | [] => None
  | c :: s' => if is_digit c then Some (number_at s) else match_number s'
  end.

(** [.replace(/,/g, '')] *)
Definition remove_commas (s : jstring) : jstring :=
  List.filter (fun c => negb (c =? 44)) s.

Definition extractNumberFromText (text : jstring) : option number :=
  if negb (truthy text) then None
  else match match_number text with
       | Some m => Some (parseInt10 (remove_commas m))
       | None => None
       end.

(** ** The parsed document

    [cheerio] is a library outside the repository: the extractor sees a
    document only through the queries it makes. A selector is the source's
    string (with the quotes inside attribute selectors written as single
    quotes, which CSS reads the same way). *)

Record Element := {
  (** [$el.find(sel).text()] *)
  find_text : string -> jstring;
  (** [$el.find(sel).first().text()] *)
  find_first_text : string -> jstring;
  (** [$el.find(sel).attr(name)] *)
  find_attr : string -> string -> option jstring
}.

Record Document := {
  (** [$(sel).toArray()], in document order *)
  select : string -> list Element;
  (** [$(sel).text()] *)
  select_text : string -> jstring;
  (** [$(sel).attr(name)] *)
  select_attr : string -> string -> option jstring;
  (** [$(sel)]: [None] when nothing matches ([length] is 0), otherwise
      what [.html()] returns, a string or [null] *)
  select_html : string -> option (option jstring);
  (** [$('body')] *)
  body : Element
}.

Module JobSearchResult.
Record t := {
  jobTitle : jstring;
  companyName : jstring;
  location : jstring;
  jobUrl : jstring;
  postedTime : jstring;
  jobType : jstring;
  salaryRange : jstring;
  description : jstring
}.
End JobSearchResult.

Module SearchResults.
Record t := {
  jobs : list JobSearchResult.t;
  totalResults : option number;
  extractedAt : jstring
}.
End SearchResults.

Module JobData.
Record t := {
  jobTitle : jstring;
  companyName : jstring;
  location : jstring;
  salaryRange : jstring;
  jobDescription : jstring;
  postedTime : option jstring;
  applicants : jstring;
  jobUrl : option jstring;
  companyId : option jstring;
  titleId : option jstring;
  extractedAt : jstring
}.
End JobData.

Local Open Scope string_scope.

Definition JOB_CARD_SELECTORS : string :=
  String.concat ", "
    [ ".base-card.main-job-card";
      ".base-card[data-entity-urn*='jobPosting']";
      ".job-search-card";
      ".base-main-card" ].

Definition TITLE_SELECTORS : list string :=
  [ "h3.base-main-card__title";
    "h3.base-search-card__title";
    ".main-job-card__title" ].

Definition COMPANY_SELECTORS : list string :=
  [ "h4.base-main-card__subtitle a";
    "h4.base-search-card__subtitle a";
    ".main-job-card__company" ].

(** The local [descSelectors] of [extractJobDetail]. *)
Definition descSelectors : list string :=
  [ ".show-more-less-html__markup"; ".description__text"; ".job-description" ].

Local Close Scope string_scope.

(** ** Selector helpers *)

Fixpoint extractTextWithSelectors (el : Element) (selectors : list string) : jstring :=
  match selectors with
  | [] => []
  | selector :: rest =>
      let text := cleanText (find_first_text el selector) in
      if truthy text then text else extractTextWithSelectors el rest
  end.

Definition extractTextWithFallback (el : Element) (primary fallback : string) : jstring :=
  or_else (cleanText (find_text el primary)) (cleanText (find_text el fallback)).

(** [a || b] where [a] is a string or [undefined], and so is the result. *)
Definition opt_or_else (a b : option jstring) : option jstring :=
  match a with
  | Some (_ :: _) => a
  | _ => b
  end.

(** [a || ''] where [a] is a string or [undefined]. *)
Definition opt_or_empty (a : option jstring) : jstring :=
  match a with Some s => s | None => [] end.

(** ** extractJobSearchResults *)

(** The title of a listing card: the selector list, then the tracking
    link. *)
Definition card_title (card : Element) : jstring :=
  let jobTitle := extractTextWithSelectors card TITLE_SELECTORS in
  if negb (truthy jobTitle)
  then cleanText (find_first_text card "a[data-tracking-control-name*='job'] span")
  else jobTitle.

(** The company of a listing card, likewise. *)
Definition card_company (card : Element) : jstring :=
  let companyName := extractTextWithSelectors card COMPANY_SELECTORS in
  if negb (truthy companyName)
  then cleanText (find_text card "a[data-tracking-control-name*='company']")
  else companyName.

(** The body of the first [forEach]: the item a card contributes, if any. *)
Definition job_card (card : Element) : option JobSearchResult.t :=
  let jobTitle := card_title card in
  let companyName := card_company card in
  if negb (truthy jobTitle) || negb (truthy companyName) then None
  else
    let jobUrl := normalizeLinkedInUrl (opt_or_empty
      (find_attr card "a.base-card__full-link, a[href*='/jobs/view/']" "href")) in
    let location := or_else (cleanText (find_first_text card
      ".main-job-card__location, .job-search-card__location, .base-main-card__metadata span"))
      (str "Not specified") in
    let postedTime := cleanText (find_text card
      "time.main-job-card__listdate, time.job-search-card__listdate, time") in
    let salaryRange := cleanText (find_text card
      ".main-job-card__salary-info, .job-search-card__salary-info, .salary") in
    let jobType := cleanText (find_text card
      ".job-posting-benefits__text, .main-job-card__job-type") in
    let description := cleanText (find_text card
      ".job-search-card__snippet, .base-search-card__snippet, .main-job-card__snippet") in
    Some {| JobSearchResult.jobTitle := jobTitle;
            JobSearchResult.companyName := companyName;
            JobSearchResult.location := location;
            JobSearchResult.jobUrl := jobUrl;
            JobSearchResult.postedTime := postedTime;
            JobSearchResult.jobType := jobType;
            JobSearchResult.salaryRange := salaryRange;
            JobSearchResult.description := description |}.

Definition similar_title (card : Element) : jstring :=
  cleanText (find_text card "h3.base-main-card__title, .sr-only").

Definition similar_company (card : Element) : jstring :=
  cleanText (find_text card "h4.base-main-card__subtitle a").

(** The body of the second [forEach], over the similar-jobs cards. *)
Definition similar_job_card (card : Element) : option JobSearchResult.t :=
  let jobTitle := similar_title card in
  let companyName := similar_company card in
  if negb (truthy jobTitle) || negb (truthy companyName) then None
  else
    let jobUrl := normalizeLinkedInUrl (opt_or_empty
      (find_attr card "a.base-card__full-link" "href")) in
    let location := or_else (cleanText (find_text card ".main-job-card__location"))
      (str "Not specified") in
    let salaryRange := cleanText (find_text card ".main-job-card__salary-info") in
    let postedTime := cleanText (find_text card "time.main-job-card__listdate") in
    Some {| JobSearchResult.jobTitle := jobTitle;
            JobSearchResult.companyName := companyName;
            JobSearchResult.location := location;
            JobSearchResult.jobUrl := jobUrl;
            JobSearchResult.postedTime := postedTime;
            JobSearchResult.jobType := [];
            JobSearchResult.salaryRange := salaryRange;
            JobSearchResult.description := [] |}.

Definition SIMILAR_JOBS_SELECTOR : string :=
  ".base-card[data-tracking-control-name='public_jobs_similar-jobs']".

Definition TOTAL_RESULTS_SELECTOR : string :=
  ".results-context-header__job-count, .jobs-search-results-list__subtitle, .search-results__total".

(** [now] is [new Date().toISOString()] at the time of the call. *)
Definition extractJobSearchResults (doc : Document) (now : jstring) : SearchResults.t :=
  let jobCards := select doc JOB_CARD_SELECTORS in
  let jobs : list JobSearchResult.t := omap job_card jobCards in
  let totalResultsText := select_text doc TOTAL_RESULTS_SELECTOR in
  let totalResults :=
    if truthy totalResultsText then extractNumberFromText totalResultsText else None in
  let jobs :=
    if (length jobs =? 0)%nat
    then jobs ++ omap similar_job_card (select doc SIMILAR_JOBS_SELECTOR)
    else jobs in
  {| SearchResults.jobs := jobs;
     SearchResults.totalResults := totalResults;
     SearchResults.extractedAt := now |}.

(** ** extractJobDetail *)

(** Whether all of [s] is a match of [\s*\|\s*LinkedIn], up to its end. *)
Definition is_site_suffix (s : jstring) : bool :=
  match trimStart s with
  | c :: s' => (c =? 124) && bool_decide (trimStart s' = str "LinkedIn")
  | [] => false
  end.

(** [.replace(/\s*\|\s*LinkedIn$/, '')]: the match is the leftmost suffix
    of that form. *)
Fixpoint strip_site_suffix (s : jstring) : jstring :=
  if is_site_suffix s then []
  else match s with
       | c :: s' => c :: strip_site_suffix s'
       | [] => []
       end.

(** [s.split(sep)[0]] for a non-empty separator. *)
Definition split_first (sep s : jstring) : jstring :=
  match indexOf sep s with
  | Some i => take i s
  | None => s
  end.

Definition is_digit_or_colon (c : N) : bool := is_digit c || (c =? 58).

(** The match of [Posted\s+[\d:]+\s+[AP]M] at the head of [s], if any.
    The classes that follow one another are disjoint, so each greedy run
    is the only choice. *)
Definition posted_at (s : jstring) : option jstring :=
  if startsWith (str "Posted") s then
    let r0 := drop 6 s in
    let w1 := take_while is_space r0 in
    let r1 := drop (length w1) r0 in
    let d := take_while is_digit_or_colon r1 in
    let r2 := drop (length d) r1 in
    let w2 := take_while is_space r2 in
    let r3 := drop (length w2) r2 in
    match w1, d, w2, r3 with
    | _ :: _, _ :: _, _ :: _, c :: 77 :: _ =>
        if (c =? 65) || (c =? 80)
        then Some (str "Posted" ++ w1 ++ d ++ w2 ++ [c; 77])
        else None
    | _, _, _, _ => None
    end
  else None.

(** [s.match(/Posted\s+[\d:]+\s+[AP]M/)?.[0]] *)
Fixpoint match_posted (s : jstring) : option jstring :=
  match posted_at s with
  | Some m => Some m
  | None => match s with
            | _ :: s' => match_posted s'
            | [] => None
            end
  end.

(** The [for] loop over [descSelectors]. *)
Fixpoint first_description (doc : Document) (descSelectors : list string) : jstring :=
  match descSelectors with
  | [] => []
  | selector :: rest =>
      match select_html doc selector with
      | Some html => opt_or_empty (trim <$> html)
      | None => first_description doc rest
      end
  end.

(** The title chain of [extractJobDetail]. *)
Definition detail_title (doc : Document) : jstring :=
  or_else (cleanText (select_text doc ".topcard__title"))
    (or_else (cleanText (select_text doc "h1[data-test-id='job-title']"))
       (cleanText (strip_site_suffix (select_text doc "title")))).

(** The company chain of [extractJobDetail]. *)
Definition detail_company (doc : Document) : jstring :=
  or_else (cleanText (select_text doc ".topcard__org-name-link"))
    (or_else (cleanText (select_text doc ".sub-nav-cta__optional-url"))
       (or_else
          (opt_or_empty
             ((fun c => trim (split_first (str " hiring ") c))
                <$> select_attr doc "meta[property='og:title']" "content"))
          [])).

(** The location pair of [extractJobDetail]. *)
Definition detail_location (doc : Document) : jstring :=
  extractTextWithFallback (body doc) ".topcard__flavor--bullet" ".sub-nav-cta__meta-text".

(** [now] is [new Date().toISOString()] at the time of the call. *)
Definition extractJobDetail (doc : Document) (now : jstring) : option JobData.t :=
  let jobTitle := detail_title doc in
  let companyName := detail_company doc in
  if negb (truthy jobTitle) && negb (truthy companyName) then None
  else
    let location := detail_location doc in
    let salaryRange := extractTextWithFallback (body doc)
      ".compensation__salary" ".salary" in
    let jobDescription := first_description doc descSelectors in
    let postedTime :=
      match cleanText (select_text doc ".posted-time-ago__text") with
      | (_ :: _) as t => Some t
      | [] => select_attr doc "meta[name='description']" "content" ≫= match_posted
      end in
    let applicants := cleanText (select_text doc ".num-applicants__caption") in
    let jobUrl := opt_or_else (select_attr doc "link[rel='canonical']" "href")
      (select_attr doc "meta[property='og:url']" "content") in
    let companyId := select_attr doc "meta[name='companyId']" "content" in
    let titleId := select_attr doc "meta[name='titleId']" "content" in
    Some {| JobData.jobTitle := or_else jobTitle (str "Unknown Title");
            JobData.companyName := or_else companyName (str "Unknown Company");
            JobData.location := or_else location (str "Unknown Location");
            JobData.salaryRange := salaryRange;
            JobData.jobDescription := jobDescription;
            JobData.postedTime := postedTime;
            JobData.applicants := applicants;
            JobData.jobUrl := jobUrl;
            JobData.companyId := companyId;
            JobData.titleId := titleId;
            JobData.extractedAt := now |}.

(** ** preprocessHtml *)

(** The replacement function of the second [replace]: the character an
    escape letter stands for. *)
Definition unescape_char (c : N) : option N :=
  if c =? 110 then Some 10
  else if c =? 114 then Some 13
  else if c =? 116 then Some 9
  else if c =? 34 then Some 34
  else if c =? 92 then Some 92
  else None.

(** The second [replace] of [preprocessHtml], of a backslash followed by
    one of the five escape letters: [skip] says that the code unit at the
    head is the second one of the match just replaced. *)
Fixpoint unescape_from (skip : bool) (s : jstring) : jstring :=
  match s with
  | [] => []
  | c :: s' =>
      if skip then unescape_from false s'
      else
        match (if c =? 92
               then match s' with d :: _ => unescape_char d | [] => None end
               else None) with
        | Some r => r :: unescape_from true s'
        | None => c :: unescape_from false s'
        end
  end.

Definition unescape (s : jstring) : jstring := unescape_from false s.

Definition preprocessHtml (html : jstring) : jstring :=
  if negb (truthy html) then [] else unescape (remove_comments html).

(** ** The entry points

    [load] is [cheerio.load]. *)

Definition scrapeSearchResults (load : jstring -> Document) (html now : jstring)
    : SearchResults.t :=
  extractJobSearchResults (load (preprocessHtml html)) now.

(** [LinkedInScraper.prototype.scrape] *)
Definition scrape_detail (load : jstring -> Document) (html now : jstring)
    : option JobData.t :=
  extractJobDetail (load (preprocessHtml html)) now.

(** ** createScraper *)

(** What a call that may throw an [Error] gives. *)
Inductive thrown (A : Type) :=
| Returns (a : A)
| Throws (message : jstring).
Arguments Returns {A} a.
Arguments Throws {A} message.

Inductive scraper := LinkedInScraper.

Definition createScraper (url : jstring) : thrown scraper :=
  if includes (str "linkedin.com") url then Returns LinkedInScraper
  else Throws (str "No scraper available for URL: " ++ url).

(** ** extractPlainTextFromDescription

    [text_of html] is [cheerio.load(html).text()]. *)
Definition extractPlainTextFromDescription (text_of : jstring -> jstring)
    (html : jstring) : jstring :=
  if negb (truthy html) then [] else trim (collapse_spaces (text_of html)).

End Parse.

(** * scrape.ts *)

Module Scrape.
Import JS.

Local Open Scope Z_scope.

(** ** The result cache *)

Definition CACHE_DURATION : Z := 10 * 60 * 1000.
Definition MAX_CACHE_SIZE : nat := 50.
Definition MIN_REQUEST_INTERVAL : Z := 1500.

Record CacheEntry := { html : jstring; timestamp : Z }.

(** The [Map] called [cache]: its entries in insertion order, one per key. *)
Abbreviation Cache := (list (jstring * CacheEntry)).

(** [Map.prototype.get] *)
Fixpoint map_get (k : jstring) (m : Cache) : option CacheEntry :=
  match m with
  | [] => None
  | (k', v) :: m' => if decide (k' = k) then Some v else map_get k m'
  end.

(** [Map.prototype.set]: a key that is present keeps its position, a new
    key goes last. *)
Fixpoint map_set (k : jstring) (v : CacheEntry) (m : Cache) : Cache :=
  match m with
  | [] => [(k, v)]
  | (k', v') :: m' =>
      if decide (k' = k) then (k, v) :: m' else (k', v') :: map_set k v m'
  end.

(** [Map.prototype.delete] *)
Fixpoint map_delete (k : jstring) (m : Cache) : Cache :=
  match m with
  | [] => []
  | (k', v') :: m' =>
      if decide (k' = k) then m' else (k', v') :: map_delete k m'
  end.

(** One step of a stable sort by [timestamp]: [x] stood before all of [l]
    in the array, so it goes before the entries of equal timestamp. *)
Fixpoint sort_insert (x : jstring * CacheEntry) (l : Cache) : Cache :=
  match l with
  | [] => [x]
  | y :: l' =>
      if timestamp (snd x) <=? timestamp (snd y) then x :: l
      else y :: sort_insert x l'
  end.

(** [entries.sort((a, b) => a[1].timestamp - b[1].timestamp)];
    [Array.prototype.sort] is stable. *)
Fixpoint sort_by_timestamp (entries : Cache) : Cache :=
  match entries with
  | [] => []
  | x :: l => sort_insert x (sort_by_timestamp l)
  end.

(** [now] is the value of [Date.now()]. *)
Definition getCachedResult (now : Z) (cache : Cache) (url : jstring) : option jstring :=
  match map_get url cache with
  | Some cached =>
      if now - timestamp cached <? CACHE_DURATION then Some (html cached) else None
  | None => None
  end.

Definition setCachedResult (now : Z) (url html : jstring) (cache : Cache) : Cache :=
  let cache := map_set url {| html := html; timestamp := now |} cache in
  if (MAX_CACHE_SIZE <? length cache)%nat then
    match sort_by_timestamp cache with
    | (oldestKey, _) :: _ => map_delete oldestKey cache
    | [] => cache
    end
  else cache.

(** ** The event loop

    The module state of [scrape.ts], the request promises that exist, and
    where each of them is suspended. *)

(** How a request promise settles. *)
Inductive outcome :=
| Resolved (html : jstring)
| Rejected (message : jstring).

(** The [await] at which the body of a request promise is suspended. *)
Inductive phase :=
| Sleeping (due : Z)     (** in [waitForRateLimit], on the timer *)
| Limited                (** [waitForRateLimit] has returned *)
| Fetching               (** in the [try] block of [scrapeInternal] *)
| Closing (r : outcome). (** in its [finally], on [page.close()] *)

Inductive promise :=
| InFlight (url : jstring) (ph : phase)
| Settled (r : outcome).

Record state := {
  (** [Date.now()] *)
  clock : Z;
  cache : Cache;
  lastRequestTime : Z;
  (** [pendingRequests], from a URL to the identity of its promise *)
  pendingRequests : gmap jstring nat;
  (** every [requestPromise] created so far, by identity *)
  promises : list promise;
  (** the URLs [scrapeInternal] was entered with, latest first *)
  navigations : list jstring
}.

Definition init (now : Z) : state :=
  {| clock := now; cache := []; lastRequestTime := 0;
     pendingRequests := ∅; promises := []; navigations := [] |}.

Definition set_clock (t : Z) (s : state) : state :=
  {| clock := t; cache := cache s; lastRequestTime := lastRequestTime s;
     pendingRequests := pendingRequests s; promises := promises s;
     navigations := navigations s |}.

Definition set_cache (c : Cache) (s : state) : state :=
  {| clock := clock s; cache := c; lastRequestTime := lastRequestTime s;
     pendingRequests := pendingRequests s; promises := promises s;
     navigations := navigations s |}.

Definition set_lastRequestTime (t : Z) (s : state) : state :=
  {| clock := clock s; cache := cache s; lastRequestTime := t;
     pendingRequests := pendingRequests s; promises := promises s;
     navigations := navigations s |}.

Definition set_pendingRequests (m : gmap jstring nat) (s : state) : state :=
  {| clock := clock s; cache := cache s; lastRequestTime := lastRequestTime s;
     pendingRequests := m; promises := promises s;
     navigations := navigations s |}.

Definition set_promises (l : list promise) (s : state) : state :=
  {| clock := clock s; cache := cache s; lastRequestTime := lastRequestTime s;
     pendingRequests := pendingRequests s; promises := l;
     navigations := navigations s |}.

Definition set_navigations (l : list jstring) (s : state) : state :=
  {| clock := clock s; cache := cache s; lastRequestTime := lastRequestTime s;
     pendingRequests := pendingRequests s; promises := promises s;
     navigations := l |}.

(** [waitForRateLimit] up to its [await]: either the timer is set, to fire
    [waitTime] from now, or the function runs to its end. *)
Definition waitForRateLimit_begin (s : state) : phase * state :=
  let now := clock s in
  let timeSinceLastRequest := now - lastRequestTime s in
  if timeSinceLastRequest <? MIN_REQUEST_INTERVAL then
    let waitTime := MIN_REQUEST_INTERVAL - timeSinceLastRequest in
    (Sleeping (now + waitTime), s)
  else (Limited, set_lastRequestTime (clock s) s).

(** [waitForRateLimit] after its [await]. *)
Definition waitForRateLimit_end (s : state) : state :=
  set_lastRequestTime (clock s) s.

(** What a caller of [scrape] holds: the cached markup, or a request
    promise to wait for. *)
Inductive reply :=
| Immediate (html : jstring)
| Awaiting (p : nat).

(** [scrape(url)] up to its first suspension. *)
Definition scrape (url : jstring) (s : state) : reply * state :=
  match getCachedResult (clock s) (cache s) url with
  | Some (c :: h) => (Immediate (c :: h), s)
  | _ =>
      match pendingRequests s !! url with
      | Some existingRequest => (Awaiting existingRequest, s)
      | None =>
          let '(ph, s) := waitForRateLimit_begin s in
          let requestPromise := length (promises s) in
          let s := set_promises (promises s ++ [InFlight url ph]) s in
          let s := set_pendingRequests (<[url := requestPromise]> (pendingRequests s)) s in
          (Awaiting requestPromise, s)
      end
  end.

(** The [catch] of [scrapeInternal]: the message of the error it throws
    for an [Error] with the given message ([None]: what was thrown is not
    an [Error]). *)
Definition translate_error (e : option jstring) : jstring :=
  match e with
  | Some message =>
      if includes (str "429") message
      then str "Rate limit exceeded. Please wait and try again."
      else if includes (str "Timeout") message
      then str "Request timed out. The site may be blocking automated access."
      else str "Failed to scrape the webpage"
  | None => str "Failed to scrape the webpage"
  end.

(** [clearCache()] *)
Definition clearCache (s : state) : state :=
  set_pendingRequests ∅ (set_cache [] s).

(** What can happen next. [NODE_ENV] is taken not to be [development]. *)
Inductive event :=
| Tick (d : Z)                          (** [d] milliseconds pass *)
| Request (url : jstring)               (** somebody calls [scrape(url)] *)
| Wake (p : nat)                        (** the timer of [p] fires *)
| Enter (p : nat)                       (** [p] enters [scrapeInternal] *)
| Content (p : nat) (html : jstring)    (** [page.content()] returns *)
| Throw (p : nat) (e : option jstring)  (** the [try] block throws *)
| Close (p : nat)                       (** the [finally] blocks run *)
| CloseThrow (p : nat) (message : jstring)
    (** [page.close()] rejects with an [Error] of this message, in the
        [finally] of [scrapeInternal]; the outer [finally] runs *)
| Clear.                                (** somebody calls [clearCache()] *)

#[global] Instance event_eq_dec : EqDecision event.
Proof. solve_decision. Defined.

Definition set_phase (p : nat) (url : jstring) (ph : phase) (s : state) : state :=
  set_promises (<[p := InFlight url ph]> (promises s)) s.

(** One event, when the state allows it. *)
Definition step (e : event) (s : state) : option state :=
  match e with
  | Tick d => if 0 <=? d then Some (set_clock (clock s + d) s) else None
  | Request url => Some (snd (scrape url s))
  | Wake p =>
      match promises s !! p with
      | Some (InFlight url (Sleeping due)) =>
          if due <=? clock s
          then Some (set_phase p url Limited (waitForRateLimit_end s))
          else None
      | _ => None
      end
  | Enter p =>
      match promises s !! p with
      | Some (InFlight url Limited) =>
          Some (set_phase p url Fetching
                  (set_navigations (url :: navigations s) s))
      | _ => None
      end
  | Content p html =>
      match promises s !! p with
      | Some (InFlight url Fetching) =>
          Some (set_phase p url (Closing (Resolved html))
                  (set_cache (setCachedResult (clock s) url html (cache s)) s))
      | _ => None
      end
  | Throw p e =>
      match promises s !! p with
      | Some (InFlight url Fetching) =>
          Some (set_phase p url (Closing (Rejected (translate_error e))) s)
      | _ => None
      end
  | Close p =>
      match promises s !! p with
      | Some (InFlight url (Closing r)) =>
          Some (set_promises (<[p := Settled r]> (promises s))
                  (set_pendingRequests (delete url (pendingRequests s)) s))
      | _ => None
      end
  | CloseThrow p message =>
      match promises s !! p with
      | Some (InFlight url (Closing _)) =>
          Some (set_promises (<[p := Settled (Rejected message)]> (promises s))
                  (set_pendingRequests (delete url (pendingRequests s)) s))
      | _ => None
      end
  | Clear => Some (clearCache s)
  end.

Fixpoint run (es : list event) (s : state) : option state :=
  match es with
  | [] => Some s
  | e :: es' => step e s ≫= run es'
  end.

(** The states the module can be in. *)
Definition reachable (s : state) : Prop :=
  exists now es, run es (init now) = Some s.


(** ** getCacheStats *)

Module CacheStats.
Record t := { size : nat; duration : Z; pendingRequests : nat }.
End CacheStats.

Definition getCacheStats (s : state) : CacheStats.t :=
  {| CacheStats.size := length (cache s);
     CacheStats.duration := CACHE_DURATION;
     CacheStats.pendingRequests := base.size (pendingRequests s) |}.

(** ** buildLinkedInSearchUrl *)

(** [location] is [None] when the argument is [undefined]. *)
Definition buildLinkedInSearchUrl (jobTitle : jstring) (location : option jstring)
    : jstring :=
  let baseUrl := str "https://www.linkedin.com/jobs/search" in
  let params := [] in
  let params :=
    if truthy jobTitle then params ++ [(str "keywords", jobTitle)] else params in
  let params :=
    match location with
    | Some (c :: l) => params ++ [(str "location", c :: l)]
    | _ => params
    end in
  let params := params ++ [(str "f_TPR", str "r604800")] in
  let params := params ++ [(str "position", str "1")] in
  let params := params ++ [(str "pageNum", str "0")] in
  baseUrl ++ 63%N :: URLSearchParams.toString params.

End Scrape.

(** * The API routes *)

Module Route.
Import JS Parse Scrape.

(** The body of a [NextResponse.json]. *)
Inductive body :=
| ErrorBody (error : jstring)
| SearchBody (results : SearchResults.t)
| DetailBody (jobData : JobData.t).

Record response := { status : nat; json : body }.

(** What the routes take from outside: what [await scrape(url)] gives for a
    URL, [cheerio.load], and the time of each [new Date().toISOString()]. *)
Record world := {
  fetch : jstring -> outcome;
  load : jstring -> Document;
  now : jstring;
  later : jstring
}.

(** [searchJobs] from the markup on. *)
Definition searchJobs_results (w : world) (html : jstring) : SearchResults.t :=
  let searchResults := scrapeSearchResults (load w) html (now w) in
  if (0 <? length (SearchResults.jobs searchResults))%nat then searchResults
  else {| SearchResults.jobs := [];
          SearchResults.totalResults := Some (Int 0);
          SearchResults.extractedAt := later w |}.

(** A query parameter that is [null] or blank: [!param?.trim()]. *)
Definition blank (param : option jstring) : bool :=
  match param with
  | Some v => negb (truthy (trim v))
  | None => true
  end.

(** [location || undefined] *)
Definition or_undefined (param : option jstring) : option jstring :=
  match param with
  | Some (c :: l) => Some (c :: l)
  | _ => None
  end.

(** [GET] of the search route, for the parameters [q] and [location]. *)
Definition search_GET (w : world) (q location : option jstring) : response :=
  if blank q then {| status := 400; json := ErrorBody (str "Job title is required") |}
  else
    let jobTitle := default [] q in
    match fetch w (buildLinkedInSearchUrl jobTitle (or_undefined location)) with
    | Resolved html => {| status := 200; json := SearchBody (searchJobs_results w html) |}
    | Rejected message => {| status := 500; json := ErrorBody message |}
    end.

(** [GET] of the job-details route, for the parameter [url]. *)
Definition details_GET (w : world) (url : option jstring) : response :=
  if blank url then {| status := 400; json := ErrorBody (str "Job URL is required") |}
  else
    match fetch w (default [] url) with
    | Resolved html =>
        match scrape_detail (load w) html (now w) with
        | Some jobData => {| status := 200; json := DetailBody jobData |}
        | None =>
            {| status := 404;
               json := ErrorBody (str "Unable to extract job details. This might be due to LinkedIn's anti-bot measures or an invalid URL.") |}
        end
    | Rejected message => {| status := 500; json := ErrorBody message |}
    end.

End Route.

(** * Vocabulary of the specification *)

Module Spec.
Import JS Parse Scrape.

(** A string of allowed characters whose only white space is the space. *)
Definition plain (s : jstring) : Prop :=
  Forall (fun c => allowed c = true /\ (is_space c = true -> c = 32)) s.

(** A string that neither starts nor ends with white space. *)
Definition trimmed (s : jstring) : Prop :=
  s = [] \/ exists c m d, (s = [c] \/ s = c :: m ++ [d])
                          /\ is_space c = false /\ is_space d = false.

(** Groups of a comma and three digits. *)
Inductive comma_grouped : jstring -> Prop :=
| grouped_nil : comma_grouped []
| grouped_cons d1 d2 d3 gs :
    is_digit d1 = true -> is_digit d2 = true -> is_digit d3 = true ->
    comma_grouped gs ->
    comma_grouped (44 :: d1 :: d2 :: d3 :: gs).

(** A run of digits with thousands separators: one to three digits, then
    groups of a comma and three digits. *)
Definition thousands_run (r : jstring) : Prop :=
  exists ds gs, r = ds ++ gs /\ (1 <= length ds <= 3)%nat
    /\ Forall (fun c => is_digit c = true) ds /\ comma_grouped gs.

(** [run] is the first such run of [text]: no digit comes before it, and
    no longer run starts where it starts. *)
Definition first_run (text run : jstring) : Prop :=
  exists pre rest, text = pre ++ run ++ rest
    /\ Forall (fun c => is_digit c = false) pre
    /\ thousands_run run
    /\ forall run', thousands_run run' -> run' `prefix_of` (run ++ rest) ->
         (length run' <= length run)%nat.

(** A listing card that has both a title and a company. *)
Definition valid_card (card : Element) : bool :=
  truthy (card_title card) && truthy (card_company card).

(** The same for a card of the similar-jobs pass. *)
Definition valid_similar_card (card : Element) : bool :=
  truthy (similar_title card) && truthy (similar_company card).

(** The number of elements of [l] that satisfy [f]. *)
Definition count {A} (f : A -> bool) (l : list A) : nat := length (List.filter f l).

(** An item that has a title and a company. *)
Definition named (item : JobSearchResult.t) : Prop :=
  JobSearchResult.jobTitle item <> [] /\ JobSearchResult.companyName item <> [].

Abbreviation keys m := (map fst (m : Cache)).

(** The cache after a sequence of [setCachedResult(url, html)] calls on the
    empty cache, each with the value of [Date.now()] at its time. *)
Definition put_all (puts : list (Z * jstring * jstring)) : Cache :=
  fold_left (fun c '(now, url, html) => setCachedResult now url html c) puts [].

(** The URL of the job with the two-digit number [i]. *)
Definition job_url (i : nat) : jstring :=
  str "https://www.linkedin.com/jobs/view/"
  ++ [48 + N.of_nat (i / 10); 48 + N.of_nat (i mod 10)].

(** The URL of a search. *)
Definition search_url : jstring :=
  str "https://www.linkedin.com/jobs/search?keywords=engineer".

(** Fifty puts of distinct URLs, one a millisecond. *)
Definition fifty_puts : list (Z * jstring * jstring) :=
  map (fun i => (Z.of_nat i, job_url i, str "<html>")) (seq 0 50).

(** ** Invariants of the event loop *)

(** The keys of the cache are distinct, and [pendingRequests] holds exactly
    the request promises that have not settled, each under its URL. *)
Definition wf (s : state) : Prop :=
  NoDup (keys (cache s))
  /\ (forall url p, pendingRequests s !! url = Some p ->
        exists ph, promises s !! p = Some (InFlight url ph))
  /\ (forall p url ph, promises s !! p = Some (InFlight url ph) ->
        pendingRequests s !! url = Some p).

(** Whatever [pendingRequests] holds for a URL is a request promise for
    that URL that has not settled. *)
Definition pending_sound (s : state) : Prop :=
  forall url p, pendingRequests s !! url = Some p ->
    exists ph, promises s !! p = Some (InFlight url ph).

(** [clearCache()] is not called in [es]. *)
Definition uncleared (es : list event) : Prop := Forall (fun e => e <> Clear) es.

(** The states the module reaches as long as [clearCache()] is not
    called. *)
Definition reachable_uncleared (s : state) : Prop :=
  exists now es, uncleared es /\ run es (init now) = Some s.

(** How often [scrapeInternal] was entered with [url]. *)
Definition navigations_to (url : jstring) (s : state) : nat :=
  count (fun u => bool_decide (u = url)) (navigations s).


Definition entered (ph : phase) : nat :=
  match ph with Sleeping _ | Limited => 0 | Fetching | Closing _ => 1 end.



(** ** Traces to run the event loop on *)

Definition start_time : Z := 1700000000000.

(** The state after the events [es], from a fresh module at [start_time]. *)
Definition state_after (es : list event) : state :=
  default (init start_time) (run es (init start_time)).

(** A fetch of [url] from call to completion, as the request promise [p],
    begun 1500 ms after the last one so that it does not have to wait, and
    with three seconds in the browser. *)
Definition fetch_ok (p : nat) (url html : jstring) : list event :=
  [Tick 1500; Request url; Enter p; Tick 3000; Content p html; Close p].

(** Fetches of the jobs [from], ..., [from + n - 1], as the promises of the
    same numbers. *)
Definition fetch_many (from n : nat) : list event :=
  concat (map (fun i => fetch_ok i (job_url i) (str "<html>")) (seq from n)).

(** ** Documents to run the extractors on *)

Definition assoc {A} (default : A) (l : list (string * A)) (k : string) : A :=
  match List.find (fun kv => String.eqb (fst kv) k) l with
  | Some kv => snd kv
  | None => default
  end.

(** An element in which each listed selector matches one descendant with
    the given text, each listed pair of a selector and an attribute name
    has the given value, and nothing else matches. *)
Definition element_of (texts : list (string * jstring))
    (attrs : list (string * list (string * option jstring))) : Element :=
  {| find_text := assoc [] texts;
     find_first_text := assoc [] texts;
     find_attr := fun sel name => assoc None (assoc [] attrs sel) name |}.

(** A document with the given cards per card selector and the given texts
    and attributes per selector. *)
Definition document_of (cards : list (string * list Element))
    (texts : list (string * jstring))
    (attrs : list (string * list (string * option jstring))) : Document :=
  {| select := assoc [] cards;
     select_text := assoc [] texts;
     select_attr := fun sel name => assoc None (assoc [] attrs sel) name;
     select_html := fun _ => None;
     body := element_of [] [] |}.

Local Open Scope string_scope.

(** A page on which no selector matches anything. *)
Definition blank_page : Document := document_of [] [] [].

(** A detail page with a company link and no title of any kind. *)
Definition company_only_page : Document :=
  document_of [] [ (".topcard__org-name-link", str "Acme Corp") ] [].

(** The listing of the specification's example: card A has a title, a
    company and a relative link, card B has a title only. *)
Definition two_card_listing : Document :=
  document_of
    [ (JOB_CARD_SELECTORS,
       [ element_of
           [ ("h3.base-search-card__title", str "Backend Engineer");
             ("h4.base-search-card__subtitle a", str "Acme Corp") ]
           [ ("a.base-card__full-link, a[href*='/jobs/view/']",
              [ ("href", Some (str "/jobs/view/123")) ]) ];
         element_of [ ("h3.base-search-card__title", str "Data Analyst") ] [] ]) ]
    [ (TOTAL_RESULTS_SELECTOR, str "32,000+ results") ] [].

(** A page without listing cards whose only card is a similar-jobs card,
    [<div class='base-card' data-tracking-control-name='public_jobs_similar-jobs'>]
    with a [.sr-only] title and a company link under
    [h4.base-main-card__subtitle]. *)
Definition similar_jobs_page : Document :=
  document_of
    [ (SIMILAR_JOBS_SELECTOR,
       [ element_of
           [ ("h3.base-main-card__title, .sr-only", str "Backend Engineer");
             ("h4.base-main-card__subtitle a", str "Acme Corp") ] [] ]) ]
    [] [].

Local Close Scope string_scope.

(** ** Vocabulary of the further properties *)

(** [p] occurs in [s]. *)
Definition occurs (p s : jstring) : Prop := exists a b, s = a ++ p ++ b.

(** A string of white space. *)
Definition blank_string (w : jstring) : Prop := Forall (fun c => is_space c = true) w.

(** The escaping that [preprocessHtml] undoes: a backslash and a letter for
    a line feed, a carriage return, a tab, a double quote and a
    backslash. *)
Definition escape_char (c : N) : jstring :=
  if c =? 10 then [92; 110]
  else if c =? 13 then [92; 114]
  else if c =? 9 then [92; 116]
  else if c =? 34 then [92; 34]
  else if c =? 92 then [92; 92]
  else [c].

Definition escape (s : jstring) : jstring := flat_map escape_char s.

(** Every white-space character is a space, and no two stand side by
    side. *)
Definition single_spaced (s : jstring) : Prop :=
  Forall (fun c => is_space c = true -> c = 32) s
  /\ forall pre a b post, s = pre ++ a :: b :: post ->
       is_space a = true -> is_space b = true -> False.

(** The characters of a serialised query: alphanumerics, [*-._], the plus
    sign and the percent sign. *)
Definition query_safe (c : N) : bool :=
  URLSearchParams.is_alnum c || (c =? 42) || (c =? 45) || (c =? 46) || (c =? 95)
  || (c =? 43) || (c =? 37).

(** A UTF-16 code unit. *)
Definition code_unit (c : N) : Prop := c < 65536.

(** A name and a value made of code units. *)
Definition pair_units (kv : jstring * jstring) : Prop :=
  Forall code_unit (fst kv) /\ Forall code_unit (snd kv).

(** The number of request promises that have not settled. *)
Definition in_flight_count (l : list promise) : nat :=
  count (fun x => match x with InFlight _ _ => true | Settled _ => false end) l.



(** The cache holds at most 50 entries, under distinct URLs, none stamped
    later than the clock. *)
Definition cache_sound (s : state) : Prop :=
  NoDup (keys (cache s))
  /\ (length (cache s) <= MAX_CACHE_SIZE)%nat
  /\ Forall (fun x => (timestamp (snd x) <= clock s)%Z) (cache s).

(** [a] is the part of [s] before the first [sep], all of [s] when [sep]
    does not occur in it. *)
Definition before_first (sep s a : jstring) : Prop :=
  (~ occurs sep s /\ a = s)
  \/ (exists b, s = a ++ sep ++ b /\ ~ occurs sep (a ++ removelast sep)).

Local Open Scope string_scope.

(** A detail page whose only element is a title of asterisks. *)
Definition starred_title_page : Document :=
  document_of [] [ (".topcard__title", str "***") ] [].

(** A detail page whose only element is a [title] that is the site suffix
    and nothing else. *)
Definition suffix_title_page : Document :=
  document_of [] [ ("title", str " | LinkedIn") ] [].

(** A detail page whose only element is an [og:title] that starts with the
    separator. *)
Definition hiring_only_page : Document :=
  document_of [] []
    [ ("meta[property='og:title']", [ ("content", Some (str " hiring Engineer")) ]) ].

(** A detail page that names its company in the [og:title] only. *)
Definition og_title_page : Document :=
  document_of [] []
    [ ("meta[property='og:title']",
       [ ("content", Some (str "Acme* Corp hiring Engineer in Paris")) ]) ].

(** A detail page with a company link, and the posted time in its
    description meta tag only. *)
Definition posted_page : Document :=
  document_of [] [ (".topcard__org-name-link", str "Acme Corp") ]
    [ ("meta[name='description']",
       [ ("content", Some (str "Acme Corp hiring. Posted 10:30 AM. Apply now.")) ]) ].

Local Close Scope string_scope.

(** A listing page that shows a count of results and no card. *)
Definition count_only_page : Document :=
  document_of [] [ (TOTAL_RESULTS_SELECTOR, str "32,000+ results") ] [].

(** A world in which every fetch gives the same markup, which [cheerio]
    reads as [doc]. *)
Definition world_of (doc : Document) : Route.world :=
  {| Route.fetch := fun _ => Resolved (str "<html>");
     Route.load := fun _ => doc;
     Route.now := str "2024-01-01T00:00:00.000Z";
     Route.later := str "2024-01-01T00:00:00.001Z" |}.

End Spec.

Import JS Parse Scrape Spec.

(** * Properties of parse.ts *)

Module ParseFacts.

Lemma truthy_false (s : jstring) : truthy s = false <-> s = [].
Proof. destruct s; simpl; split; congruence. Qed.

Lemma truthy_true (s : jstring) : truthy s = true <-> s <> [].
Proof. destruct s; simpl; split; congruence. Qed.

Lemma or_else_nil (a b : jstring) : or_else a b = [] <-> a = [] /\ b = [].
Proof.
  unfold or_else. destruct a as [|c a]; simpl.
  - split; [intros ->; auto | intros [_ ->]; reflexivity].
  - split; [discriminate | intros [H _]; discriminate].
Qed.

Lemma or_else_nil_l (b : jstring) : or_else [] b = b.
Proof. reflexivity. Qed.

Lemma or_else_truthy (a b : jstring) : a <> [] -> or_else a b = a.
Proof. destruct a; [congruence | reflexivity]. Qed.

Lemma cleanText_nil : cleanText [] = [].
Proof. reflexivity. Qed.

(** C9. URL normalisation: the empty string stays empty, a URL that starts
    with a slash gets the origin [https://www.linkedin.com] in front, and
    any other non-empty URL is returned as it is. *)
Theorem normalizeLinkedInUrl_cases (url : jstring) :
  (url = [] -> normalizeLinkedInUrl url = [])
  /\ (startsWith (str "/") url = true ->
      normalizeLinkedInUrl url = str "https://www.linkedin.com" ++ url)
  /\ (url <> [] -> startsWith (str "/") url = false ->
      normalizeLinkedInUrl url = url).
Proof.
  unfold normalizeLinkedInUrl. split; [|split].
  - intros ->. reflexivity.
  - intros H. destruct url; [discriminate|]. simpl truthy. simpl negb.
    cbv iota. rewrite H. reflexivity.
  - intros Hne H. destruct url; [congruence|]. simpl truthy. simpl negb.
    cbv iota. rewrite H. reflexivity.
Qed.

Lemma normalizeLinkedInUrl_cases_witness :
  normalizeLinkedInUrl [] = []
  /\ normalizeLinkedInUrl (str "/jobs/view/123")
     = str "https://www.linkedin.com/jobs/view/123"
  /\ normalizeLinkedInUrl (str "https://example.org/a") = str "https://example.org/a".
Proof.
  split; [|split].
  - apply (proj1 (normalizeLinkedInUrl_cases [])). reflexivity.
  - apply (proj1 (proj2 (normalizeLinkedInUrl_cases (str "/jobs/view/123")))).
    reflexivity.
  - apply (proj2 (proj2 (normalizeLinkedInUrl_cases (str "https://example.org/a")))).
    + discriminate.
    + reflexivity.
Defined.

(** ** cleanText *)

(** C2. [cleanText] is not idempotent: white space is collapsed before the
    characters outside the allow-list are dropped, so a dropped character
    that stood between two spaces leaves two spaces behind, which a second
    pass collapses. *)
Theorem cleanText_twice_differs :
  cleanText (str "Engineer | Backend") = str "Engineer  Backend"
  /\ cleanText (cleanText (str "Engineer | Backend")) = str "Engineer Backend"
  /\ cleanText (cleanText (str "Engineer | Backend"))
     <> cleanText (str "Engineer | Backend").
Proof. split; [|split]; [reflexivity | reflexivity | discriminate]. Qed.

(** ** extractNumberFromText *)

Lemma take_digits_spec (n : nat) (s ds r : jstring) :
  take_digits n s = (ds, r) ->
  s = ds ++ r /\ Forall (fun c => is_digit c = true) ds /\ (length ds <= n)%nat
  /\ ((length ds < n)%nat -> match r with c :: _ => is_digit c = false | [] => True end).
Proof.
  revert s ds r. induction n as [|n IH]; intros s ds r.
  - cbn [take_digits]. intros [= <- <-]. repeat split; [constructor | simpl; lia | simpl; lia].
  - destruct s as [|c s]; cbn [take_digits].
    + intros [= <- <-]. repeat split; [constructor | simpl; lia].
    + destruct (is_digit c) eqn:Hc.
      * destruct (take_digits n s) as [ds' r'] eqn:E. intros [= <- <-].
        destruct (IH _ _ _ E) as (-> & Hd & Hl & Hr).
        repeat split; [constructor; assumption | simpl; lia |].
        simpl. intros H. apply Hr. lia.
      * intros [= <- <-]. repeat split; [constructor | simpl; lia |].
        intros _. exact Hc.
Qed.

Lemma comma_groups_grouped (s : jstring) : comma_grouped (comma_groups s).
Proof.
  induction s as [s IH] using (induction_ltof1 _ (@length N)). unfold ltof in IH.
  destruct s as [|c [|d1 [|d2 [|d3 s']]]]; cbn [comma_groups]; try constructor.
  destruct (c =? 44) eqn:Hc; [|constructor]. apply N.eqb_eq in Hc as ->.
  destruct (is_digit d1) eqn:H1; [|constructor].
  destruct (is_digit d2) eqn:H2; [|constructor].
  destruct (is_digit d3) eqn:H3; [|constructor].
  cbn [andb]. constructor; try assumption. apply IH. simpl. lia.
Qed.

Lemma comma_groups_prefix (s : jstring) : comma_groups s `prefix_of` s.
Proof.
  induction s as [s IH] using (induction_ltof1 _ (@length N)). unfold ltof in IH.
  destruct s as [|c [|d1 [|d2 [|d3 s']]]]; cbn [comma_groups]; try apply prefix_nil.
  destruct ((c =? 44) && is_digit d1 && is_digit d2 && is_digit d3);
    [|apply prefix_nil].
  do 4 apply prefix_cons. apply IH. simpl. lia.
Qed.

Lemma comma_groups_longest (gs : jstring) :
  comma_grouped gs -> forall s, gs `prefix_of` s ->
  (length gs <= length (comma_groups s))%nat.
Proof.
  induction 1 as [|d1 d2 d3 gs H1 H2 H3 Hg IH]; intros s [k ->]; [simpl; lia|].
  cbn [app comma_groups]. rewrite H1, H2, H3. cbn [N.eqb Pos.eqb andb length].
  specialize (IH (gs ++ k) (prefix_app_r gs gs k (reflexivity gs))). lia.
Qed.

Lemma comma_grouped_head (gs : jstring) (d : N) (t : jstring) :
  comma_grouped gs -> is_digit d = true -> gs `prefix_of` (d :: t) -> gs = [].
Proof.
  intros Hg Hd [k Hk]. destruct Hg; [reflexivity|].
  injection Hk as -> _. discriminate Hd.
Qed.

Lemma digits_prefix (n : nat) (s ds r ds' : jstring) :
  take_digits n s = (ds, r) ->
  Forall (fun c => is_digit c = true) ds' -> (length ds' <= n)%nat ->
  ds' `prefix_of` s -> ds' `prefix_of` ds.
Proof.
  revert s ds r ds'. induction n as [|n IH]; intros s ds r ds' E Hd Hl Hp.
  - destruct ds'; [apply prefix_nil | simpl in Hl; lia].
  - destruct ds' as [|d ds']; [apply prefix_nil|].
    destruct Hp as [k ->]. cbn [app take_digits] in E.
    inversion Hd as [|? ? Hd1 Hd2]; subst. rewrite Hd1 in E.
    destruct (take_digits n (ds' ++ k)) as [ds1 r1] eqn:E1. cbn in E.
    injection E as <- <-. apply prefix_cons.
    apply (IH _ _ _ _ E1 Hd2); [simpl in Hl; lia | now exists k].
Qed.

Lemma take_digits_head (n : nat) (d : N) (t : jstring) :
  is_digit d = true ->
  exists ds r, take_digits (S n) (d :: t) = (d :: ds, r).
Proof.
  intros Hd. cbn [take_digits]. rewrite Hd.
  destruct (take_digits n t) as [a b]. now exists a, b.
Qed.

Lemma number_at_run (d : N) (t : jstring) :
  is_digit d = true ->
  thousands_run (number_at (d :: t))
  /\ number_at (d :: t) `prefix_of` (d :: t)
  /\ forall run', thousands_run run' -> run' `prefix_of` (d :: t) ->
       (length run' <= length (number_at (d :: t)))%nat.
Proof.
  intros Hd. unfold number_at.
  destruct (take_digits 3 (d :: t)) as [ds r] eqn:E.
  pose proof (take_digits_spec _ _ _ _ E) as (Hs & Hds & Hl & Hr).
  assert (Hne : (1 <= length ds)%nat).
  { destruct (take_digits_head 2 d t Hd) as (a & b & E').
    rewrite E' in E. injection E as <- _. simpl. lia. }
  split; [|split].
  - exists ds, (comma_groups r). repeat split; try assumption.
    apply comma_groups_grouped.
  - rewrite Hs. apply prefix_app, comma_groups_prefix.
  - intros run' (ds' & gs' & -> & [Hl1 Hl3] & Hds' & Hgs') Hp.
    assert (Hpd : ds' `prefix_of` ds).
    { apply (digits_prefix _ _ _ _ _ E Hds' Hl3).
      etransitivity; [apply prefix_app_r; reflexivity | exact Hp]. }
    destruct Hpd as [k ->]. rewrite Hs, <- !app_assoc in Hp.
    apply prefix_app_inv in Hp. rewrite !length_app.
    destruct k as [|c k].
    + rewrite app_nil_l in Hp. apply (comma_groups_longest _ Hgs') in Hp.
      simpl. lia.
    + apply Forall_app in Hds as [_ Hc]. inversion Hc as [|? ? Hc1 _]; subst.
      rewrite (comma_grouped_head gs' c (k ++ r) Hgs' Hc1 Hp). simpl. lia.
Qed.

Lemma match_number_None (text : jstring) :
  match_number text = None <-> Forall (fun c => is_digit c = false) text.
Proof.
  induction text as [|c text IH]; cbn [match_number].
  - split; [constructor | reflexivity].
  - destruct (is_digit c) eqn:Hc.
    + split; [discriminate|]. intros H. inversion H; congruence.
    + rewrite IH. split; [now constructor | intros H; now inversion H].
Qed.

Lemma match_number_Some (text m : jstring) :
  match_number text = Some m ->
  exists pre d t, text = pre ++ d :: t
    /\ Forall (fun c => is_digit c = false) pre
    /\ is_digit d = true /\ m = number_at (d :: t).
Proof.
  induction text as [|c text IH]; cbn [match_number]; [discriminate|].
  destruct (is_digit c) eqn:Hc.
  - intros [= <-]. exists [], c, text. repeat split; [constructor | assumption].
  - intros H. destruct (IH H) as (pre & d & t & -> & Hp & Hd & ->).
    exists (c :: pre), d, t. repeat split; [now constructor | assumption].
Qed.

Lemma thousands_run_head (run : jstring) :
  thousands_run run -> exists d t, run = d :: t /\ is_digit d = true.
Proof.
  intros (ds & gs & -> & [Hl _] & Hd & _).
  destruct ds as [|d ds]; [simpl in Hl; lia|].
  inversion Hd; subst. now exists d, (ds ++ gs).
Qed.

Lemma first_digit_unique (pre1 pre2 : jstring) (d1 d2 : N) (t1 t2 : jstring) :
  pre1 ++ d1 :: t1 = pre2 ++ d2 :: t2 ->
  Forall (fun c => is_digit c = false) pre1 ->
  Forall (fun c => is_digit c = false) pre2 ->
  is_digit d1 = true -> is_digit d2 = true ->
  pre1 = pre2 /\ d1 :: t1 = d2 :: t2.
Proof.
  revert pre2. induction pre1 as [|c pre1 IH]; intros [|c2 pre2] E H1 H2 Hd1 Hd2.
  - auto.
  - injection E as -> _. inversion H2; congruence.
  - injection E as -> _. inversion H1; congruence.
  - injection E as -> E. inversion H1; inversion H2; subst.
    destruct (IH pre2 E) as [-> ?]; auto.
Qed.

Lemma first_run_unique (text run1 run2 : jstring) :
  first_run text run1 -> first_run text run2 -> run1 = run2.
Proof.
  intros (pre1 & rest1 & E1 & Hp1 & Hr1 & Hm1) (pre2 & rest2 & E2 & Hp2 & Hr2 & Hm2).
  destruct (thousands_run_head _ Hr1) as (d1 & t1 & Hd1 & Hdd1).
  destruct (thousands_run_head _ Hr2) as (d2 & t2 & Hd2 & Hdd2).
  assert (E : run1 ++ rest1 = run2 ++ rest2).
  { subst text. rewrite Hd1, Hd2 in E2. cbn [app] in E2.
    destruct (first_digit_unique _ _ _ _ _ _ E2 Hp1 Hp2 Hdd1 Hdd2) as [_ E].
    rewrite Hd1, Hd2. cbn [app]. congruence. }
  assert (L1 : (length run1 <= length run2)%nat).
  { apply Hm2; [assumption|]. rewrite <- E. now exists rest1. }
  assert (L2 : (length run2 <= length run1)%nat).
  { apply Hm1; [assumption|]. rewrite E. now exists rest2. }
  apply (f_equal (take (length run1))) in E.
  rewrite take_app_length in E. rewrite E.
  replace (length run1) with (length run2) by lia. apply take_app_length.
Qed.

Lemma remove_commas_run (run : jstring) :
  thousands_run run ->
  exists d ds, remove_commas run = d :: ds
    /\ Forall (fun c => is_digit c = true) (d :: ds).
Proof.
  intros (hd & gs & -> & [Hl _] & Hd & Hg). unfold remove_commas.
  rewrite List.filter_app.
  assert (Hh : List.filter (fun c => negb (c =? 44)) hd = hd).
  { clear Hl. induction Hd as [|c hd Hc _ IH]; [reflexivity|].
    cbn [List.filter]. rewrite IH.
    destruct (c =? 44) eqn:E; [|reflexivity].
    apply N.eqb_eq in E as ->. discriminate Hc. }
  rewrite Hh.
  assert (Hgs : Forall (fun c => is_digit c = true)
                  (List.filter (fun c => negb (c =? 44)) gs)).
  { induction Hg as [|d1 d2 d3 gs H1 H2 H3 _ IH]; [constructor|].
    cbn [List.filter N.eqb Pos.eqb negb].
    assert (F : forall c, is_digit c = true -> negb (c =? 44) = true).
    { intros c Hc. destruct (c =? 44) eqn:E; [|reflexivity].
      apply N.eqb_eq in E as ->. discriminate Hc. }
    rewrite (F _ H1), (F _ H2), (F _ H3). repeat constructor; assumption. }
  destruct hd as [|d hd]; [simpl in Hl; lia|].
  exists d, (hd ++ List.filter (fun c => negb (c =? 44)) gs).
  split; [reflexivity|]. rewrite app_comm_cons. apply Forall_app. auto.
Qed.

Lemma take_while_digits (ds : jstring) :
  Forall (fun c => is_digit c = true) ds -> take_while is_digit ds = ds.
Proof.
  induction 1 as [|c ds Hc _ IH]; [reflexivity|].
  cbn [take_while]. now rewrite Hc, IH.
Qed.

(** [parseInt] of a non-empty string of digits is its decimal value, when
    a double holds it. *)
Lemma parseInt10_digits (d : N) (ds : jstring) :
  Forall (fun c => is_digit c = true) (d :: ds) ->
  parseInt10 (d :: ds)
  = if (digits_value (d :: ds) <=? 2 ^ 53)%Z then Int (digits_value (d :: ds))
    else Rounded.
Proof.
  intros H. inversion H as [|? ? Hd Hds]; subst.
  assert (Hrange : 48 <= d <= 57).
  { unfold is_digit in Hd. apply andb_true_iff in Hd as [H1 H2].
    apply N.leb_le in H1, H2. lia. }
  unfold parseInt10.
  assert (Hsp : is_space d = false).
  { unfold is_space.
    repeat match goal with
           | |- context [?a <=? ?b] =>
               destruct (N.leb_spec a b); try lia
           | |- context [?a =? ?b] =>
               destruct (N.eqb_spec a b); try lia
           end; reflexivity. }
  cbn [trimStart]. rewrite Hsp.
  assert (Hsign : match d :: ds with
                  | 45 :: s' => (true, s')
                  | 43 :: s' => (false, s')
                  | _ => (false, d :: ds)
                  end = (false, d :: ds)).
  { destruct (N.eq_dec d 45) as [->|]; [lia|].
    destruct (N.eq_dec d 43) as [->|]; [lia|].
    destruct d as [|p]; [reflexivity|].
    do 6 (destruct p as [p|p|]; try reflexivity); lia. }
  rewrite Hsign. rewrite (take_while_digits _ H). reflexivity.
Qed.

(** C5. The count is absent exactly when the text holds no digit, which
    covers the empty text; otherwise it is read from the first run of
    digits with thousands separators in the text (the one run that no
    digit precedes and no longer run extends), with the commas removed
    and the digits parsed as a decimal integer. ["32,000+ results"] gives
    32000. The count of a result set is the count of the text of its
    header elements. *)
Theorem extractNumberFromText_first_run (text : jstring) :
  match extractNumberFromText text with
  | Some n =>
      exists run, first_run text run
        /\ (forall run', first_run text run' -> run' = run)
        /\ n = parseInt10 (remove_commas run)
        /\ n = (let v := digits_value (remove_commas run) in
                if (v <=? 2 ^ 53)%Z then Int v else Rounded)
  | None => Forall (fun c => is_digit c = false) text
  end
  /\ extractNumberFromText (str "32,000+ results") = Some (Int 32000)
  /\ (forall doc now,
        SearchResults.totalResults (extractJobSearchResults doc now)
        = extractNumberFromText (select_text doc TOTAL_RESULTS_SELECTOR)).
Proof.
  split; [|split; [reflexivity|]].
  2:{ intros doc now. unfold extractJobSearchResults. cbn [SearchResults.totalResults].
      destruct (select_text doc TOTAL_RESULTS_SELECTOR); reflexivity. }
  unfold extractNumberFromText. destruct text as [|c text]; [constructor|].
  cbn [truthy negb]. destruct (match_number (c :: text)) as [m|] eqn:E.
  - destruct (match_number_Some _ _ E) as (pre & d & t & Ht & Hp & Hd & ->).
    destruct (number_at_run d t Hd) as (Hrun & [rest Hrest] & Hmax).
    assert (Hfirst : first_run (c :: text) (number_at (d :: t))).
    { exists pre, rest. rewrite <- Hrest. repeat split; assumption. }
    exists (number_at (d :: t)). split; [exact Hfirst|].
    split; [intros run' H'; exact (first_run_unique _ _ _ H' Hfirst)|].
    split; [reflexivity|].
    destruct (remove_commas_run _ Hrun) as (d' & ds' & -> & Hds).
    now apply parseInt10_digits.
  - now apply match_number_None.
Qed.

(** ** extractJobSearchResults *)

Lemma job_card_Some (card : Element) (item : JobSearchResult.t) :
  job_card card = Some item ->
  valid_card card = true
  /\ JobSearchResult.jobTitle item = card_title card
  /\ JobSearchResult.companyName item = card_company card.
Proof.
  unfold job_card, valid_card.
  destruct (truthy (card_title card)), (truthy (card_company card)); simpl;
    try discriminate.
  intros [= <-]. auto.
Qed.

Lemma job_card_None (card : Element) :
  job_card card = None <-> valid_card card = false.
Proof.
  unfold job_card, valid_card.
  destruct (truthy (card_title card)), (truthy (card_company card)); simpl;
    split; congruence.
Qed.

Lemma similar_job_card_Some (card : Element) (item : JobSearchResult.t) :
  similar_job_card card = Some item ->
  valid_similar_card card = true
  /\ JobSearchResult.jobTitle item = similar_title card
  /\ JobSearchResult.companyName item = similar_company card.
Proof.
  unfold similar_job_card, valid_similar_card.
  destruct (truthy (similar_title card)), (truthy (similar_company card)); simpl;
    try discriminate.
  intros [= <-]. auto.
Qed.

Lemma similar_job_card_None (card : Element) :
  similar_job_card card = None <-> valid_similar_card card = false.
Proof.
  unfold similar_job_card, valid_similar_card.
  destruct (truthy (similar_title card)), (truthy (similar_company card)); simpl;
    split; congruence.
Qed.

Section Omap.
Context {A B : Type} (f : A -> option B) (valid : A -> bool).
Hypothesis f_None : forall a, f a = None <-> valid a = false.

Lemma length_omap (l : list A) : length (omap f l) = count valid l.
Proof.
  unfold count. induction l as [|a l IH]; [reflexivity|].
  cbn [omap list_omap List.filter]. destruct (f a) eqn:Hf.
  - destruct (valid a) eqn:Hv; [simpl; congruence|].
    apply f_None in Hv. congruence.
  - apply f_None in Hf. rewrite Hf. exact IH.
Qed.

End Omap.

Lemma omap_job_card_named (cards : list Element) :
  Forall named (omap job_card cards).
Proof.
  induction cards as [|c cards IH]; [constructor|].
  cbn [omap list_omap]. destruct (job_card c) as [item|] eqn:Hc; [|exact IH].
  constructor; [|exact IH].
  apply job_card_Some in Hc as (Hv & Ht & Hn). unfold valid_card in Hv.
  apply andb_true_iff in Hv as [H1 H2]. unfold named. rewrite Ht, Hn.
  split; now apply truthy_true.
Qed.

Lemma omap_similar_job_card_named (cards : list Element) :
  Forall named (omap similar_job_card cards).
Proof.
  induction cards as [|c cards IH]; [constructor|].
  cbn [omap list_omap]. destruct (similar_job_card c) as [item|] eqn:Hc; [|exact IH].
  constructor; [|exact IH].
  apply similar_job_card_Some in Hc as (Hv & Ht & Hn).
  unfold valid_similar_card in Hv.
  apply andb_true_iff in Hv as [H1 H2]. unfold named. rewrite Ht, Hn.
  split; now apply truthy_true.
Qed.

(** C3, as the code has it. No item of the result has an empty title or an
    empty company. With [N] the number of listing cards that have both,
    the result has exactly [N] items when [N] is not zero; when it is zero,
    the result has one item for each similar-jobs card that has both. *)
Theorem extractJobSearchResults_items (doc : Document) (now : jstring) :
  let result := SearchResults.jobs (extractJobSearchResults doc now) in
  let N := count valid_card (select doc JOB_CARD_SELECTORS) in
  Forall named result
  /\ (N <> 0%nat -> length result = N)
  /\ (N = 0%nat ->
      length result = count valid_similar_card (select doc SIMILAR_JOBS_SELECTOR)).
Proof.
  cbn zeta. unfold extractJobSearchResults. cbn [SearchResults.jobs].
  rewrite <- (length_omap job_card valid_card job_card_None).
  pose proof (omap_job_card_named (select doc JOB_CARD_SELECTORS)) as Hn.
  destruct (omap job_card (select doc JOB_CARD_SELECTORS)) as [|item items] eqn:Hj.
  - cbn [length Nat.eqb app]. split; [apply omap_similar_job_card_named|].
    split; [congruence|]. intros _.
    apply (length_omap similar_job_card valid_similar_card similar_job_card_None).
  - cbn [length Nat.eqb]. split; [exact Hn|]. split; [reflexivity | discriminate].
Qed.

Lemma extractJobSearchResults_items_witness :
  length (SearchResults.jobs (extractJobSearchResults two_card_listing [])) = 1%nat
  /\ length (SearchResults.jobs (extractJobSearchResults similar_jobs_page []))
     = 1%nat.
Proof.
  split.
  - apply (proj1 (proj2 (extractJobSearchResults_items two_card_listing []))).
    vm_compute. discriminate.
  - apply (proj2 (proj2 (extractJobSearchResults_items similar_jobs_page []))).
    vm_compute. reflexivity.
Defined.

(** C3, as the specification has it, fails on a page that has no listing
    card and one similar-jobs card: no card is valid, none is invalid, and
    the result has one item. *)
Lemma extractJobSearchResults_similar_jobs :
  count valid_card (select similar_jobs_page JOB_CARD_SELECTORS) = 0%nat
  /\ count (fun c => negb (valid_card c)) (select similar_jobs_page JOB_CARD_SELECTORS)
     = 0%nat
  /\ length (SearchResults.jobs (extractJobSearchResults similar_jobs_page []))
     <> count valid_card (select similar_jobs_page JOB_CARD_SELECTORS).
Proof. vm_compute. split; [reflexivity|]. split; [reflexivity | discriminate]. Qed.

(** The example of the specification: of the two cards, only card A is in
    the result, with its link made absolute, and the count is read from
    the header. *)
Example two_card_listing_result :
  exists item,
    extractJobSearchResults two_card_listing []
    = {| SearchResults.jobs := [item];
         SearchResults.totalResults := Some (Int 32000);
         SearchResults.extractedAt := [] |}
    /\ JobSearchResult.jobTitle item = str "Backend Engineer"
    /\ JobSearchResult.companyName item = str "Acme Corp"
    /\ JobSearchResult.jobUrl item = str "https://www.linkedin.com/jobs/view/123"
    /\ JobSearchResult.location item = str "Not specified".
Proof. eexists. vm_compute. repeat split. Qed.

(** ** extractJobDetail *)

Lemma extractJobDetail_None (doc : Document) (now : jstring) :
  extractJobDetail doc now = None <-> detail_title doc = [] /\ detail_company doc = [].
Proof.
  unfold extractJobDetail. rewrite <- !truthy_false.
  destruct (truthy (detail_title doc)), (truthy (detail_company doc)); simpl;
    intuition congruence.
Qed.

Lemma extractJobDetail_Some (doc : Document) (now : jstring) (r : JobData.t) :
  extractJobDetail doc now = Some r ->
  JobData.jobTitle r = or_else (detail_title doc) (str "Unknown Title")
  /\ JobData.companyName r = or_else (detail_company doc) (str "Unknown Company")
  /\ JobData.location r = or_else (detail_location doc) (str "Unknown Location").
Proof.
  unfold extractJobDetail.
  destruct (negb (truthy (detail_title doc)) && negb (truthy (detail_company doc)));
    [discriminate|].
  intros [= <-]. auto.
Qed.

Local Open Scope string_scope.

(** C10. Whenever a record is produced, its location is not empty: it is
    what the location pair yields, or the sentinel ["Unknown Location"]
    when the pair yields nothing; that sentinel is not the ["Not specified"]
    of the listing items. *)
Theorem extractJobDetail_location (doc : Document) (now : jstring) (r : JobData.t) :
  extractJobDetail doc now = Some r ->
  JobData.location r <> []
  /\ (detail_location doc = [] -> JobData.location r = str "Unknown Location")
  /\ (detail_location doc <> [] -> JobData.location r = detail_location doc)
  /\ str "Unknown Location" <> str "Not specified".
Proof.
  intros E. apply extractJobDetail_Some in E as (_ & _ & ->).
  destruct (detail_location doc) as [|c l] eqn:El.
  - repeat split; try discriminate; congruence.
  - repeat split; try discriminate; congruence.
Qed.

Lemma extractJobDetail_location_witness :
  exists r, extractJobDetail company_only_page [] = Some r
    /\ JobData.location r = str "Unknown Location".
Proof.
  destruct (extractJobDetail company_only_page []) as [r|] eqn:E.
  - exists r. split; [reflexivity|].
    apply (proj1 (proj2 (extractJobDetail_location company_only_page [] r E))).
    reflexivity.
  - vm_compute in E. discriminate E.
Defined.

Local Close Scope string_scope.

End ParseFacts.

Module CleanFacts.

(** ** What a second pass of cleanText can still change *)

Lemma allowed_not_lt (c : N) : allowed c = true -> c <> 60.
Proof. intros H ->. discriminate H. Qed.

Lemma allowed_not_asterisk (c : N) : allowed c = true -> (c =? 42) = false.
Proof.
  intros H. destruct (N.eqb_spec c 42) as [->|]; [discriminate H | reflexivity].
Qed.

Lemma remove_comments_plain (s : jstring) : plain s -> remove_comments s = s.
Proof.
  unfold remove_comments. induction 1 as [|c s [Hc _] _ IH]; [reflexivity|].
  cbn [remove_comments_from].
  assert (E : comment_length (c :: s) = None).
  { unfold comment_length. cbn [startsWith str list_ascii_of_string map].
    destruct (N.eqb_spec (N_of_ascii "<") c) as [E|]; [|reflexivity].
    exfalso. apply (allowed_not_lt c Hc). symmetry. exact E. }
  rewrite E. now rewrite IH.
Qed.

Lemma remove_asterisks_plain (s : jstring) : plain s -> remove_asterisks s = s.
Proof.
  unfold remove_asterisks. induction 1 as [|c s [Hc _] _ IH]; [reflexivity|].
  cbn [List.filter]. rewrite (allowed_not_asterisk c Hc). cbn [negb].
  now rewrite IH.
Qed.

Lemma strip_special_plain (s : jstring) : plain s -> strip_special s = s.
Proof.
  unfold strip_special. induction 1 as [|c s [Hc _] _ IH]; [reflexivity|].
  cbn [List.filter]. now rewrite Hc, IH.
Qed.

Lemma collapse_spaces_from_plain (b : bool) (s : jstring) :
  plain s -> plain (collapse_spaces_from b s).
Proof.
  intros H. revert b. induction H as [|c s Hc _ IH]; intros b; [constructor|].
  cbn [collapse_spaces_from]. destruct (is_space c) eqn:Hs.
  - destruct b; [apply IH|]. constructor; [|apply IH]. split; reflexivity.
  - constructor; [|apply IH]. split; [apply Hc | congruence].
Qed.

(** After white space has been collapsed, every white-space character is
    a space. *)
Lemma collapse_spaces_from_spaces (b : bool) (s : jstring) :
  Forall (fun c => is_space c = true -> c = 32) (collapse_spaces_from b s).
Proof.
  revert b. induction s as [|c s IH]; intros b; [constructor|].
  cbn [collapse_spaces_from]. destruct (is_space c) eqn:Hs.
  - destruct b; [apply IH|]. constructor; [reflexivity | apply IH].
  - constructor; [congruence | apply IH].
Qed.

Lemma collapse_spaces_from_true_head (s : jstring) :
  match collapse_spaces_from true s with
  | c :: _ => is_space c = false
  | [] => True
  end.
Proof.
  induction s as [|c s IH]; [exact I|]. cbn [collapse_spaces_from].
  destruct (is_space c) eqn:Hs; [exact IH | exact Hs].
Qed.

Lemma collapse_spaces_from_head (b : bool) (s : jstring) :
  match s with c :: _ => is_space c = false | [] => True end ->
  collapse_spaces_from b s = collapse_spaces_from false s.
Proof.
  destruct s as [|c s]; [reflexivity|]. intros Hc. cbn [collapse_spaces_from].
  now rewrite Hc.
Qed.

Lemma collapse_spaces_from_idem (b : bool) (s : jstring) :
  collapse_spaces_from false (collapse_spaces_from b s) = collapse_spaces_from b s.
Proof.
  revert b. induction s as [|c s IH]; intros b; [reflexivity|].
  cbn [collapse_spaces_from]. destruct (is_space c) eqn:Hs.
  - destruct b; [apply IH|]. cbn [collapse_spaces_from].
    change (is_space 32) with true. cbn iota. f_equal.
    rewrite (collapse_spaces_from_head true); [apply IH|].
    apply collapse_spaces_from_true_head.
  - cbn [collapse_spaces_from]. rewrite Hs. f_equal. apply IH.
Qed.

Lemma collapse_spaces_from_snoc (b : bool) (s : jstring) (c : N) :
  is_space c = false ->
  collapse_spaces_from b (s ++ [c]) = collapse_spaces_from b s ++ [c].
Proof.
  intros Hc. revert b. induction s as [|d s IH]; intros b; cbn [app collapse_spaces_from].
  - now rewrite Hc.
  - destruct (is_space d); [destruct b|]; cbn [app]; now rewrite IH.
Qed.

Lemma trimStart_suffix (s : jstring) : trimStart s `suffix_of` s.
Proof.
  induction s as [|c s IH]; cbn [trimStart]; [reflexivity|].
  destruct (is_space c); [now apply suffix_cons_r | reflexivity].
Qed.

Lemma trimStart_head (s : jstring) :
  match trimStart s with c :: _ => is_space c = false | [] => True end.
Proof.
  induction s as [|c s IH]; cbn [trimStart]; [exact I|].
  destruct (is_space c) eqn:Hs; [exact IH | exact Hs].
Qed.

Lemma trimStart_id (s : jstring) :
  match s with c :: _ => is_space c = false | [] => True end -> trimStart s = s.
Proof. destruct s as [|c s]; [reflexivity|]. cbn [trimStart]. now intros ->. Qed.

Lemma trim_trimmed (s : jstring) : trimmed (trim s).
Proof.
  unfold trim, trimEnd.
  pose proof (trimStart_head s) as Hh.
  destruct (trimStart s) as [|c t] eqn:Et; [now left|].
  pose proof (trimStart_head (rev (c :: t))) as Hl.
  pose proof (trimStart_suffix (rev (c :: t))) as [k Hk].
  destruct (trimStart (rev (c :: t))) as [|d u] eqn:Eu.
  - (* the reversed string is all white space: impossible, it ends in c *)
    exfalso. rewrite app_nil_r in Hk. clear Hl.
    assert (Hall : forall l, trimStart l = [] -> Forall (fun x => is_space x = true) l).
    { clear. induction l as [|x l IH]; cbn [trimStart]; [constructor|].
      destruct (is_space x) eqn:Hx; [|discriminate]. intros H.
      constructor; [exact Hx | now apply IH]. }
    apply Hall in Eu. cbn [rev] in Eu. apply Forall_app in Eu as [_ Eu].
    inversion Eu; congruence.
  - right. apply (f_equal (@rev N)) in Hk. rewrite rev_involutive, rev_app_distr in Hk.
    cbn [rev] in Hk. rewrite <- app_assoc in Hk. cbn [app] in Hk.
    (* c :: t = rev u ++ d :: rev k, and the result is rev u ++ [d] *)
    cbn [rev]. destruct (rev u) as [|c' m] eqn:Er.
    + cbn [app] in Hk |- *. injection Hk as -> _. exists d, [], d. auto.
    + cbn [app] in Hk |- *. injection Hk as -> _. exists c', m, d. auto.
Qed.

Lemma trim_id (s : jstring) : trimmed s -> trim s = s.
Proof.
  intros [->|(c & m & d & Hs & Hc & Hd)]; [reflexivity|].
  unfold trim, trimEnd. destruct Hs as [->| ->].
  - cbn [trimStart]. rewrite Hc. cbn [rev app trimStart]. now rewrite Hc.
  - cbn [trimStart]. rewrite Hc. change (c :: m ++ [d]) with ((c :: m) ++ [d]).
    rewrite rev_unit. cbn [trimStart]. rewrite Hd. rewrite <- rev_unit.
    apply rev_involutive.
Qed.

Lemma plain_suffix (s t : jstring) : s `suffix_of` t -> plain t -> plain s.
Proof. intros [k ->] H. now apply Forall_app in H as [_ H]. Qed.

Lemma plain_rev (s : jstring) : plain s -> plain (rev s).
Proof.
  apply List.Forall_rev.
Qed.

Lemma trim_plain (s : jstring) : plain s -> plain (trim s).
Proof.
  intros H. unfold trim, trimEnd. apply plain_rev.
  apply (plain_suffix _ _ (trimStart_suffix _)). apply plain_rev.
  exact (plain_suffix _ _ (trimStart_suffix _) H).
Qed.

Lemma cleanText_plain (x : jstring) : plain (cleanText x) /\ trimmed (cleanText x).
Proof.
  unfold cleanText. destruct (truthy x); cbn [negb]; [|split; [constructor | now left]].
  split; [|apply trim_trimmed]. apply trim_plain. unfold strip_special, plain.
  apply Forall_forall. intros c Hc. apply list_elem_of_In, filter_In in Hc as [Hin Ha].
  split; [exact Ha|].
  pose proof (collapse_spaces_from_spaces false
                (remove_asterisks (remove_comments x))) as Hsp.
  eapply Forall_forall in Hsp; [exact Hsp|]. now apply list_elem_of_In.
Qed.

Lemma collapse_spaces_trimmed (s : jstring) :
  trimmed s -> trimmed (collapse_spaces s).
Proof.
  unfold collapse_spaces.
  intros [->|(c & m & d & Hs & Hc & Hd)]; [now left|]. right.
  destruct Hs as [->| ->].
  - exists c, [], c. cbn [collapse_spaces_from]. rewrite Hc. auto.
  - rewrite app_comm_cons, (collapse_spaces_from_snoc _ _ _ Hd).
    cbn [collapse_spaces_from]. rewrite Hc. cbn [app].
    exists c, (collapse_spaces_from false m), d. auto.
Qed.

(** On a string that [cleanText] has produced, a second pass only
    collapses the spaces again. *)
Lemma cleanText_plain_collapse (y : jstring) :
  plain y -> trimmed y -> cleanText y = collapse_spaces y.
Proof.
  intros Hp Ht. unfold cleanText. destruct y as [|c y]; [reflexivity|].
  cbn [truthy negb].
  rewrite (remove_comments_plain _ Hp), (remove_asterisks_plain _ Hp).
  rewrite strip_special_plain by now apply collapse_spaces_from_plain.
  apply trim_id. now apply collapse_spaces_trimmed.
Qed.

(** [cleanText] is not idempotent, but it is from the second pass on: the
    first pass leaves nothing but doubled spaces for the second to
    change. *)
Lemma cleanText_stable (x : jstring) :
  cleanText (cleanText (cleanText x)) = cleanText (cleanText x).
Proof.
  destruct (cleanText_plain x) as [Hp Ht].
  rewrite (cleanText_plain_collapse _ Hp Ht).
  rewrite cleanText_plain_collapse.
  - apply collapse_spaces_from_idem.
  - now apply collapse_spaces_from_plain.
  - now apply collapse_spaces_trimmed.
Qed.

End CleanFacts.

(** * Properties of scrape.ts *)

Module CacheFacts.

Local Open Scope Z_scope.

Lemma map_get_set_eq (k : jstring) (v : CacheEntry) (m : Cache) :
  map_get k (map_set k v m) = Some v.
Proof.
  induction m as [|[k' v'] m IH]; cbn [map_set map_get].
  - now rewrite decide_True.
  - destruct (decide (k' = k)) as [->|Hne]; cbn [map_get].
    + now rewrite decide_True.
    + now rewrite decide_False.
Qed.



Lemma map_get_delete_ne (k k' : jstring) (m : Cache) :
  k <> k' -> map_get k (map_delete k' m) = map_get k m.
Proof.
  intros Hne. induction m as [|[k0 v0] m IH]; cbn [map_delete map_get]; [reflexivity|].
  destruct (decide (k0 = k')) as [->|Hne']; cbn [map_get].
  - now rewrite decide_False by congruence.
  - destruct (decide (k0 = k)); [reflexivity | exact IH].
Qed.


Lemma keys_set (k : jstring) (v : CacheEntry) (m : Cache) :
  keys (map_set k v m) = if decide (k ∈ keys m) then keys m else keys m ++ [k].
Proof.
  induction m as [|[k0 v0] m IH]; cbn [map_set map fst].
  - rewrite decide_False by apply not_elem_of_nil. reflexivity.
  - destruct (decide (k0 = k)) as [->|Hne]; cbn [map fst].
    + rewrite decide_True by apply list_elem_of_here. reflexivity.
    + rewrite IH. destruct (decide (k ∈ keys m)) as [Hin|Hin].
      * rewrite decide_True by now apply list_elem_of_further. reflexivity.
      * rewrite decide_False; [reflexivity|].
        rewrite not_elem_of_cons. split; congruence.
Qed.

Lemma NoDup_set (k : jstring) (v : CacheEntry) (m : Cache) :
  NoDup (keys m) -> NoDup (keys (map_set k v m)).
Proof.
  intros Hnd. rewrite keys_set. destruct (decide (k ∈ keys m)) as [Hin|Hin];
    [assumption|].
  apply NoDup_app. split; [assumption|]. split.
  - intros x Hx Hx'. apply list_elem_of_singleton in Hx'. congruence.
  - apply NoDup_singleton.
Qed.

Lemma length_set (k : jstring) (v : CacheEntry) (m : Cache) :
  (length (map_set k v m) <= S (length m))%nat.
Proof.
  rewrite <- !(length_map fst), keys_set.
  destruct (decide (k ∈ keys m)); rewrite ?length_app; simpl; lia.
Qed.

Lemma map_delete_middle (k : jstring) (e : CacheEntry) (pre post : Cache) :
  k ∉ keys pre -> map_delete k (pre ++ (k, e) :: post) = pre ++ post.
Proof.
  induction pre as [|[k0 v0] pre IH]; cbn [app map_delete map fst]; intros Hin.
  - now rewrite decide_True.
  - apply not_elem_of_cons in Hin as [Hne Hin].
    rewrite decide_False by congruence. f_equal. now apply IH.
Qed.

Lemma keys_delete_sublist (k : jstring) (m : Cache) :
  sublist (keys (map_delete k m)) (keys m).
Proof.
  induction m as [|[k0 v0] m IH]; cbn [map_delete map fst]; [constructor|].
  destruct (decide (k0 = k)); cbn [map fst].
  - now apply sublist_cons.
  - now apply sublist_skip.
Qed.

Lemma NoDup_delete (k : jstring) (m : Cache) :
  NoDup (keys m) -> NoDup (keys (map_delete k m)).
Proof. intros Hnd. exact (sublist_NoDup _ _ Hnd (keys_delete_sublist k m)). Qed.

(** The head of the sorted array is the first entry, in insertion order,
    among those of the smallest timestamp. *)
Lemma sort_by_timestamp_head (m : Cache) :
  m <> [] ->
  exists pre k e post,
    m = pre ++ (k, e) :: post
    /\ head (sort_by_timestamp m) = Some (k, e)
    /\ Forall (fun x => timestamp e < timestamp (snd x)) pre
    /\ Forall (fun x => timestamp e <= timestamp (snd x)) post.
Proof.
  induction m as [|[k0 e0] m IH]; [congruence|]. intros _.
  destruct m as [|y m'].
  - exists [], k0, e0, []. repeat split; constructor.
  - destruct IH as (pre & k & e & post & Hm & Hh & Hpre & Hpost); [discriminate|].
    cbn [sort_by_timestamp] in Hh |- *.
    destruct (sort_insert y (sort_by_timestamp m')) as [|z rest] eqn:Hs;
      [discriminate|].
    injection Hh as ->. cbn [sort_insert snd].
    destruct (Z.leb_spec (timestamp e0) (timestamp e)) as [Hle|Hgt].
    + exists [], k0, e0, (y :: m'). repeat split; [constructor|].
      rewrite Hm. apply Forall_app. split.
      * eapply Forall_impl; [exact Hpre|]. simpl. intros; lia.
      * constructor; [simpl; lia|].
        eapply Forall_impl; [exact Hpost|]. simpl. intros; lia.
    + exists ((k0, e0) :: pre), k, e, post. rewrite Hm. repeat split.
      * constructor; [simpl; lia | assumption].
      * assumption.
Qed.

Lemma sort_by_timestamp_nil (m : Cache) : sort_by_timestamp m = [] -> m = [].
Proof.
  destruct m as [|x m]; [reflexivity|]. cbn [sort_by_timestamp].
  destruct (sort_by_timestamp m) as [|y l]; cbn [sort_insert]; [discriminate|].
  destruct (timestamp (snd x) <=? timestamp (snd y)); discriminate.
Qed.

(** What [setCachedResult] does to a cache whose keys are distinct. *)
Lemma setCachedResult_cases (now : Z) (url html : jstring) (cache : Cache) :
  NoDup (keys cache) ->
  let inserted := map_set url {| html := html; timestamp := now |} cache in
  let after := setCachedResult now url html cache in
  ((length inserted <= MAX_CACHE_SIZE)%nat -> after = inserted)
  /\ ((MAX_CACHE_SIZE < length inserted)%nat ->
      exists pre k e post,
        inserted = pre ++ (k, e) :: post
        /\ after = pre ++ post
        /\ head (sort_by_timestamp inserted) = Some (k, e)
        /\ Forall (fun x => timestamp e < timestamp (snd x)) pre
        /\ Forall (fun x => timestamp e <= timestamp (snd x)) post).
Proof.
  intros Hnd inserted after. subst after. unfold setCachedResult.
  fold inserted. split.
  - intros Hle. destruct (Nat.ltb_spec MAX_CACHE_SIZE (length inserted)); [lia|].
    reflexivity.
  - intros Hlt. destruct (Nat.ltb_spec MAX_CACHE_SIZE (length inserted)); [|lia].
    destruct (sort_by_timestamp_head inserted) as (pre & k & e & post & Hm & Hh & H1 & H2).
    { intros E. rewrite E in Hlt. simpl in Hlt. lia. }
    exists pre, k, e, post. repeat split; try assumption.
    destruct (sort_by_timestamp inserted) as [|[k' e'] rest]; [discriminate|].
    injection Hh as -> ->. rewrite Hm. apply map_delete_middle.
    pose proof (NoDup_set url {| html := html; timestamp := now |} cache Hnd) as Hnd'.
    fold inserted in Hnd'. rewrite Hm, map_app in Hnd'. cbn [map fst] in Hnd'.
    apply NoDup_app in Hnd' as (_ & Hdis & _). intros Hin.
    apply (Hdis k Hin). apply list_elem_of_here.
Qed.

Lemma NoDup_setCachedResult (now : Z) (url html : jstring) (cache : Cache) :
  NoDup (keys cache) -> NoDup (keys (setCachedResult now url html cache)).
Proof.
  intros Hnd. unfold setCachedResult.
  pose proof (NoDup_set url {| html := html; timestamp := now |} cache Hnd) as Hnd'.
  destruct (_ <? _)%nat; [|assumption].
  destruct (sort_by_timestamp _) as [|[k e] rest]; [assumption|].
  now apply NoDup_delete.
Qed.

Lemma length_setCachedResult (now : Z) (url html : jstring) (cache : Cache) :
  NoDup (keys cache) -> (length cache <= MAX_CACHE_SIZE)%nat ->
  (length (setCachedResult now url html cache) <= MAX_CACHE_SIZE)%nat.
Proof.
  intros Hnd Hlen.
  destruct (setCachedResult_cases now url html cache Hnd) as [Hsmall Hbig].
  pose proof (length_set url {| html := html; timestamp := now |} cache) as Hl.
  destruct (Nat.le_gt_cases
              (length (map_set url {| html := html; timestamp := now |} cache))
              MAX_CACHE_SIZE) as [Hle|Hgt].
  - rewrite (Hsmall Hle). exact Hle.
  - destruct (Hbig Hgt) as (pre & k & e & post & Hm & -> & _).
    rewrite Hm in Hl. rewrite length_app in Hl |- *. simpl in Hl. lia.
Qed.

Lemma put_all_snoc (puts : list (Z * jstring * jstring)) (now : Z) (url html : jstring) :
  put_all (puts ++ [(now, url, html)]) = setCachedResult now url html (put_all puts).
Proof. unfold put_all. now rewrite fold_left_app. Qed.

Lemma put_all_invariant (puts : list (Z * jstring * jstring)) :
  NoDup (keys (put_all puts)) /\ (length (put_all puts) <= MAX_CACHE_SIZE)%nat.
Proof.
  induction puts as [|[[now url] html] puts IH] using rev_ind.
  - split; [constructor | unfold MAX_CACHE_SIZE; simpl; lia].
  - rewrite put_all_snoc. destruct IH as [Hnd Hlen]. split.
    + now apply NoDup_setCachedResult.
    + now apply length_setCachedResult.
Qed.

(** C7. After any sequence of puts the cache holds at most 50 entries.
    A put that leaves 50 entries or fewer after the insertion evicts
    nothing; one that makes the count exceed 50 removes exactly one entry
    and keeps the others in place: the entry at the head of the array
    sorted by timestamp, whose timestamp is the smallest, and which is the
    first of those with that timestamp. *)
Theorem setCachedResult_capacity (puts : list (Z * jstring * jstring))
    (now : Z) (url html : jstring) :
  let before := put_all puts in
  let inserted := map_set url {| html := html; timestamp := now |} before in
  let after := setCachedResult now url html before in
  (length before <= 50)%nat /\ (length after <= 50)%nat
  /\ ((length inserted <= 50)%nat -> after = inserted)
  /\ ((50 < length inserted)%nat ->
      exists pre k e post,
        inserted = pre ++ (k, e) :: post
        /\ after = pre ++ post
        /\ head (sort_by_timestamp inserted) = Some (k, e)
        /\ Forall (fun x => timestamp e < timestamp (snd x)) pre
        /\ Forall (fun x => timestamp e <= timestamp (snd x)) post).
Proof.
  intros before inserted after.
  destruct (put_all_invariant puts) as [Hnd Hlen].
  split; [exact Hlen|]. split; [now apply length_setCachedResult|].
  exact (setCachedResult_cases now url html before Hnd).
Qed.

Lemma setCachedResult_capacity_witness :
  (let inserted := map_set search_url {| html := str "<html>"; timestamp := 7 |}
                     (put_all []) in
   setCachedResult 7 search_url (str "<html>") (put_all []) = inserted)
  /\ (let inserted := map_set search_url {| html := str "<html>"; timestamp := 100 |}
                        (put_all fifty_puts) in
      exists pre k e post,
        inserted = pre ++ (k, e) :: post
        /\ setCachedResult 100 search_url (str "<html>") (put_all fifty_puts)
           = pre ++ post
        /\ head (sort_by_timestamp inserted) = Some (k, e)
        /\ Forall (fun x => timestamp e < timestamp (snd x)) pre
        /\ Forall (fun x => timestamp e <= timestamp (snd x)) post).
Proof.
  split.
  - apply (proj1 (proj2 (proj2
             (setCachedResult_capacity [] 7 search_url (str "<html>"))))).
    vm_compute. lia.
  - apply (proj2 (proj2 (proj2
             (setCachedResult_capacity fifty_puts 100 search_url (str "<html>"))))).
    vm_compute. lia.
Defined.

End CacheFacts.

Module ScrapeFacts.
Import CacheFacts.

Local Open Scope Z_scope.

(** ** Cache hits *)

(** C6, as the code has it. While the cache holds an entry for the URL
    that is less than ten minutes old and whose markup is not empty,
    [scrape] returns that markup at once and leaves the whole state as it
    was: no request promise, no navigation, no change to the rate limiter
    or to [pendingRequests]. An entry that is ten minutes old or older is
    not returned, and the call leaves it in the cache. *)
Theorem scrape_cache_hit (s : state) (url : jstring) (e : CacheEntry) :
  map_get url (cache s) = Some e ->
  (clock s - timestamp e < CACHE_DURATION -> html e <> [] ->
   scrape url s = (Immediate (html e), s))
  /\ (CACHE_DURATION <= clock s - timestamp e ->
      getCachedResult (clock s) (cache s) url = None
      /\ cache (snd (scrape url s)) = cache s).
Proof.
  intros He. split.
  - intros Hfresh Hne. unfold scrape, getCachedResult. rewrite He.
    destruct (Z.ltb_spec (clock s - timestamp e) CACHE_DURATION) as [_|]; [|lia].
    destruct (html e); [congruence | reflexivity].
  - intros Hstale.
    assert (Hg : getCachedResult (clock s) (cache s) url = None).
    { unfold getCachedResult. rewrite He.
      destruct (Z.ltb_spec (clock s - timestamp e) CACHE_DURATION); [lia | reflexivity]. }
    split; [exact Hg|]. unfold scrape. rewrite Hg.
    destruct (pendingRequests s !! url); [reflexivity|].
    unfold waitForRateLimit_begin.
    destruct (clock s - lastRequestTime s <? MIN_REQUEST_INTERVAL); reflexivity.
Qed.

Lemma scrape_cache_hit_witness :
  (let s := state_after (fetch_ok 0 search_url (str "<html>")) in
   scrape search_url s = (Immediate (str "<html>"), s))
  /\ (let s := state_after (fetch_ok 0 search_url (str "<html>") ++ [Tick 600000]) in
      getCachedResult (clock s) (cache s) search_url = None
      /\ cache (snd (scrape search_url s)) = cache s).
Proof.
  split.
  - exact (proj1 (scrape_cache_hit
                    (state_after (fetch_ok 0 search_url (str "<html>")))
                    search_url
                    {| html := str "<html>"; timestamp := start_time + 4500 |}
                    eq_refl)
             eq_refl ltac:(discriminate)).
  - refine (proj2 (scrape_cache_hit
                    (state_after (fetch_ok 0 search_url (str "<html>") ++ [Tick 600000]))
                    search_url
                    {| html := str "<html>"; timestamp := start_time + 4500 |}
                    eq_refl) _).
    vm_compute. discriminate.
Defined.

(** C6, as the specification has it, fails when the capacity bound has
    evicted the entry: job 00 is fetched, then the fifty jobs 01 to 50,
    all within four minutes; the next [scrape] of job 00 finds no entry,
    creates the request promise 51 and navigates a second time. *)
Lemma scrape_after_eviction :
  match run (fetch_ok 0 (job_url 0) (str "<html>")) (init start_time) with
  | Some s0 =>
      getCachedResult (clock s0) (cache s0) (job_url 0) = Some (str "<html>")
      /\ match run (fetch_many 1 50) s0 with
         | Some s1 =>
             clock s1 - clock s0 < CACHE_DURATION
             /\ map_get (job_url 0) (cache s1) = None
             /\ fst (scrape (job_url 0) s1) = Awaiting 51
             /\ promises s1 !! 51%nat = None
             /\ match run [Request (job_url 0); Enter 51] s1 with
                | Some s2 =>
                    clock s2 - clock s0 < CACHE_DURATION
                    /\ navigations_to (job_url 0) s2 = 2%nat
                | None => False
                end
         | None => False
         end
  | None => False
  end.
Proof. vm_compute. repeat split; congruence. Qed.

(** ** The rate limiter *)

(** A call made less than 1500 ms after the recorded time sets its timer
    to 1500 ms after that time. *)
Lemma waitForRateLimit_begin_wait (s : state) :
  clock s - lastRequestTime s < MIN_REQUEST_INTERVAL ->
  waitForRateLimit_begin s
  = (Sleeping (lastRequestTime s + MIN_REQUEST_INTERVAL), s).
Proof.
  intros H. unfold waitForRateLimit_begin.
  destruct (Z.ltb_spec (clock s - lastRequestTime s) MIN_REQUEST_INTERVAL); [|lia].
  do 2 f_equal. lia.
Qed.

(** The timer does not fire early, and the time is recorded when it
    fires. *)
Lemma Wake_on_time (s s' : state) (p : nat) :
  step (Wake p) s = Some s' ->
  exists url due, promises s !! p = Some (InFlight url (Sleeping due))
    /\ due <= clock s /\ lastRequestTime s' = clock s.
Proof.
  cbn [step]. destruct (promises s !! p) as [[url [due| | |r]|r]|]; try discriminate.
  destruct (Z.leb_spec due (clock s)); [|discriminate].
  intros [= <-]. now exists url, due.
Qed.

(** C4. Three calls of [scrape] for different URLs at [start_time],
    100 ms later and 200 ms later. The first does not wait. While the
    second sleeps, [lastRequestTime] is still the time of the first, so
    the third computes its delay from it too: both timers are due at
    [start_time + 1500], both fire then, and the two requests enter
    [scrapeInternal] at the same time. *)
Theorem waitForRateLimit_overlap :
  match run [Request (str "a"); Tick 100; Request (str "b"); Tick 100]
          (init start_time) with
  | Some s =>
      lastRequestTime s = start_time
      /\ promises s !! 1%nat
         = Some (InFlight (str "b") (Sleeping (start_time + 1500)))
      /\ fst (waitForRateLimit_begin s) = Sleeping (start_time + 1500)
      /\ match run [Request (str "c"); Tick 1300; Wake 1; Enter 1; Wake 2; Enter 2] s with
         | Some s' =>
             clock s' = start_time + 1500
             /\ lastRequestTime s' = start_time + 1500
             /\ navigations s' = [str "c"; str "b"]
         | None => False
         end
  | None => False
  end.
Proof. vm_compute. repeat split. Qed.

End ScrapeFacts.

Module DedupFacts.
Import CacheFacts.

Local Open Scope Z_scope.

(** ** The three ways through [scrape] *)

Lemma scrape_cases (url : jstring) (s : state) :
  (exists h, h <> [] /\ getCachedResult (clock s) (cache s) url = Some h
     /\ scrape url s = (Immediate h, s))
  \/ (exists p, pendingRequests s !! url = Some p /\ scrape url s = (Awaiting p, s))
  \/ (pendingRequests s !! url = None
      /\ (forall h, getCachedResult (clock s) (cache s) url = Some h -> h = [])
      /\ exists ph t, entered ph = 0%nat
           /\ scrape url s
              = (Awaiting (length (promises s)),
                 {| clock := clock s; cache := cache s; lastRequestTime := t;
                    pendingRequests := <[url := length (promises s)]> (pendingRequests s);
                    promises := promises s ++ [InFlight url ph];
                    navigations := navigations s |})).
Proof.
  unfold scrape.
  destruct (getCachedResult (clock s) (cache s) url) as [[|c h]|] eqn:Hc.
  2:{ left. exists (c :: h). repeat split. discriminate. }
  all: destruct (pendingRequests s !! url) as [p|] eqn:Hp;
    [right; left; now exists p|].
  all: right; right; split; [reflexivity|]; split; [intros h; congruence|].
  all: unfold waitForRateLimit_begin;
    destruct (clock s - lastRequestTime s <? MIN_REQUEST_INTERVAL);
    eexists _, _; split; try reflexivity; reflexivity.
Qed.

(** ** The invariant *)

Lemma wf_init (now : Z) : wf (init now).
Proof.
  split; [constructor|]. split.
  - intros url p H. cbn in H. now rewrite lookup_empty in H.
  - intros p url ph H. cbn in H. now rewrite lookup_nil in H.
Qed.

Lemma wf_scrape (url : jstring) (s : state) : wf s -> wf (snd (scrape url s)).
Proof.
  intros (Hnd & H1 & H2).
  destruct (scrape_cases url s)
    as [(h & _ & _ & ->)|[(p & _ & ->)|(Hp & _ & ph & t & _ & ->)]];
    [now split | now split |].
  cbn [snd]. split; [exact Hnd|]. split; cbn.
  - intros u q. rewrite lookup_insert. case_decide as Hu.
    + subst u. intros [= <-]. exists ph. now apply list_lookup_middle.
    + intros Hq. destruct (H1 _ _ Hq) as [ph' Hph]. exists ph'.
      now apply lookup_app_l_Some.
  - intros q u ph' Hq. apply lookup_app_Some in Hq as [Hq|[Hlen Hq]].
    + pose proof (H2 _ _ _ Hq) as Hu. rewrite lookup_insert_ne; [exact Hu|].
      intros ->. congruence.
    + destruct (q - length (promises s))%nat eqn:E; [|destruct n; discriminate].
      injection Hq as <- <-. replace q with (length (promises s)) by lia.
      apply lookup_insert_eq.
Qed.

(** The state after a suspended request body has moved on: [p] has a new
    phase under the same URL, and [pendingRequests] is as before. *)
Lemma wf_phase (s s' : state) (p : nat) (url : jstring) (ph ph' : phase) :
  wf s -> promises s !! p = Some (InFlight url ph) ->
  promises s' = <[p := InFlight url ph']> (promises s) ->
  pendingRequests s' = pendingRequests s ->
  NoDup (keys (cache s')) ->
  wf s'.
Proof.
  intros (_ & H1 & H2) Hp Hps Hpe Hnd. split; [exact Hnd|].
  rewrite Hps, Hpe. split.
  - intros u q Hq. destruct (H1 _ _ Hq) as [ph0 Hph0].
    destruct (decide (q = p)) as [->|Hne].
    + exists ph'. rewrite list_lookup_insert_eq by now apply lookup_lt_Some in Hp.
      congruence.
    + exists ph0. now rewrite list_lookup_insert_ne.
  - intros q u ph0 Hq. destruct (decide (q = p)) as [->|Hne].
    + rewrite list_lookup_insert_eq in Hq by now apply lookup_lt_Some in Hp.
      injection Hq as <- <-. exact (H2 _ _ _ Hp).
    + rewrite list_lookup_insert_ne in Hq by congruence. exact (H2 _ _ _ Hq).
Qed.

Lemma wf_step (e : event) (s s' : state) :
  wf s -> e <> Clear -> step e s = Some s' -> wf s'.
Proof.
  intros Hwf Hclear Hstep. pose proof Hwf as (Hnd & H1 & H2).
  destruct e as [d|url|p|p|p h|p err|p|p m|]; cbn [step] in Hstep; [..|congruence].
  - destruct (0 <=? d); [|discriminate]. injection Hstep as <-. exact Hwf.
  - injection Hstep as <-. now apply wf_scrape.
  - destruct (promises s !! p) as [[url [due| | |r]|r]|] eqn:Hp; try discriminate.
    destruct (due <=? clock s); [|discriminate]. injection Hstep as <-.
    now apply (wf_phase s _ p url (Sleeping due) Limited).
  - destruct (promises s !! p) as [[url [due| | |r]|r]|] eqn:Hp; try discriminate.
    injection Hstep as <-.
    now apply (wf_phase s _ p url Limited Fetching).
  - destruct (promises s !! p) as [[url [due| | |r]|r]|] eqn:Hp; try discriminate.
    injection Hstep as <-.
    apply (wf_phase s _ p url Fetching (Closing (Resolved h))); try done.
    now apply NoDup_setCachedResult.
  - destruct (promises s !! p) as [[url [due| | |r]|r]|] eqn:Hp; try discriminate.
    injection Hstep as <-.
    now apply (wf_phase s _ p url Fetching (Closing (Rejected (translate_error err)))).
  - destruct (promises s !! p) as [[url [due| | |r]|r]|] eqn:Hp; try discriminate.
    injection Hstep as <-. split; [exact Hnd|]. cbn. split.
    + intros u q Hq. apply lookup_delete_Some in Hq as [Hne Hq].
      destruct (H1 _ _ Hq) as [ph Hph]. exists ph.
      rewrite list_lookup_insert_ne; [exact Hph|]. intros <-. congruence.
    + intros q u ph Hq. destruct (decide (q = p)) as [->|Hne].
      * rewrite list_lookup_insert_eq in Hq by now apply lookup_lt_Some in Hp.
        discriminate.
      * rewrite list_lookup_insert_ne in Hq by congruence.
        pose proof (H2 _ _ _ Hq) as Hu. pose proof (H2 _ _ _ Hp) as Hu'.
        rewrite lookup_delete_ne; [exact Hu|]. intros <-. congruence.
  - destruct (promises s !! p) as [[url [due| | |r]|r]|] eqn:Hp; try discriminate.
    injection Hstep as <-. split; [exact Hnd|]. cbn. split.
    + intros u q Hq. apply lookup_delete_Some in Hq as [Hne Hq].
      destruct (H1 _ _ Hq) as [ph Hph]. exists ph.
      rewrite list_lookup_insert_ne; [exact Hph|]. intros <-. congruence.
    + intros q u ph Hq. destruct (decide (q = p)) as [->|Hne].
      * rewrite list_lookup_insert_eq in Hq by now apply lookup_lt_Some in Hp.
        discriminate.
      * rewrite list_lookup_insert_ne in Hq by congruence.
        pose proof (H2 _ _ _ Hq) as Hu. pose proof (H2 _ _ _ Hp) as Hu'.
        rewrite lookup_delete_ne; [exact Hu|]. intros <-. congruence.
Qed.




(** ** What an event does to a promise *)

Lemma step_lookup (e : event) (s s' : state) (p : nat) (x : promise) :
  promises s !! p = Some x -> step e s = Some s' ->
  promises s' !! p = Some x
  \/ match e with
     | Wake q => q = p /\ exists url due, x = InFlight url (Sleeping due)
     | Enter q => q = p /\ exists url, x = InFlight url Limited
     | Content q _ | Throw q _ => q = p /\ exists url, x = InFlight url Fetching
     | Close q | CloseThrow q _ =>
         q = p /\ exists url r, x = InFlight url (Closing r)
     | Tick _ | Request _ | Clear => False
     end.
Proof.
  intros Hx Hstep.
  destruct e as [d|url|q|q|q h|q err|q|q m|]; cbn [step] in Hstep.
  - destruct (0 <=? d); [|discriminate]. injection Hstep as <-. now left.
  - injection Hstep as <-. left.
    destruct (scrape_cases url s)
      as [(h & _ & _ & ->)|[(p' & _ & ->)|(_ & _ & ph & t & _ & ->)]];
      [assumption | assumption |].
    cbn. now apply lookup_app_l_Some.
  - destruct (promises s !! q) as [[url [due| | |r]|r]|] eqn:Hq; try discriminate.
    destruct (due <=? clock s); [|discriminate]. injection Hstep as <-.
    destruct (decide (q = p)) as [->|Hne].
    + right. split; [reflexivity|]. exists url, due. congruence.
    + left. cbn. now rewrite list_lookup_insert_ne.
  - destruct (promises s !! q) as [[url [due| | |r]|r]|] eqn:Hq; try discriminate.
    injection Hstep as <-. destruct (decide (q = p)) as [->|Hne].
    + right. split; [reflexivity|]. exists url. congruence.
    + left. cbn. now rewrite list_lookup_insert_ne.
  - destruct (promises s !! q) as [[url [due| | |r]|r]|] eqn:Hq; try discriminate.
    injection Hstep as <-. destruct (decide (q = p)) as [->|Hne].
    + right. split; [reflexivity|]. exists url. congruence.
    + left. cbn. now rewrite list_lookup_insert_ne.
  - destruct (promises s !! q) as [[url [due| | |r]|r]|] eqn:Hq; try discriminate.
    injection Hstep as <-. destruct (decide (q = p)) as [->|Hne].
    + right. split; [reflexivity|]. exists url. congruence.
    + left. cbn. now rewrite list_lookup_insert_ne.
  - destruct (promises s !! q) as [[url [due| | |r]|r]|] eqn:Hq; try discriminate.
    injection Hstep as <-. destruct (decide (q = p)) as [->|Hne].
    + right. split; [reflexivity|]. exists url, r. congruence.
    + left. cbn. now rewrite list_lookup_insert_ne.
  - destruct (promises s !! q) as [[url [due| | |r]|r]|] eqn:Hq; try discriminate.
    injection Hstep as <-. destruct (decide (q = p)) as [->|Hne].
    + right. split; [reflexivity|]. exists url, r. congruence.
    + left. cbn. now rewrite list_lookup_insert_ne.
  - injection Hstep as <-. now left.
Qed.



(** ** The cache while a request is in flight *)












Lemma run_app (es1 es2 : list event) (s : state) :
  run (es1 ++ es2) s = run es1 s ≫= run es2.
Proof.
  revert s. induction es1 as [|e es1 IH]; intros s; cbn [app run]; [reflexivity|].
  destruct (step e s) as [s1|]; cbn; [apply IH | reflexivity].
Qed.

(** Nothing keeps a request in flight for ever: from each phase there are
    events that take it to its end. *)
Lemma request_can_settle (s : state) (p : nat) (url : jstring) (ph : phase) :
  promises s !! p = Some (InFlight url ph) ->
  exists es s' o, run es s = Some s' /\ promises s' !! p = Some (Settled o).
Proof.
  intros Hp.
  assert (Closing_ends : forall s r, promises s !! p = Some (InFlight url (Closing r)) ->
            exists es s' o, run es s = Some s' /\ promises s' !! p = Some (Settled o)).
  { clear. intros s r Hp. exists [Close p]. eexists. exists r.
    cbn [run step]. rewrite Hp. cbn. split; [reflexivity|].
    apply list_lookup_insert_eq. now apply lookup_lt_Some in Hp. }
  assert (Fetching_ends : forall s, promises s !! p = Some (InFlight url Fetching) ->
            exists es s' o, run es s = Some s' /\ promises s' !! p = Some (Settled o)).
  { clear -Closing_ends. intros s Hp.
    destruct (Closing_ends (set_phase p url (Closing (Rejected (translate_error None))) s)
                (Rejected (translate_error None))) as (es & s' & o & Hrun & Ho).
    { cbn. apply list_lookup_insert_eq. now apply lookup_lt_Some in Hp. }
    exists (Throw p None :: es), s', o. cbn [run step]. rewrite Hp. cbn.
    split; assumption. }
  assert (Limited_ends : forall s, promises s !! p = Some (InFlight url Limited) ->
            exists es s' o, run es s = Some s' /\ promises s' !! p = Some (Settled o)).
  { clear -Fetching_ends. intros s Hp.
    destruct (Fetching_ends (set_phase p url Fetching
                               (set_navigations (url :: navigations s) s)))
      as (es & s' & o & Hrun & Ho).
    { cbn. apply list_lookup_insert_eq. now apply lookup_lt_Some in Hp. }
    exists (Enter p :: es), s', o. cbn [run step]. rewrite Hp. cbn.
    split; assumption. }
  destruct ph as [due| | |r]; [|now apply Limited_ends | now apply Fetching_ends
                              | now apply (Closing_ends s r)].
  destruct (Limited_ends (set_phase p url Limited
             (waitForRateLimit_end (set_clock (clock s + Z.max 0 (due - clock s)) s))))
    as (es & s' & o & Hrun & Ho).
  { cbn. apply list_lookup_insert_eq. now apply lookup_lt_Some in Hp. }
  exists (Tick (Z.max 0 (due - clock s)) :: Wake p :: es), s', o.
  split; [|exact Ho]. cbn [run step].
  destruct (Z.leb_spec 0 (Z.max 0 (due - clock s))); [|lia]. cbn.
  rewrite Hp.
  destruct (Z.leb_spec due (clock s + Z.max 0 (due - clock s))); [|lia].
  cbn. exact Hrun.
Qed.




End DedupFacts.

(** * Further properties of parse.ts *)

Module TextFacts.
Import ParseFacts CleanFacts.

(** ** Occurrences *)

Lemma startsWith_app (p s : jstring) :
  startsWith p s = true <-> exists b, s = p ++ b.
Proof.
  revert s. induction p as [|a p IH]; intros s; cbn [startsWith app].
  - split; [intros _; now exists s | reflexivity].
  - destruct s as [|c s]; [split; [discriminate | intros [b Hb]; discriminate]|].
    rewrite andb_true_iff, N.eqb_eq, IH. split.
    + intros [-> [b ->]]. now exists b.
    + intros [b [= -> ->]]. split; [reflexivity | now exists b].
Qed.

Lemma indexOf_occurs (p s : jstring) : is_Some (indexOf p s) <-> occurs p s.
Proof.
  induction s as [|c s IH]; cbn [indexOf].
  - destruct (startsWith p []) eqn:Hp.
    + split; [intros _ | intros _; eauto].
      apply startsWith_app in Hp as [b Hb]. now exists [], b.
    + split; [intros [x Hx]; discriminate|].
      intros (a & b & Hs). destruct a; [|discriminate].
      assert (startsWith p [] = true) by (apply startsWith_app; now exists b).
      congruence.
  - destruct (startsWith p (c :: s)) eqn:Hp.
    + split; [intros _ | intros _; eauto].
      apply startsWith_app in Hp as [b Hb]. now exists [], b.
    + rewrite fmap_is_Some, IH. split.
      * intros (a & b & ->). now exists (c :: a), b.
      * intros (a & b & Hs). destruct a as [|c' a].
        -- assert (startsWith p (c :: s) = true)
             by (apply startsWith_app; now exists b).
           congruence.
        -- injection Hs as -> ->. now exists a, b.
Qed.

Lemma includes_occurs (p s : jstring) : includes p s = true <-> occurs p s.
Proof. unfold includes. now rewrite bool_decide_eq_true, indexOf_occurs. Qed.

Lemma includes_not_occurs (p s : jstring) : includes p s = false <-> ~ occurs p s.
Proof. rewrite <- includes_occurs. destruct (includes p s); split; congruence. Qed.

(** ** createScraper *)

(** [createScraper] returns the LinkedIn scraper exactly for the URLs in
    which ["linkedin.com"] occurs, wherever it stands; for any other URL it
    throws, and the message ends with the URL. *)
Theorem createScraper_accepts (url : jstring) :
  (createScraper url = Returns LinkedInScraper <-> occurs (str "linkedin.com") url)
  /\ (~ occurs (str "linkedin.com") url ->
      createScraper url = Throws (str "No scraper available for URL: " ++ url)).
Proof.
  unfold createScraper. split.
  - rewrite <- includes_occurs.
    destruct (includes (str "linkedin.com") url); split; congruence.
  - intros H. apply includes_not_occurs in H. now rewrite H.
Qed.

Lemma createScraper_accepts_witness :
  createScraper (str "https://example.org/jobs")
  = Throws (str "No scraper available for URL: https://example.org/jobs").
Proof.
  apply (proj2 (createScraper_accepts (str "https://example.org/jobs"))).
  apply includes_not_occurs. reflexivity.
Defined.


(** ** preprocessHtml *)

Lemma occurs_cons (p s : jstring) (c : N) : occurs p s -> occurs p (c :: s).
Proof. intros (a & b & ->). now exists (c :: a), b. Qed.

Lemma remove_comments_from_skip (x y : jstring) :
  remove_comments_from (length x) (x ++ y) = remove_comments_from 0 y.
Proof. induction x as [|c x IH]; [reflexivity | exact IH]. Qed.

(** Text in which no comment opens is copied, up to a following [<]. *)
Lemma remove_comments_from_text (a rest : jstring) :
  ~ occurs (str "<!--") a ->
  rest = [] \/ (exists r, rest = 60 :: r) ->
  remove_comments_from 0 (a ++ rest) = a ++ remove_comments_from 0 rest.
Proof.
  intros Hno Hrest. induction a as [|c a IH]; [reflexivity|].
  cbn [app remove_comments_from].
  assert (E : comment_length (c :: a ++ rest) = None).
  { unfold comment_length.
    destruct (startsWith (str "<!--") (c :: a ++ rest)) eqn:E; [|reflexivity].
    exfalso. apply startsWith_app in E as [b Hb].
    change (str "<!--") with [60; 33; 45; 45] in Hb. cbn [app] in Hb.
    destruct a as [|c1 [|c2 [|c3 a]]]; cbn [app] in Hb.
    - destruct Hrest as [->|[r ->]]; cbn [app] in Hb; congruence.
    - destruct Hrest as [->|[r ->]]; cbn [app] in Hb; congruence.
    - destruct Hrest as [->|[r ->]]; cbn [app] in Hb; congruence.
    - simplify_eq. apply Hno. exists [], a. reflexivity. }
  rewrite E. f_equal. apply IH. intros H. apply Hno. now apply occurs_cons.
Qed.

Lemma indexOf_close (b c : jstring) :
  ~ occurs (str "-->") b ->
  indexOf (str "-->") (b ++ str "-->" ++ c) = Some (length b).
Proof.
  intros Hno. induction b as [|x b IH]; [reflexivity|].
  cbn [app indexOf length].
  assert (E : startsWith (str "-->") (x :: b ++ str "-->" ++ c) = false).
  { destruct (startsWith (str "-->") (x :: b ++ str "-->" ++ c)) eqn:E; [|reflexivity].
    exfalso. apply startsWith_app in E as [t Ht].
    change (str "-->") with [45; 45; 62] in Ht. cbn [app] in Ht.
    destruct b as [|y [|z b]]; cbn [app] in Ht.
    - congruence.
    - congruence.
    - simplify_eq. apply Hno. exists [], b. reflexivity. }
  rewrite E. rewrite IH; [reflexivity|].
  intros H. apply Hno. now apply occurs_cons.
Qed.

Lemma remove_comments_from_cons (c : N) (s : jstring) :
  remove_comments_from 0 (c :: s)
  = match comment_length (c :: s) with
    | Some n => remove_comments_from (pred n) s
    | None => c :: remove_comments_from 0 s
    end.
Proof. reflexivity. Qed.

Lemma comment_length_comment (b c : jstring) :
  ~ occurs (str "-->") b ->
  comment_length (str "<!--" ++ b ++ str "-->" ++ c) = Some (4 + length b + 3)%nat.
Proof.
  intros Hb. unfold comment_length.
  assert (E : startsWith (str "<!--") (str "<!--" ++ b ++ str "-->" ++ c) = true).
  { apply startsWith_app. now eexists. }
  rewrite E. change (drop 4 (str "<!--" ++ b ++ str "-->" ++ c)) with (b ++ str "-->" ++ c).
  now rewrite (indexOf_close b c Hb).
Qed.

Lemma remove_comments_comment (a b c : jstring) :
  ~ occurs (str "<!--") a -> ~ occurs (str "-->") b ->
  remove_comments (a ++ str "<!--" ++ b ++ str "-->" ++ c) = a ++ remove_comments c.
Proof.
  intros Ha Hb. unfold remove_comments.
  rewrite remove_comments_from_text; [|exact Ha | right; now eexists].
  f_equal. pose proof (comment_length_comment b c Hb) as E.
  change (str "<!--" ++ b ++ str "-->" ++ c)
    with (60 :: ([33; 45; 45] ++ b ++ str "-->" ++ c)) in *.
  rewrite remove_comments_from_cons, E. cbn [Nat.add Nat.pred].
  rewrite !app_assoc.
  replace (S (S (S (length b + 3)))) with (length (([33; 45; 45] ++ b) ++ str "-->")).
  - apply remove_comments_from_skip.
  - rewrite !length_app. cbn. lia.
Qed.

(** A comment that stands after text in which no comment opens, and
    whose body holds no ["-->"], is dropped with its body; the text before
    it is kept, and what follows is processed in the same way. *)
Theorem preprocessHtml_comment (a b c : jstring) :
  ~ occurs (str "<!--") a -> ~ occurs (str "-->") b ->
  preprocessHtml (a ++ str "<!--" ++ b ++ str "-->" ++ c)
  = unescape (a ++ remove_comments c).
Proof.
  intros Ha Hb. unfold preprocessHtml.
  rewrite (remove_comments_comment a b c Ha Hb).
  destruct a; reflexivity.
Qed.

Lemma preprocessHtml_comment_witness :
  preprocessHtml (str "<p>a</p>" ++ str "<!--" ++ str " x -- y " ++ str "-->"
                  ++ str "<p>b</p>")
  = str "<p>a</p><p>b</p>".
Proof.
  rewrite preprocessHtml_comment.
  - reflexivity.
  - apply includes_not_occurs. reflexivity.
  - apply includes_not_occurs. reflexivity.
Defined.

Lemma unescape_from_pair (d r : N) (t : jstring) :
  unescape_char d = Some r ->
  unescape_from false (92 :: d :: t) = r :: unescape_from false t.
Proof.
  intros H. cbn [unescape_from]. change (92 =? 92) with true. cbn iota.
  now rewrite H.
Qed.

Lemma escape_char_cases (c : N) :
  (exists d, escape_char c = [92; d] /\ unescape_char d = Some c /\ d <> 60
             /\ escape_char c <> [c])
  \/ (escape_char c = [c] /\ c <> 92).
Proof.
  unfold escape_char.
  destruct (N.eqb_spec c 10) as [->|H10];
    [left; exists 110; repeat split; discriminate|].
  destruct (N.eqb_spec c 13) as [->|H13];
    [left; exists 114; repeat split; discriminate|].
  destruct (N.eqb_spec c 9) as [->|H9];
    [left; exists 116; repeat split; discriminate|].
  destruct (N.eqb_spec c 34) as [->|H34];
    [left; exists 34; repeat split; discriminate|].
  destruct (N.eqb_spec c 92) as [->|H92];
    [left; exists 92; repeat split; discriminate|].
  now right.
Qed.

Lemma unescape_from_escape (s : jstring) : unescape_from false (escape s) = s.
Proof.
  induction s as [|c s IH]; [reflexivity|].
  unfold escape in *. cbn [flat_map].
  destruct (escape_char_cases c) as [(d & -> & Hd & _)|[-> Hc]].
  - cbn [app]. rewrite (unescape_from_pair d c _ Hd). now rewrite IH.
  - cbn [app unescape_from]. destruct (N.eqb_spec c 92); [congruence|].
    now rewrite IH.
Qed.

Lemma startsWith_escape (p t : jstring) :
  Forall (fun c => escape_char c = [c]) p ->
  startsWith p (escape t) = startsWith p t.
Proof.
  intros Hp. revert t. induction Hp as [|a p Ha _ IH]; intros t; [reflexivity|].
  destruct t as [|c t]; [reflexivity|].
  unfold escape. cbn [flat_map]. fold (escape t).
  destruct (escape_char_cases c) as [(d & E & _ & _ & Hne)|[E Hc]]; rewrite E.
  - cbn [app startsWith].
    destruct (escape_char_cases a) as [(d' & E' & _)|[_ Ha92]]; [congruence|].
    destruct (N.eqb_spec a 92); [congruence|].
    destruct (N.eqb_spec a c) as [->|]; [congruence | reflexivity].
  - cbn [app startsWith]. now rewrite IH.
Qed.

Lemma remove_comments_escape (s : jstring) :
  ~ occurs (str "<!--") s -> remove_comments_from 0 (escape s) = escape s.
Proof.
  intros Hno. induction s as [|c s IH]; [reflexivity|].
  assert (Hs : ~ occurs (str "<!--") s) by (intros H; apply Hno; now apply occurs_cons).
  specialize (IH Hs).
  assert (Hhead : startsWith (str "<!--") (escape (c :: s)) = false).
  { rewrite startsWith_escape by (repeat constructor).
    destruct (startsWith (str "<!--") (c :: s)) eqn:E; [|reflexivity].
    exfalso. apply Hno. apply startsWith_app in E as [b ->]. now exists [], b. }
  unfold escape in *. cbn [flat_map] in *.
  destruct (escape_char_cases c) as [(d & E & _ & Hd & _)|[E Hc]]; rewrite E in *;
    cbn [app] in *.
  - rewrite remove_comments_from_cons. unfold comment_length at 1. rewrite Hhead.
    f_equal. rewrite remove_comments_from_cons.
    assert (E2 : comment_length (d :: flat_map escape_char s) = None).
    { unfold comment_length. cbn [startsWith str list_ascii_of_string map].
      change (N_of_ascii "<") with 60.
      destruct (N.eqb_spec 60 d); [congruence | reflexivity]. }
    rewrite E2. now rewrite IH.
  - rewrite remove_comments_from_cons. unfold comment_length at 1. rewrite Hhead.
    now rewrite IH.
Qed.

(** [preprocessHtml] undoes the escaping of markup in which no comment
    opens: escaped line feeds, carriage returns, tabs, double quotes and
    backslashes come back as they were, also a backslash that stood before
    one of the escape letters. *)
Theorem preprocessHtml_escape (s : jstring) :
  ~ occurs (str "<!--") s -> preprocessHtml (escape s) = s.
Proof.
  intros Hno. unfold preprocessHtml, unescape, remove_comments.
  rewrite (remove_comments_escape s Hno), unescape_from_escape.
  destruct s as [|c s]; [reflexivity|].
  destruct (escape (c :: s)) eqn:E; [|reflexivity].
  apply (f_equal unescape) in E. unfold unescape in E.
  now rewrite unescape_from_escape in E.
Qed.


Lemma preprocessHtml_escape_witness :
  let s := str "<p title=" ++ [34] ++ str "C:\new" ++ [34; 62; 10; 9]
           ++ str "x</p>" in
  preprocessHtml (escape s) = s.
Proof.
  apply preprocessHtml_escape. apply includes_not_occurs. reflexivity.
Defined.

(** ** cleanText *)

(** Whatever the text, the result of [cleanText] holds only characters of
    the allow-list, so no asterisk and no angle bracket; its only white
    space is the space character; and it neither starts nor ends with
    white space. *)
Theorem cleanText_normal_form (text : jstring) :
  Forall (fun c => allowed c = true) (cleanText text)
  /\ Forall (fun c => is_space c = true -> c = 32) (cleanText text)
  /\ trimmed (cleanText text)
  /\ (42 ∉ cleanText text) /\ (60 ∉ cleanText text) /\ (62 ∉ cleanText text).
Proof.
  destruct (cleanText_plain text) as [Hp Ht].
  assert (Ha : Forall (fun c => allowed c = true) (cleanText text))
    by (eapply Forall_impl; [exact Hp | now intros c [H _]]).
  split; [exact Ha|]. split; [eapply Forall_impl; [exact Hp | now intros c [_ H]]|].
  split; [exact Ht|].
  repeat split; intros Hin; eapply Forall_forall in Ha; try exact Hin; discriminate Ha.
Qed.

(** ** extractTextWithSelectors *)

(** [extractTextWithSelectors] gives the cleaned text of the first
    selector whose cleaned text is not empty, and the empty string exactly
    when every selector of the list comes out empty. *)
Theorem extractTextWithSelectors_first (el : Element) (selectors : list string) :
  (forall pre sel post,
      selectors = pre ++ sel :: post ->
      Forall (fun s => cleanText (find_first_text el s) = []) pre ->
      cleanText (find_first_text el sel) <> [] ->
      extractTextWithSelectors el selectors = cleanText (find_first_text el sel))
  /\ (extractTextWithSelectors el selectors = []
      <-> Forall (fun s => cleanText (find_first_text el s) = []) selectors).
Proof.
  split.
  - intros pre sel post -> Hpre Hsel. induction Hpre as [|s pre Hs _ IH].
    + cbn [app extractTextWithSelectors].
      destruct (cleanText (find_first_text el sel)); [congruence | reflexivity].
    + cbn [app extractTextWithSelectors]. rewrite Hs. exact IH.
  - induction selectors as [|s selectors IH]; cbn [extractTextWithSelectors].
    + split; [constructor | reflexivity].
    + destruct (cleanText (find_first_text el s)) as [|c t] eqn:E; cbn [truthy].
      * rewrite IH. split; [now constructor | intros H; now inversion H].
      * split; [discriminate | intros H; inversion H; congruence].
Qed.

Lemma extractTextWithSelectors_first_witness :
  let card := element_of [ ("h3.base-search-card__title"%string, str " Data *Analyst* ") ] [] in
  extractTextWithSelectors card TITLE_SELECTORS = str "Data Analyst".
Proof.
  intros card.
  refine (proj1 (extractTextWithSelectors_first card TITLE_SELECTORS)
            ["h3.base-main-card__title"%string] "h3.base-search-card__title"%string
            [".main-job-card__title"%string] eq_refl _ _).
  - repeat constructor.
  - vm_compute. discriminate.
Defined.

(** ** The items of a listing *)

Lemma extractTextWithSelectors_clean (el : Element) (selectors : list string) :
  42 ∉ extractTextWithSelectors el selectors.
Proof.
  induction selectors as [|s selectors IH]; cbn [extractTextWithSelectors].
  - apply not_elem_of_nil.
  - destruct (truthy (cleanText (find_first_text el s))); [|exact IH].
    apply cleanText_normal_form.
Qed.

Lemma cleanText_clean (text : jstring) : 42 ∉ cleanText text.
Proof. apply cleanText_normal_form. Qed.

Lemma or_else_clean (a b : jstring) : 42 ∉ a -> 42 ∉ b -> 42 ∉ or_else a b.
Proof. unfold or_else. now destruct (truthy a). Qed.

Lemma normalizeLinkedInUrl_absolute (url : jstring) :
  startsWith (str "/") (normalizeLinkedInUrl url) = false.
Proof.
  unfold normalizeLinkedInUrl. destruct url as [|c url]; [reflexivity|].
  cbn [truthy negb]. destruct (startsWith (str "/") (c :: url)) eqn:E;
    [reflexivity | exact E].
Qed.

Lemma item_of_listing (doc : Document) (now : jstring) (item : JobSearchResult.t) :
  item ∈ SearchResults.jobs (extractJobSearchResults doc now) ->
  (exists card, job_card card = Some item)
  \/ (exists card, similar_job_card card = Some item).
Proof.
  unfold extractJobSearchResults. cbn [SearchResults.jobs].
  destruct (length (omap job_card (select doc JOB_CARD_SELECTORS)) =? 0)%nat.
  - rewrite elem_of_app, !list_elem_of_omap.
    intros [(card & _ & H)|(card & _ & H)]; eauto.
  - rewrite list_elem_of_omap. intros (card & _ & H); eauto.
Qed.

(** No text field of an item of a listing holds an asterisk: the title,
    the company, the location, the posted time, the job type, the salary
    range and the description. *)
Theorem listing_items_clean (doc : Document) (now : jstring) (item : JobSearchResult.t) :
  item ∈ SearchResults.jobs (extractJobSearchResults doc now) ->
  (42 ∉ JobSearchResult.jobTitle item)
  /\ (42 ∉ JobSearchResult.companyName item)
  /\ (42 ∉ JobSearchResult.location item)
  /\ (42 ∉ JobSearchResult.postedTime item)
  /\ (42 ∉ JobSearchResult.jobType item)
  /\ (42 ∉ JobSearchResult.salaryRange item)
  /\ (42 ∉ JobSearchResult.description item).
Proof.
  assert (Hns : 42 ∉ str "Not specified").
  { intros H. apply list_elem_of_In in H. vm_compute in H. intuition discriminate. }
  intros Hin. apply item_of_listing in Hin as [[card H]|[card H]].
  - unfold job_card in H.
    destruct (negb (truthy (card_title card)) || negb (truthy (card_company card)));
      [discriminate|].
    injection H as <-. cbn.
    repeat split; try apply cleanText_clean.
    + unfold card_title. destruct (negb _);
        [apply cleanText_clean | apply extractTextWithSelectors_clean].
    + unfold card_company. destruct (negb _);
        [apply cleanText_clean | apply extractTextWithSelectors_clean].
    + apply or_else_clean; [apply cleanText_clean | exact Hns].
  - unfold similar_job_card in H.
    destruct (negb (truthy (similar_title card))
              || negb (truthy (similar_company card))); [discriminate|].
    injection H as <-. cbn.
    repeat split; try apply cleanText_clean; try apply not_elem_of_nil.
    apply or_else_clean; [apply cleanText_clean | exact Hns].
Qed.

Lemma listing_items_clean_witness :
  match SearchResults.jobs (extractJobSearchResults two_card_listing []) with
  | item :: _ => 42 ∉ JobSearchResult.jobTitle item
  | [] => False
  end.
Proof.
  destruct (SearchResults.jobs (extractJobSearchResults two_card_listing []))
    as [|item l] eqn:E; [vm_compute in E; discriminate E|].
  apply (proj1 (listing_items_clean two_card_listing [] item
                  ltac:(rewrite E; apply list_elem_of_here))).
Defined.

(** Every item of a listing has a location, if only ["Not specified"],
    and its link does not start with a slash. *)
Theorem listing_items_located (doc : Document) (now : jstring) (item : JobSearchResult.t) :
  item ∈ SearchResults.jobs (extractJobSearchResults doc now) ->
  JobSearchResult.location item <> []
  /\ startsWith (str "/") (JobSearchResult.jobUrl item) = false.
Proof.
  intros Hin. apply item_of_listing in Hin as [[card H]|[card H]].
  - unfold job_card in H.
    destruct (negb (truthy (card_title card)) || negb (truthy (card_company card)));
      [discriminate|].
    injection H as <-. cbn [JobSearchResult.location JobSearchResult.jobUrl].
    split; [|apply normalizeLinkedInUrl_absolute].
    rewrite or_else_nil. intros [_ H]. discriminate H.
  - unfold similar_job_card in H.
    destruct (negb (truthy (similar_title card))
              || negb (truthy (similar_company card))); [discriminate|].
    injection H as <-. cbn [JobSearchResult.location JobSearchResult.jobUrl].
    split; [|apply normalizeLinkedInUrl_absolute].
    rewrite or_else_nil. intros [_ H]. discriminate H.
Qed.

Lemma listing_items_located_witness :
  match SearchResults.jobs (extractJobSearchResults two_card_listing []) with
  | item :: _ => JobSearchResult.location item <> []
  | [] => False
  end.
Proof.
  destruct (SearchResults.jobs (extractJobSearchResults two_card_listing []))
    as [|item l] eqn:E; [vm_compute in E; discriminate E|].
  apply (proj1 (listing_items_located two_card_listing [] item
                  ltac:(rewrite E; apply list_elem_of_here))).
Defined.


(** ** The title of a detail page *)

Lemma trimStart_keeps (u r : jstring) (d : N) :
  is_space d = false -> exists u', trimStart (u ++ d :: r) = u' ++ d :: r.
Proof.
  intros Hd. induction u as [|c u [u' IH]]; cbn [app trimStart].
  - rewrite Hd. now exists [].
  - destruct (is_space c); [now exists u' | now exists (c :: u)].
Qed.

Lemma trimStart_blank (w r : jstring) (d : N) :
  blank_string w -> is_space d = false -> trimStart (w ++ d :: r) = d :: r.
Proof.
  intros Hw Hd. induction Hw as [|c w Hc _ IH]; cbn [app trimStart].
  - now rewrite Hd.
  - now rewrite Hc.
Qed.

Lemma is_site_suffix_tail (w1 w2 : jstring) :
  blank_string w1 -> blank_string w2 ->
  is_site_suffix (w1 ++ 124 :: w2 ++ str "LinkedIn") = true.
Proof.
  intros H1 H2. unfold is_site_suffix.
  rewrite (trimStart_blank w1 _ 124 H1) by reflexivity.
  change (124 =? 124) with true. cbn [andb].
  apply bool_decide_eq_true. change (str "LinkedIn") with (76 :: str "inkedIn").
  now apply trimStart_blank.
Qed.

Lemma is_site_suffix_before (m : jstring) (d : N) (w1 w2 : jstring) :
  is_space d = false ->
  is_site_suffix ((m ++ [d]) ++ w1 ++ 124 :: w2 ++ str "LinkedIn") = false.
Proof.
  intros Hd. unfold is_site_suffix. rewrite <- app_assoc. cbn [app].
  destruct (trimStart_keeps m (w1 ++ 124 :: w2 ++ str "LinkedIn") d Hd) as [u' ->].
  destruct (u' ++ d :: w1 ++ 124 :: w2 ++ str "LinkedIn") as [|c s'] eqn:E;
    [reflexivity|].
  destruct (c =? 124); [|reflexivity]. cbn [andb].
  apply bool_decide_eq_false. intros Heq.
  assert (Hs' : exists v, s' = v ++ 124 :: w2 ++ str "LinkedIn").
  { destruct u' as [|c' u']; cbn [app] in E; injection E as _ <-.
    - now exists w1.
    - exists (u' ++ d :: w1). now rewrite <- app_assoc. }
  destruct Hs' as [v ->].
  destruct (trimStart_keeps v (w2 ++ str "LinkedIn") 124 eq_refl) as [v' Hv].
  rewrite Hv in Heq. apply (f_equal (@length N)) in Heq.
  rewrite !length_app in Heq. cbn in Heq. rewrite length_app in Heq. cbn in Heq. lia.
Qed.

Lemma strip_site_suffix_tail (x w1 w2 : jstring) :
  blank_string w1 -> blank_string w2 ->
  x = [] \/ (exists m d, x = m ++ [d] /\ is_space d = false) ->
  strip_site_suffix (x ++ w1 ++ 124 :: w2 ++ str "LinkedIn") = x.
Proof.
  intros H1 H2 Hx. induction x as [|c x IH].
  - cbn [app]. destruct (w1 ++ 124 :: w2 ++ str "LinkedIn") eqn:E;
      cbn [strip_site_suffix]; [reflexivity|].
    rewrite <- E. now rewrite is_site_suffix_tail.
  - destruct Hx as [Hx|(m & d & Hx & Hd)]; [discriminate|].
    cbn [app strip_site_suffix].
    change (c :: x ++ w1 ++ 124 :: w2 ++ str "LinkedIn")
      with ((c :: x) ++ w1 ++ 124 :: w2 ++ str "LinkedIn").
    rewrite Hx, (is_site_suffix_before m d w1 w2 Hd), <- Hx. cbn [app].
    f_equal. apply IH.
    destruct m as [|c' m]; cbn [app] in Hx; injection Hx as -> ->.
    + now left.
    + right. now exists m, d.
Qed.

(** When neither [.topcard__title] nor the [h1] gives a title, and the
    [title] element reads [X | LinkedIn], with any white space around the
    bar and [X] not ending in white space, the title chain gives the
    cleaned [X]: the site suffix is gone, a bar inside [X] is not taken for
    it. *)
Theorem detail_title_site_suffix (doc : Document) (x w1 w2 : jstring) :
  cleanText (select_text doc ".topcard__title") = [] ->
  cleanText (select_text doc "h1[data-test-id='job-title']") = [] ->
  select_text doc "title" = x ++ w1 ++ 124 :: w2 ++ str "LinkedIn" ->
  blank_string w1 -> blank_string w2 ->
  x = [] \/ (exists m d, x = m ++ [d] /\ is_space d = false) ->
  detail_title doc = cleanText x.
Proof.
  intros Ht Hh Htitle H1 H2 Hx. unfold detail_title.
  rewrite Ht, Hh, Htitle, (strip_site_suffix_tail x w1 w2 H1 H2 Hx).
  reflexivity.
Qed.

Lemma detail_title_site_suffix_witness :
  detail_title (document_of []
                  [ ("title"%string,
                     str "Data Engineer | Acme" ++ [32] ++ 124 :: [32] ++ str "LinkedIn") ]
                  [])
  = str "Data Engineer  Acme".
Proof.
  rewrite (detail_title_site_suffix _ (str "Data Engineer | Acme") [32] [32]).
  - reflexivity.
  - reflexivity.
  - reflexivity.
  - reflexivity.
  - repeat constructor.
  - repeat constructor.
  - right. exists (str "Data Engineer | Acm"), 101. split; reflexivity.
Defined.

(** ** The record of a detail page *)

(** A record that is produced has a title and a company, and at least one
    of the two is what the page gave, not the ["Unknown ..."] default. *)
Theorem extractJobDetail_named (doc : Document) (now : jstring) (r : JobData.t) :
  extractJobDetail doc now = Some r ->
  JobData.jobTitle r <> [] /\ JobData.companyName r <> []
  /\ (JobData.jobTitle r = detail_title doc
      \/ JobData.companyName r = detail_company doc).
Proof.
  intros E. pose proof (extractJobDetail_Some doc now r E) as (Ht & Hc & _).
  assert (Hne : ~ (detail_title doc = [] /\ detail_company doc = [])).
  { intros H. apply extractJobDetail_None with (now := now) in H. congruence. }
  rewrite Ht, Hc. split; [|split].
  - rewrite or_else_nil. intros [_ H]. discriminate H.
  - rewrite or_else_nil. intros [_ H]. discriminate H.
  - destruct (detail_title doc) as [|c t]; [|now left].
    destruct (detail_company doc) as [|c t]; [tauto | now right].
Qed.

Lemma extractJobDetail_named_witness :
  match extractJobDetail company_only_page [] with
  | Some r => JobData.jobTitle r <> [] /\ JobData.companyName r = str "Acme Corp"
  | None => False
  end.
Proof.
  destruct (extractJobDetail company_only_page []) as [r|] eqn:E;
    [|vm_compute in E; discriminate E].
  destruct (extractJobDetail_named company_only_page [] r E) as (Ht & _ & [H|H]).
  - exfalso. apply Ht. rewrite H. reflexivity.
  - split; [exact Ht | rewrite H; reflexivity].
Defined.

(** ** extractPlainTextFromDescription *)

Lemma single_spaced_suffix (k s : jstring) : single_spaced (k ++ s) -> single_spaced s.
Proof.
  intros [Hf Ha]. split; [now apply Forall_app in Hf as [_ Hf]|].
  intros pre a b post ->. apply (Ha (k ++ pre) a b post). now rewrite <- app_assoc.
Qed.

Lemma single_spaced_rev (s : jstring) : single_spaced s -> single_spaced (rev s).
Proof.
  intros [Hf Ha]. split; [now apply List.Forall_rev|].
  intros pre a b post E Hsa Hsb. apply (Ha (rev post) b a (rev pre)); [|assumption..].
  apply (f_equal (@rev N)) in E. rewrite rev_involutive in E. rewrite E.
  rewrite rev_app_distr. cbn [rev]. now rewrite <- !app_assoc.
Qed.

Lemma single_spaced_trimStart (s : jstring) : single_spaced s -> single_spaced (trimStart s).
Proof.
  destruct (trimStart_suffix s) as [k Hk]. rewrite Hk at 1. apply single_spaced_suffix.
Qed.

Lemma single_spaced_trim (s : jstring) : single_spaced s -> single_spaced (trim s).
Proof.
  intros H. unfold trim, trimEnd.
  now apply single_spaced_rev, single_spaced_trimStart, single_spaced_rev,
    single_spaced_trimStart.
Qed.

Lemma collapse_spaces_from_single (b : bool) (t : jstring) :
  single_spaced (collapse_spaces_from b t).
Proof.
  split; [apply collapse_spaces_from_spaces|].
  revert b. induction t as [|c t IH]; intros b pre x y post E Hx Hy;
    cbn [collapse_spaces_from] in E.
  - destruct pre; discriminate.
  - destruct (is_space c) eqn:Hc.
    + destruct b; [exact (IH true pre x y post E Hx Hy)|].
      destruct pre as [|p pre]; cbn [app] in E.
      * injection E as <- E.
        pose proof (collapse_spaces_from_true_head t) as Hh. rewrite E in Hh.
        congruence.
      * injection E as _ E. exact (IH true pre x y post E Hx Hy).
    + destruct pre as [|p pre]; cbn [app] in E.
      * injection E as <- _. congruence.
      * injection E as _ E. exact (IH false pre x y post E Hx Hy).
Qed.

Lemma collapse_spaces_single (s : jstring) : single_spaced s -> collapse_spaces s = s.
Proof.
  unfold collapse_spaces. induction s as [|c s IH]; intros Hs; [reflexivity|].
  pose proof (single_spaced_suffix [c] s Hs) as Hs'.
  cbn [collapse_spaces_from]. destruct (is_space c) eqn:Hc.
  - destruct Hs as [Hf Ha]. inversion Hf as [|? ? Hc32 _]; subst.
    rewrite (Hc32 Hc). f_equal.
    rewrite collapse_spaces_from_head; [now apply IH|].
    destruct s as [|d s]; [exact I|].
    destruct (is_space d) eqn:Hd; [|reflexivity].
    exfalso. exact (Ha [] c d s eq_refl Hc Hd).
  - f_equal. now apply IH.
Qed.

(** The plain text of a description neither starts nor ends with white
    space, its only white space is single space characters, and
    normalising it once more changes nothing. *)
Theorem extractPlainTextFromDescription_normal (text_of : jstring -> jstring)
    (html : jstring) :
  let plain_text := extractPlainTextFromDescription text_of html in
  trimmed plain_text /\ single_spaced plain_text
  /\ trim (collapse_spaces plain_text) = plain_text.
Proof.
  cbn zeta. unfold extractPlainTextFromDescription.
  destruct (negb (truthy html)).
  - split; [now left|]. split; [|reflexivity].
    split; [constructor | intros [|? ?] ? ? ? ?; discriminate].
  - assert (Hs : single_spaced (trim (collapse_spaces (text_of html))))
      by apply single_spaced_trim, collapse_spaces_from_single.
    pose proof (trim_trimmed (collapse_spaces (text_of html))) as Ht.
    split; [exact Ht|]. split; [exact Hs|].
    rewrite (collapse_spaces_single _ Hs). now apply trim_id.
Qed.

End TextFacts.

(** * Further properties of scrape.ts *)

Module LoopFacts.
Import CacheFacts ScrapeFacts DedupFacts TextFacts.

Local Open Scope Z_scope.

(** Reads the fields of a state that was built with the setters. *)
Ltac fields :=
  cbn [clock cache lastRequestTime pendingRequests promises navigations
       set_clock set_cache set_lastRequestTime set_pendingRequests set_promises
       set_navigations set_phase waitForRateLimit_end clearCache snd].

(** ** The cache in the event loop *)

Lemma Forall_map_set (P : jstring * CacheEntry -> Prop) (k : jstring)
    (v : CacheEntry) (m : Cache) :
  Forall P m -> P (k, v) -> Forall P (map_set k v m).
Proof.
  intros Hm Hv. induction Hm as [|[k' v'] m Hx Hm IH]; cbn [map_set].
  - now constructor.
  - destruct (decide (k' = k)); constructor; assumption.
Qed.

Lemma Forall_map_delete (P : jstring * CacheEntry -> Prop) (k : jstring) (m : Cache) :
  Forall P m -> Forall P (map_delete k m).
Proof.
  intros Hm. induction Hm as [|[k' v'] m Hx Hm IH]; cbn [map_delete]; [constructor|].
  destruct (decide (k' = k)); [assumption | now constructor].
Qed.

Lemma Forall_setCachedResult (P : jstring * CacheEntry -> Prop) (now : Z)
    (url html : jstring) (c : Cache) :
  Forall P c -> P (url, {| html := html; timestamp := now |}) ->
  Forall P (setCachedResult now url html c).
Proof.
  intros Hc Hv. unfold setCachedResult.
  pose proof (Forall_map_set P url _ c Hc Hv) as Hi.
  destruct (_ <? _)%nat; [|exact Hi].
  destruct (sort_by_timestamp _) as [|[k e] rest]; [exact Hi|].
  now apply Forall_map_delete.
Qed.

Lemma cache_sound_step (e : event) (s s' : state) :
  cache_sound s -> step e s = Some s' -> cache_sound s'.
Proof.
  intros (Hnd & Hlen & Hts) Hstep.
  destruct e as [d|url|p|p|p h|p err|p|p m|]; cbn [step] in Hstep.
  9:{ injection Hstep as <-. split; [constructor|].
      split; [cbn; unfold MAX_CACHE_SIZE; lia | constructor]. }
  8:{ destruct (promises s !! p) as [[url [due| | |r]|r]|]; try discriminate.
      injection Hstep as <-. now repeat split. }
  - destruct (Z.leb_spec 0 d); [|discriminate]. injection Hstep as <-.
    split; [exact Hnd|]. split; [exact Hlen|]. cbn.
    eapply Forall_impl; [exact Hts|]. cbn. intros; lia.
  - injection Hstep as <-.
    destruct (scrape_cases url s)
      as [(h & _ & _ & ->)|[(p' & _ & ->)|(_ & _ & ph & t & _ & ->)]];
      now repeat split.
  - destruct (promises s !! p) as [[url [due| | |r]|r]|]; try discriminate.
    destruct (due <=? clock s); [|discriminate]. injection Hstep as <-.
    now repeat split.
  - destruct (promises s !! p) as [[url [due| | |r]|r]|]; try discriminate.
    injection Hstep as <-. now repeat split.
  - destruct (promises s !! p) as [[url [due| | |r]|r]|]; try discriminate.
    injection Hstep as <-. split; [|split]; cbn.
    + now apply NoDup_setCachedResult.
    + now apply length_setCachedResult.
    + apply Forall_setCachedResult; [exact Hts | cbn; lia].
  - destruct (promises s !! p) as [[url [due| | |r]|r]|]; try discriminate.
    injection Hstep as <-. now repeat split.
  - destruct (promises s !! p) as [[url [due| | |r]|r]|]; try discriminate.
    injection Hstep as <-. now repeat split.
Qed.

Lemma cache_sound_run (es : list event) (s s' : state) :
  cache_sound s -> run es s = Some s' -> cache_sound s'.
Proof.
  revert s. induction es as [|e es IH]; intros s Hs; cbn [run].
  - now intros [= <-].
  - destruct (step e s) as [s1|] eqn:He; [|discriminate]. cbn.
    apply IH. exact (cache_sound_step _ _ _ Hs He).
Qed.

(** Whatever has happened, [getCacheStats().size] is at most 50, the
    entries of the cache have distinct URLs, and none is stamped later
    than the clock. *)
Theorem reachable_cache_sound (s : state) :
  reachable s ->
  (CacheStats.size (getCacheStats s) <= 50)%nat
  /\ NoDup (keys (cache s))
  /\ Forall (fun x => timestamp (snd x) <= clock s) (cache s).
Proof.
  intros (now & es & Hrun).
  assert (H0 : cache_sound (init now)).
  { split; [constructor|]. split; [cbn; unfold MAX_CACHE_SIZE; lia | constructor]. }
  destruct (cache_sound_run es _ _ H0 Hrun) as (Hnd & Hlen & Hts).
  now repeat split.
Qed.

Lemma reachable_cache_sound_witness :
  (CacheStats.size (getCacheStats (state_after (fetch_many 0 51))) <= 50)%nat.
Proof.
  apply (reachable_cache_sound (state_after (fetch_many 0 51))).
  exists start_time, (fetch_many 0 51). vm_compute. reflexivity.
Defined.

Lemma map_set_new (k : jstring) (v : CacheEntry) (m : Cache) :
  k ∉ keys m -> map_set k v m = m ++ [(k, v)].
Proof.
  induction m as [|[k' v'] m IH]; cbn [map_set map fst app]; [reflexivity|].
  intros Hk. apply not_elem_of_cons in Hk as [Hne Hk].
  rewrite decide_False by congruence. now rewrite IH.
Qed.

Lemma map_set_old (k : jstring) (v : CacheEntry) (m : Cache) :
  k ∈ keys m -> length (map_set k v m) = length m.
Proof.
  intros Hk. rewrite <- !(length_map fst), keys_set. now rewrite decide_True.
Qed.

(** What was put is found, when the clock has not run backwards. *)
Lemma map_get_setCachedResult (now : Z) (url html : jstring) (c : Cache) :
  NoDup (keys c) -> (length c <= MAX_CACHE_SIZE)%nat ->
  Forall (fun x => timestamp (snd x) <= now) c ->
  map_get url (setCachedResult now url html c)
  = Some {| html := html; timestamp := now |}.
Proof.
  intros Hnd Hlen Hts. unfold setCachedResult.
  set (v := {| html := html; timestamp := now |}).
  pose proof (map_get_set_eq url v c) as Hget.
  destruct (Nat.ltb_spec MAX_CACHE_SIZE (length (map_set url v c))) as [Hbig|];
    [|exact Hget].
  assert (Hnew : url ∉ keys c).
  { intros Hin. rewrite (map_set_old url v c Hin) in Hbig. lia. }
  rewrite (map_set_new url v c Hnew) in *.
  destruct (sort_by_timestamp_head (c ++ [(url, v)]))
    as (pre & k & e & post & Hm & Hh & Hpre & _); [now destruct c|].
  destruct (sort_by_timestamp (c ++ [(url, v)])) as [|[k' e'] rest]; [discriminate|].
  injection Hh as -> ->.
  rewrite map_get_delete_ne; [exact Hget|]. intros ->.
  destruct post as [|z post _] using rev_ind.
  - apply app_inj_tail in Hm as [<- He]. assert (e = v) as -> by congruence.
    destruct c as [|x c]; [cbn in Hbig; unfold MAX_CACHE_SIZE in Hbig; lia|].
    apply Forall_cons in Hpre as [Hlt _]. apply Forall_cons in Hts as [Hle _].
    subst v. cbn in Hlt. lia.
  - change (pre ++ (k, e) :: post ++ [z]) with (pre ++ ((k, e) :: post) ++ [z]) in Hm.
    rewrite app_assoc in Hm. apply app_inj_tail in Hm as [-> _].
    apply Hnew. rewrite map_app. apply elem_of_app. right. cbn. apply list_elem_of_here.
Qed.

(** Markup that a request has just stored is what the next [scrape] of
    its URL returns, at once, when the markup is not empty. *)
Theorem Content_then_scrape (s s' : state) (p : nat) (url html : jstring) :
  reachable s ->
  promises s !! p = Some (InFlight url Fetching) ->
  html <> [] ->
  step (Content p html) s = Some s' ->
  scrape url s' = (Immediate html, s').
Proof.
  intros Hreach Hp Hne Hstep.
  destruct (reachable_cache_sound s Hreach) as (Hlen & Hnd & Hts).
  cbn [step] in Hstep. rewrite Hp in Hstep. injection Hstep as <-.
  unfold scrape, getCachedResult. cbn.
  rewrite (map_get_setCachedResult (clock s) url html (cache s) Hnd Hlen Hts). cbn.
  replace (clock s - clock s) with 0 by lia. cbn.
  destruct html; [congruence | reflexivity].
Qed.

Lemma Content_then_scrape_witness :
  let s' := state_after [Request search_url; Enter 0; Content 0 (str "<html>")] in
  scrape search_url s' = (Immediate (str "<html>"), s').
Proof.
  apply (Content_then_scrape (state_after [Request search_url; Enter 0]) _
           0%nat search_url (str "<html>")).
  - exists start_time, [Request search_url; Enter 0]. vm_compute. reflexivity.
  - reflexivity.
  - discriminate.
  - vm_compute. reflexivity.
Defined.

(** ** The number of pending requests *)

Lemma in_flight_count_app (l : list promise) (x : promise) :
  in_flight_count (l ++ [x]) = (in_flight_count l + in_flight_count [x])%nat.
Proof. unfold in_flight_count, count. now rewrite List.filter_app, length_app. Qed.

Lemma in_flight_count_cons (x : promise) (l : list promise) :
  in_flight_count (x :: l) = (in_flight_count [x] + in_flight_count l)%nat.
Proof. unfold in_flight_count, count. cbn [List.filter]. destruct x; reflexivity. Qed.

Lemma in_flight_count_insert (l : list promise) (p : nat) (x y : promise) :
  l !! p = Some x ->
  (in_flight_count (<[p := y]> l) + in_flight_count [x]
   = in_flight_count l + in_flight_count [y])%nat.
Proof.
  revert p. induction l as [|a l IH]; intros [|p] Hp; try discriminate.
  - injection Hp as ->. cbn [insert list_insert].
    rewrite (in_flight_count_cons y l), (in_flight_count_cons x l). lia.
  - cbn [insert list_insert]. change (list_insert p y l) with (<[p := y]> l).
    rewrite (in_flight_count_cons a (<[p := y]> l)), (in_flight_count_cons a l).
    specialize (IH p Hp). rewrite <- !Nat.add_assoc. f_equal. exact IH.
Qed.

Lemma in_flight_count_phase (l : list promise) (p : nat) (url url' : jstring)
    (ph ph' : phase) :
  l !! p = Some (InFlight url ph) ->
  in_flight_count (<[p := InFlight url' ph']> l) = in_flight_count l.
Proof.
  intros Hp. pose proof (in_flight_count_insert l p _ (InFlight url' ph') Hp) as H.
  cbn in H. lia.
Qed.

Lemma pending_count_step (e : event) (s s' : state) :
  wf s -> base.size (pendingRequests s) = in_flight_count (promises s) ->
  e <> Clear -> step e s = Some s' ->
  base.size (pendingRequests s') = in_flight_count (promises s').
Proof.
  intros (_ & _ & Hwf) Hn Hclear Hstep.
  destruct e as [d|url|p|p|p h|p err|p|p m|]; cbn [step] in Hstep; [..|congruence].
  8:{ destruct (promises s !! p) as [[url [due| | |r]|r]|] eqn:Hp; try discriminate.
      injection Hstep as <-. fields.
      pose proof (Hwf _ _ _ Hp) as Hpend.
      pose proof (map_size_delete_Some url (pendingRequests s) (mk_is_Some _ _ Hpend))
        as Hsz.
      pose proof (in_flight_count_insert _ _ _ (Settled (Rejected m)) Hp) as Hc.
      cbn in Hc. lia. }
  - destruct (0 <=? d); [|discriminate]. now injection Hstep as <-.
  - injection Hstep as <-.
    destruct (scrape_cases url s)
      as [(h & _ & _ & ->)|[(p' & _ & ->)|(Hnone & _ & ph & t & _ & ->)]];
      [exact Hn | exact Hn |]. fields.
    rewrite map_size_insert_None by exact Hnone.
    rewrite in_flight_count_app, Hn. cbn. lia.
  - destruct (promises s !! p) as [[url [due| | |r]|r]|] eqn:Hp; try discriminate.
    destruct (due <=? clock s); [|discriminate]. injection Hstep as <-. fields.
    now rewrite (in_flight_count_phase _ _ _ _ _ _ Hp).
  - destruct (promises s !! p) as [[url [due| | |r]|r]|] eqn:Hp; try discriminate.
    injection Hstep as <-. fields. now rewrite (in_flight_count_phase _ _ _ _ _ _ Hp).
  - destruct (promises s !! p) as [[url [due| | |r]|r]|] eqn:Hp; try discriminate.
    injection Hstep as <-. fields. now rewrite (in_flight_count_phase _ _ _ _ _ _ Hp).
  - destruct (promises s !! p) as [[url [due| | |r]|r]|] eqn:Hp; try discriminate.
    injection Hstep as <-. fields. now rewrite (in_flight_count_phase _ _ _ _ _ _ Hp).
  - destruct (promises s !! p) as [[url [due| | |r]|r]|] eqn:Hp; try discriminate.
    injection Hstep as <-. fields.
    pose proof (Hwf _ _ _ Hp) as Hpend.
    pose proof (map_size_delete_Some url (pendingRequests s) (mk_is_Some _ _ Hpend)) as Hsz.
    pose proof (in_flight_count_insert _ _ _ (Settled r) Hp) as Hc.
    cbn in Hc. lia.
Qed.

Lemma pending_count_run (es : list event) (s s' : state) :
  uncleared es ->
  wf s -> base.size (pendingRequests s) = in_flight_count (promises s) ->
  run es s = Some s' ->
  base.size (pendingRequests s') = in_flight_count (promises s').
Proof.
  intros Hes. revert s.
  induction Hes as [|e es Hclear Hes IH]; intros s Hwf Hn; cbn [run].
  - now intros [= <-].
  - destruct (step e s) as [s1|] eqn:He; [|discriminate]. cbn.
    apply IH; [exact (wf_step _ _ _ Hwf Hclear He)
              | exact (pending_count_step _ _ _ Hwf Hn Hclear He)].
Qed.

(** As long as [clearCache] has not been called,
    [getCacheStats().pendingRequests] is the number of request promises
    that have not settled, whether pages close or fail to. *)
Theorem getCacheStats_pendingRequests (s : state) :
  reachable_uncleared s ->
  CacheStats.pendingRequests (getCacheStats s) = in_flight_count (promises s).
Proof.
  intros (now & es & Hes & Hrun).
  exact (pending_count_run es _ _ Hes (wf_init now) eq_refl Hrun).
Qed.

Lemma getCacheStats_pendingRequests_witness :
  let s := state_after [Request (job_url 0); Request (job_url 1); Request (job_url 0);
                        Enter 0; Content 0 (str "<html>"); Close 0] in
  CacheStats.pendingRequests (getCacheStats s) = 1%nat.
Proof.
  intros s. rewrite (getCacheStats_pendingRequests s); [reflexivity|].
  exists start_time,
    [Request (job_url 0); Request (job_url 1); Request (job_url 0);
     Enter 0; Content 0 (str "<html>"); Close 0].
  split; [repeat (constructor; [discriminate|]); constructor|].
  vm_compute. reflexivity.
Defined.

(** ** The errors of scrape *)






(** The [catch] of [scrapeInternal] looks for [429] first: an error whose
    message holds [429] anywhere, also a time-out with [429] in its URL, is
    reported as a rate limit; one with [Timeout] and no [429] as a time-out;
    any other as a failure to scrape. *)
Theorem translate_error_cases (message : jstring) :
  (occurs (str "429") message ->
   translate_error (Some message)
   = str "Rate limit exceeded. Please wait and try again.")
  /\ (~ occurs (str "429") message -> occurs (str "Timeout") message ->
      translate_error (Some message)
      = str "Request timed out. The site may be blocking automated access.")
  /\ (~ occurs (str "429") message -> ~ occurs (str "Timeout") message ->
      translate_error (Some message) = str "Failed to scrape the webpage").
Proof.
  unfold translate_error. repeat split.
  - intros H. apply includes_occurs in H. now rewrite H.
  - intros H1 H2. apply includes_not_occurs in H1. apply includes_occurs in H2.
    now rewrite H1, H2.
  - intros H1 H2. apply includes_not_occurs in H1, H2. now rewrite H1, H2.
Qed.

Lemma translate_error_cases_witness :
  translate_error
    (Some (str "page.goto: Timeout 2000ms exceeded. navigating to /jobs/view/42907"))
  = str "Rate limit exceeded. Please wait and try again.".
Proof.
  apply (proj1 (translate_error_cases _)).
  exists (str "page.goto: Timeout 2000ms exceeded. navigating to /jobs/view/"), (str "07").
  reflexivity.
Defined.

(** ** The rate limiter *)

Lemma clock_step (e : event) (s s' : state) : step e s = Some s' -> clock s <= clock s'.
Proof.
  intros Hstep.
  destruct e as [d|url|p|p|p h|p err|p|p m|]; cbn [step] in Hstep.
  9:{ injection Hstep as <-. cbn. lia. }
  8:{ destruct (promises s !! p) as [[url [due| | |r]|r]|]; try discriminate.
      injection Hstep as <-. cbn. lia. }
  - destruct (Z.leb_spec 0 d); [|discriminate]. injection Hstep as <-. cbn. lia.
  - injection Hstep as <-.
    destruct (scrape_cases url s)
      as [(h & _ & _ & ->)|[(p' & _ & ->)|(_ & _ & ph & t & _ & ->)]]; cbn; lia.
  - destruct (promises s !! p) as [[url [due| | |r]|r]|]; try discriminate.
    destruct (due <=? clock s); [|discriminate]. injection Hstep as <-. cbn. lia.
  - destruct (promises s !! p) as [[url [due| | |r]|r]|]; try discriminate.
    injection Hstep as <-. cbn. lia.
  - destruct (promises s !! p) as [[url [due| | |r]|r]|]; try discriminate.
    injection Hstep as <-. cbn. lia.
  - destruct (promises s !! p) as [[url [due| | |r]|r]|]; try discriminate.
    injection Hstep as <-. cbn. lia.
  - destruct (promises s !! p) as [[url [due| | |r]|r]|]; try discriminate.
    injection Hstep as <-. cbn. lia.
Qed.

Lemma sleeping_step (e : event) (s s' : state) (p : nat) (url : jstring) (due : Z) :
  promises s !! p = Some (InFlight url (Sleeping due)) \/ due <= clock s ->
  step e s = Some s' ->
  promises s' !! p = Some (InFlight url (Sleeping due)) \/ due <= clock s'.
Proof.
  intros [Hp|Hdue] Hstep; [|right; pose proof (clock_step _ _ _ Hstep); lia].
  destruct (step_lookup _ _ _ _ _ Hp Hstep) as [H|H]; [now left|].
  destruct e as [d|u|q|q|q h|q err|q|q m|]; try (now destruct H);
    try (destruct H as (_ & H); destruct H as (? & H); try destruct H as (? & H);
         discriminate).
  destruct H as (-> & _). cbn [step] in Hstep. rewrite Hp in Hstep.
  destruct (Z.leb_spec due (clock s)); [|discriminate].
  injection Hstep as <-. right. cbn. lia.
Qed.

Lemma sleeping_run (es : list event) (s s' : state) (p : nat) (url : jstring) (due : Z) :
  promises s !! p = Some (InFlight url (Sleeping due)) \/ due <= clock s ->
  run es s = Some s' ->
  promises s' !! p = Some (InFlight url (Sleeping due)) \/ due <= clock s'.
Proof.
  revert s. induction es as [|e es IH]; intros s Hs; cbn [run].
  - now intros [= <-].
  - destruct (step e s) as [s1|] eqn:He; [|discriminate]. cbn.
    apply IH. exact (sleeping_step _ _ _ _ _ _ Hs He).
Qed.

Lemma pending_sound_phase (s : state) (p : nat) (url : jstring) (ph ph' : phase) :
  pending_sound s -> promises s !! p = Some (InFlight url ph) ->
  forall u q, pendingRequests s !! u = Some q ->
    exists ph0, <[p := InFlight url ph']> (promises s) !! q = Some (InFlight u ph0).
Proof.
  intros Hs Hp u q Hq. destruct (Hs _ _ Hq) as [ph0 Hph0].
  destruct (decide (q = p)) as [->|Hne].
  - exists ph'. rewrite list_lookup_insert_eq by now apply lookup_lt_Some in Hp.
    congruence.
  - exists ph0. now rewrite list_lookup_insert_ne.
Qed.

Lemma pending_sound_settle (s : state) (p : nat) (url : jstring) (ph : phase)
    (o : outcome) :
  pending_sound s -> promises s !! p = Some (InFlight url ph) ->
  forall u q, delete url (pendingRequests s) !! u = Some q ->
    exists ph0, <[p := Settled o]> (promises s) !! q = Some (InFlight u ph0).
Proof.
  intros Hs Hp u q Hq. apply lookup_delete_Some in Hq as [Hne Hq].
  destruct (Hs _ _ Hq) as [ph0 Hph0]. exists ph0.
  rewrite list_lookup_insert_ne; [exact Hph0|]. intros <-. congruence.
Qed.

Lemma pending_sound_step (e : event) (s s' : state) :
  pending_sound s -> step e s = Some s' -> pending_sound s'.
Proof.
  intros Hs Hstep.
  destruct e as [d|url|p|p|p h|p err|p|p m|]; cbn [step] in Hstep.
  - destruct (0 <=? d); [|discriminate]. now injection Hstep as <-.
  - injection Hstep as <-.
    destruct (scrape_cases url s)
      as [(h & _ & _ & ->)|[(p' & _ & ->)|(_ & _ & ph & t & _ & ->)]];
      [exact Hs | exact Hs |].
    intros u q. cbn. rewrite lookup_insert. case_decide as Hu.
    + subst u. intros [= <-]. exists ph. now apply list_lookup_middle.
    + intros Hq. destruct (Hs _ _ Hq) as [ph' Hph]. exists ph'.
      now apply lookup_app_l_Some.
  - destruct (promises s !! p) as [[url [due| | |r]|r]|] eqn:Hp; try discriminate.
    destruct (due <=? clock s); [|discriminate]. injection Hstep as <-.
    exact (pending_sound_phase s p url _ Limited Hs Hp).
  - destruct (promises s !! p) as [[url [due| | |r]|r]|] eqn:Hp; try discriminate.
    injection Hstep as <-. exact (pending_sound_phase s p url _ Fetching Hs Hp).
  - destruct (promises s !! p) as [[url [due| | |r]|r]|] eqn:Hp; try discriminate.
    injection Hstep as <-. exact (pending_sound_phase s p url _ _ Hs Hp).
  - destruct (promises s !! p) as [[url [due| | |r]|r]|] eqn:Hp; try discriminate.
    injection Hstep as <-. exact (pending_sound_phase s p url _ _ Hs Hp).
  - destruct (promises s !! p) as [[url [due| | |r]|r]|] eqn:Hp; try discriminate.
    injection Hstep as <-. exact (pending_sound_settle s p url _ r Hs Hp).
  - destruct (promises s !! p) as [[url [due| | |r]|r]|] eqn:Hp; try discriminate.
    injection Hstep as <-. exact (pending_sound_settle s p url _ (Rejected m) Hs Hp).
  - injection Hstep as <-. intros u q Hq. cbn in Hq. now rewrite lookup_empty in Hq.
Qed.

Lemma reachable_pending_sound (s : state) : reachable s -> pending_sound s.
Proof.
  intros (now & es & Hrun).
  assert (H0 : pending_sound (init now)).
  { intros u q Hq. cbn in Hq. now rewrite lookup_empty in Hq. }
  revert H0 Hrun. generalize (init now) as s0.
  induction es as [|e es IH]; intros s0 H0; cbn [run].
  - now intros [= <-].
  - destruct (step e s0) as [s1|] eqn:He; [|discriminate]. cbn.
    apply IH. exact (pending_sound_step _ _ _ H0 He).
Qed.

(** A new request that is made less than 1500 ms after [lastRequestTime]
    is put to sleep, and whatever happens next it is still asleep until
    the clock has reached [lastRequestTime + 1500]: it does not enter
    [scrapeInternal] before. *)
Theorem waitForRateLimit_holds (s s1 s2 : state) (url : jstring) (p : nat)
    (es : list event) :
  reachable s ->
  clock s - lastRequestTime s < MIN_REQUEST_INTERVAL ->
  scrape url s = (Awaiting p, s1) ->
  promises s !! p = None ->
  run es s1 = Some s2 ->
  promises s2 !! p = Some (InFlight url (Sleeping (lastRequestTime s + 1500)))
  \/ lastRequestTime s + 1500 <= clock s2.
Proof.
  intros Hreach Hlt Hscrape Hfresh Hrun.
  apply (sleeping_run es s1); [|exact Hrun]. left.
  pose proof (reachable_pending_sound s Hreach) as Hwf.
  unfold scrape in Hscrape.
  destruct (getCachedResult _ _ _) as [[|c h]|]; [|discriminate|];
    (destruct (pendingRequests s !! url) as [q|] eqn:Hq;
      [ injection Hscrape as -> _; destruct (Hwf _ _ Hq) as (ph & Hph); congruence
      | rewrite (waitForRateLimit_begin_wait s Hlt) in Hscrape;
        injection Hscrape as <- <-; fields;
        apply list_lookup_middle; reflexivity ]).
Qed.

Lemma waitForRateLimit_holds_witness :
  let s := state_after [Request (job_url 0)] in
  let s2 := state_after [Request (job_url 0); Request (job_url 1); Tick 700; Enter 0] in
  promises s2 !! 1%nat
  = Some (InFlight (job_url 1) (Sleeping (lastRequestTime s + 1500)))
  \/ lastRequestTime s + 1500 <= clock s2.
Proof.
  intros s s2.
  apply (waitForRateLimit_holds s (state_after [Request (job_url 0); Request (job_url 1)])
           s2 (job_url 1) 1%nat [Tick 700; Enter 0]).
  - exists start_time, [Request (job_url 0)]. vm_compute. reflexivity.
  - vm_compute. reflexivity.
  - vm_compute. reflexivity.
  - reflexivity.
  - vm_compute. reflexivity.
Defined.

(** ** clearCache *)


(** ** Expired entries *)

Lemma length_set_ge (k : jstring) (v : CacheEntry) (m : Cache) :
  (length m <= length (map_set k v m))%nat.
Proof.
  rewrite <- !(length_map fst), keys_set.
  destruct (decide (k ∈ keys m)); rewrite ?length_app; simpl; lia.
Qed.

Lemma length_setCachedResult_ge (now : Z) (url html : jstring) (c : Cache) :
  NoDup (keys c) -> (length c <= MAX_CACHE_SIZE)%nat ->
  (length c <= length (setCachedResult now url html c))%nat.
Proof.
  intros Hnd Hlen.
  destruct (setCachedResult_cases now url html c Hnd) as [Hsmall Hbig].
  pose proof (length_set_ge url {| html := html; timestamp := now |} c) as Hge.
  destruct (Nat.le_gt_cases
              (length (map_set url {| html := html; timestamp := now |} c))
              MAX_CACHE_SIZE) as [Hle|Hgt].
  - now rewrite (Hsmall Hle).
  - destruct (Hbig Hgt) as (pre & k & e & post & Hi & -> & _).
    rewrite Hi in Hgt. rewrite length_app in *. cbn [length] in Hgt. lia.
Qed.

Lemma cache_size_step (e : event) (s s' : state) :
  cache_sound s -> e <> Clear -> step e s = Some s' ->
  (length (cache s) <= length (cache s'))%nat.
Proof.
  intros (Hnd & Hlen & _) Hclear Hstep.
  destruct e as [d|url|p|p|p h|p err|p|p m|]; cbn [step] in Hstep; [..|congruence].
  8:{ destruct (promises s !! p) as [[url [due| | |r]|r]|]; try discriminate.
      injection Hstep as <-. fields. lia. }
  - destruct (0 <=? d); [|discriminate]. injection Hstep as <-. fields. lia.
  - injection Hstep as <-.
    destruct (scrape_cases url s)
      as [(h & _ & _ & ->)|[(p' & _ & ->)|(_ & _ & ph & t & _ & ->)]]; fields; lia.
  - destruct (promises s !! p) as [[url [due| | |r]|r]|]; try discriminate.
    destruct (due <=? clock s); [|discriminate]. injection Hstep as <-. fields. lia.
  - destruct (promises s !! p) as [[url [due| | |r]|r]|]; try discriminate.
    injection Hstep as <-. fields. lia.
  - destruct (promises s !! p) as [[url [due| | |r]|r]|]; try discriminate.
    injection Hstep as <-. fields. now apply length_setCachedResult_ge.
  - destruct (promises s !! p) as [[url [due| | |r]|r]|]; try discriminate.
    injection Hstep as <-. fields. lia.
  - destruct (promises s !! p) as [[url [due| | |r]|r]|]; try discriminate.
    injection Hstep as <-. fields. lia.
Qed.

Lemma cache_size_run (es : list event) (s s' : state) :
  uncleared es ->
  cache_sound s -> run es s = Some s' -> (length (cache s) <= length (cache s'))%nat.
Proof.
  intros Hes. revert s. induction Hes as [|e es Hclear Hes IH]; intros s Hs; cbn [run].
  - now intros [= <-].
  - destruct (step e s) as [s1|] eqn:He; [|discriminate]. cbn.
    intros Hrun. pose proof (cache_size_step _ _ _ Hs Hclear He).
    pose proof (IH s1 (cache_sound_step _ _ _ Hs He) Hrun). lia.
Qed.

(** As long as [clearCache] is not called, [getCacheStats().size] never
    goes down: an entry that has expired is not removed when time passes or
    when it is read, and a store into a full cache removes one entry for
    the one it adds. *)
Theorem getCacheStats_size_grows (s s' : state) (es : list event) :
  reachable s ->
  uncleared es ->
  run es s = Some s' ->
  (CacheStats.size (getCacheStats s) <= CacheStats.size (getCacheStats s'))%nat.
Proof.
  intros (now & es0 & Hrun0) Hes Hrun.
  assert (H0 : cache_sound (init now)).
  { split; [constructor|]. split; [cbn; unfold MAX_CACHE_SIZE; lia | constructor]. }
  exact (cache_size_run es s s' Hes (cache_sound_run es0 _ _ H0 Hrun0) Hrun).
Qed.

Lemma getCacheStats_size_grows_witness :
  let s := state_after (fetch_ok 0 (job_url 0) (str "<html>")) in
  let s' := state_after (fetch_ok 0 (job_url 0) (str "<html>")
                         ++ [Tick 700000; Request (job_url 0)]) in
  (1 <= CacheStats.size (getCacheStats s'))%nat.
Proof.
  intros s s'.
  apply (getCacheStats_size_grows s s' [Tick 700000; Request (job_url 0)]).
  - exists start_time, (fetch_ok 0 (job_url 0) (str "<html>")). vm_compute. reflexivity.
  - repeat (constructor; [discriminate|]). constructor.
  - vm_compute. reflexivity.
Defined.

(** ** An empty page *)

(** A page that came back empty is stored but never served: once its
    request has settled, the next [scrape] of the URL starts a new
    request. *)
Theorem empty_page_refetched (s s1 s2 : state) (p : nat) (url : jstring) :
  reachable s ->
  promises s !! p = Some (InFlight url Fetching) ->
  step (Content p []) s = Some s1 ->
  step (Close p) s1 = Some s2 ->
  map_get url (cache s2) = Some {| html := []; timestamp := clock s |}
  /\ exists ph s3,
       scrape url s2 = (Awaiting (length (promises s2)), s3)
       /\ promises s3 = promises s2 ++ [InFlight url ph].
Proof.
  intros Hreach Hp H1 H2.
  destruct (reachable_cache_sound s Hreach) as (Hlen & Hnd & Hts).
  cbn [step] in H1. rewrite Hp in H1. injection H1 as <-.
  cbn [step] in H2. unfold set_phase in H2. cbn [promises set_promises] in H2.
  rewrite list_lookup_insert_eq in H2 by (apply lookup_lt_Some in Hp; exact Hp).
  injection H2 as <-. fields.
  pose proof (map_get_setCachedResult (clock s) url [] (cache s) Hnd Hlen Hts) as Hget.
  split; [exact Hget|].
  unfold scrape, getCachedResult. fields. rewrite Hget. cbn [html timestamp].
  rewrite lookup_delete_eq.
  destruct (_ <? _); unfold waitForRateLimit_begin; fields;
    destruct (_ <? _); eexists _, _; split; reflexivity.
Qed.

Lemma empty_page_refetched_witness :
  let s2 := state_after [Request search_url; Enter 0; Content 0 []; Close 0] in
  exists ph s3,
    scrape search_url s2 = (Awaiting 1%nat, s3)
    /\ promises s3 = promises s2 ++ [InFlight search_url ph].
Proof.
  intros s2.
  destruct (empty_page_refetched
              (state_after [Request search_url; Enter 0])
              (state_after [Request search_url; Enter 0; Content 0 []])
              s2 0%nat search_url) as (_ & ph & s3 & H3 & Hp).
  - exists start_time, [Request search_url; Enter 0]. vm_compute. reflexivity.
  - reflexivity.
  - vm_compute. reflexivity.
  - vm_compute. reflexivity.
  - exists ph, s3. split; [exact H3 | exact Hp].
Defined.

End LoopFacts.

(** * buildLinkedInSearchUrl *)

Module UrlFacts.
Import URLSearchParams TextFacts.

Local Open Scope N_scope.

Lemma count_app {A} (f : A -> bool) (l1 l2 : list A) :
  count f (l1 ++ l2) = (count f l1 + count f l2)%nat.
Proof. unfold count. now rewrite List.filter_app, length_app. Qed.

Lemma count_cons {A} (f : A -> bool) (x : A) (l : list A) :
  count f (x :: l) = ((if f x then 1 else 0) + count f l)%nat.
Proof. unfold count. cbn [List.filter]. now destruct (f x). Qed.

Lemma is_alnum_safe (c : N) : is_alnum c = true -> query_safe c = true.
Proof. unfold query_safe. now intros ->. Qed.

Lemma hex_digit_alnum (d : N) : d < 16 -> is_alnum (hex_digit d) = true.
Proof.
  intros Hd. unfold hex_digit, is_alnum, is_digit.
  destruct (N.ltb_spec d 10);
    rewrite !orb_true_iff, !andb_true_iff, !N.leb_le; lia.
Qed.

Lemma encode_byte_safe (b : N) :
  b < 256 -> Forall (fun c => query_safe c = true) (encode_byte b).
Proof.
  intros Hb. unfold encode_byte.
  destruct (is_alnum b || (b =? 42) || (b =? 45) || (b =? 46) || (b =? 95)) eqn:E.
  - constructor; [|constructor]. unfold query_safe. now rewrite E.
  - destruct (b =? 32); repeat constructor; apply is_alnum_safe, hex_digit_alnum.
    + apply N.Div0.div_lt_upper_bound. lia.
    + apply N.mod_lt. lia.
Qed.

Lemma utf8_bytes (cp : N) : cp < 1114112 -> Forall (fun b => b < 256) (utf8 cp).
Proof.
  intros Hcp. unfold utf8.
  assert (H64 : forall n, n mod 64 < 64) by (intros n; apply N.mod_lt; lia).
  destruct (N.ltb_spec cp 128); [repeat constructor; lia|].
  destruct (N.ltb_spec cp 2048).
  { assert (cp / 64 < 32) by (apply N.Div0.div_lt_upper_bound; lia).
    pose proof (H64 cp). repeat constructor; lia. }
  destruct (N.ltb_spec cp 65536).
  { assert (cp / 4096 < 16) by (apply N.Div0.div_lt_upper_bound; lia).
    pose proof (H64 cp). pose proof (H64 (cp / 64)). repeat constructor; lia. }
  assert (cp / 262144 < 5) by (apply N.Div0.div_lt_upper_bound; lia).
  pose proof (H64 cp). pose proof (H64 (cp / 64)). pose proof (H64 (cp / 4096)).
  repeat constructor; lia.
Qed.

Lemma scalars_from_range (skip : bool) (s : jstring) :
  Forall code_unit s -> Forall (fun cp => cp < 1114112) (scalars_from skip s).
Proof.
  intros Hs. revert skip.
  induction Hs as [|c s Hc Hs IH]; intros skip; cbn [scalars_from]; [constructor|].
  destruct skip; [apply IH|]. unfold code_unit in Hc.
  destruct (is_high_surrogate c) eqn:Hh.
  - unfold is_high_surrogate in Hh. apply andb_true_iff in Hh as [H1 H2].
    apply N.leb_le in H1, H2.
    destruct s as [|d s']; [repeat constructor; lia|].
    destruct (is_low_surrogate d) eqn:Hl.
    + unfold is_low_surrogate in Hl. apply andb_true_iff in Hl as [H3 H4].
      apply N.leb_le in H3, H4. constructor; [lia | apply IH].
    + constructor; [lia | apply IH].
  - destruct (is_low_surrogate c); (constructor; [lia | apply IH]).
Qed.

Lemma encode_safe (s : jstring) :
  Forall code_unit s -> Forall (fun c => query_safe c = true) (encode s).
Proof.
  intros Hs. unfold encode, scalars.
  apply Forall_flat_map.
  assert (Hb : Forall (fun b => b < 256) (flat_map utf8 (scalars_from false s))).
  { apply Forall_flat_map. eapply Forall_impl; [apply scalars_from_range, Hs|].
    exact utf8_bytes. }
  eapply Forall_impl; [exact Hb | exact encode_byte_safe].
Qed.

Lemma count_safe (sep : N) (e : jstring) :
  query_safe sep = false ->
  Forall (fun c => query_safe c = true) e -> count (N.eqb sep) e = 0%nat.
Proof.
  intros Hsep He. induction He as [|c e Hc _ IH]; [reflexivity|].
  rewrite count_cons, IH. destruct (N.eqb_spec sep c); [congruence | reflexivity].
Qed.

Lemma join_pairs_safe (params : list (jstring * jstring)) :
  Forall pair_units params ->
  Forall (fun c => query_safe c = true \/ c = 61 \/ c = 38) (join_pairs params).
Proof.
  assert (Hsafe : forall e, Forall code_unit e ->
            Forall (fun c => query_safe c = true \/ c = 61 \/ c = 38) (encode e)).
  { intros e He. eapply Forall_impl; [exact (encode_safe e He)|]. cbn. tauto. }
  intros Hp. induction Hp as [|[k v] rest [Hk Hv] _ IH]; [constructor|].
  cbn [join_pairs]. cbn [fst snd] in Hk, Hv.
  destruct rest as [|kv rest].
  - apply Forall_app. split; [now apply Hsafe|]. constructor; [tauto | now apply Hsafe].
  - apply Forall_app. split; [now apply Hsafe|]. constructor; [tauto|].
    apply Forall_app. split; [now apply Hsafe|]. constructor; [tauto | exact IH].
Qed.

Lemma join_pairs_separators (params : list (jstring * jstring)) :
  Forall pair_units params ->
  count (N.eqb 61) (join_pairs params) = length params
  /\ count (N.eqb 38) (join_pairs params) = Nat.pred (length params).
Proof.
  intros Hp. induction Hp as [|[k v] rest [Hk Hv] _ [IH1 IH2]]; [now split|].
  cbn [fst snd] in Hk, Hv.
  pose proof (count_safe 61 _ eq_refl (encode_safe k Hk)) as Hk1.
  pose proof (count_safe 61 _ eq_refl (encode_safe v Hv)) as Hv1.
  pose proof (count_safe 38 _ eq_refl (encode_safe k Hk)) as Hk2.
  pose proof (count_safe 38 _ eq_refl (encode_safe v Hv)) as Hv2.
  cbn [join_pairs]. destruct rest as [|kv rest].
  - rewrite !count_app, !count_cons, Hk1, Hv1, Hk2, Hv2. now split.
  - rewrite !count_app, !count_cons, !count_app, !count_cons, Hk1, Hv1, Hk2, Hv2, IH1, IH2.
    cbn [length N.eqb Pos.eqb Nat.pred]. split; lia.
Qed.

Lemma str_units (s : string) : Forall code_unit (str s).
Proof.
  unfold str. induction (list_ascii_of_string s) as [|a l IH]; cbn [map]; constructor.
  - unfold code_unit. pose proof (N_ascii_bounded a). lia.
  - exact IH.
Qed.

(** Whatever the title and the location hold, the URL of a search is the
    fixed address and a query of alphanumerics, [*-._+%] and the
    separators; the separators are those of the parameters alone: one [=]
    for each of the three fixed parameters, one more for a title that is
    not empty and one more for a location that is given and not empty. No
    character of the title or the location adds a parameter. *)
Theorem buildLinkedInSearchUrl_query (jobTitle : jstring) (location : option jstring) :
  Forall code_unit jobTitle ->
  Forall code_unit (default [] location) ->
  exists q,
    buildLinkedInSearchUrl jobTitle location
    = str "https://www.linkedin.com/jobs/search?" ++ q
    /\ Forall (fun c => query_safe c = true \/ c = 61 \/ c = 38) q
    /\ count (N.eqb 61) q
       = (3 + (if truthy jobTitle then 1 else 0)
            + (if truthy (default [] location) then 1 else 0))%nat
    /\ count (N.eqb 61) q = S (count (N.eqb 38) q).
Proof.
  intros Ht Hl. unfold buildLinkedInSearchUrl, toString.
  change (str "https://www.linkedin.com/jobs/search?")
    with (str "https://www.linkedin.com/jobs/search" ++ [63]).
  eexists. split; [rewrite <- app_assoc; reflexivity|].
  match goal with |- context [join_pairs ?l] => set (params := l) end.
  assert (Hp : Forall pair_units params).
  { subst params.
    assert (Hc : forall k v, pair_units (str k, str v))
      by (intros k v; split; apply str_units).
    assert (Hk : forall k v, Forall code_unit v -> pair_units (str k, v))
      by (intros k v Hv; split; [apply str_units | exact Hv]).
    destruct jobTitle as [|c t], location as [[|d l]|]; cbn [truthy app];
      repeat (constructor; [solve [apply Hc | apply Hk; assumption]|]); constructor. }
  assert (Hn : length params
               = (3 + (if truthy jobTitle then 1 else 0)
                    + (if truthy (default [] location) then 1 else 0))%nat).
  { subst params. now destruct jobTitle as [|c t], location as [[|d l]|]. }
  destruct (join_pairs_separators params Hp) as [H61 H38].
  split; [exact (join_pairs_safe params Hp)|]. split; [now rewrite H61|].
  rewrite H61, H38, Hn. lia.
Qed.

Lemma buildLinkedInSearchUrl_query_witness :
  exists q,
    buildLinkedInSearchUrl (str "c++ & go") (Some (str "a=b"))
    = str "https://www.linkedin.com/jobs/search?" ++ q
    /\ count (N.eqb 61) q = 5%nat.
Proof.
  destruct (buildLinkedInSearchUrl_query (str "c++ & go") (Some (str "a=b")))
    as (q & Hq & _ & Hn & _).
  - apply str_units.
  - apply str_units.
  - exists q. split; [exact Hq | exact Hn].
Defined.

(** [createScraper] accepts every URL that [buildLinkedInSearchUrl]
    makes. *)
Theorem createScraper_search_url (jobTitle : jstring) (location : option jstring) :
  createScraper (buildLinkedInSearchUrl jobTitle location) = Returns LinkedInScraper.
Proof.
  unfold createScraper.
  rewrite (proj2 (includes_occurs _ _)); [reflexivity|].
  unfold buildLinkedInSearchUrl.
  change (str "https://www.linkedin.com/jobs/search")
    with (str "https://www." ++ str "linkedin.com" ++ str "/jobs/search").
  eexists (str "https://www."), _. rewrite <- !app_assoc. reflexivity.
Qed.

End UrlFacts.

(** * The API routes *)

Module RouteFacts.
Import Route ParseFacts CleanFacts TextFacts.

Lemma trimStart_nil (s : jstring) : trimStart s = [] <-> blank_string s.
Proof.
  unfold blank_string. induction s as [|c s IH]; cbn [trimStart].
  - split; [constructor | reflexivity].
  - destruct (is_space c) eqn:Hc.
    + rewrite IH. split; [now constructor | now inversion 1].
    + split; [discriminate | inversion 1; congruence].
Qed.

Lemma trim_nil (s : jstring) : trim s = [] <-> blank_string s.
Proof.
  unfold trim, trimEnd. rewrite <- trimStart_nil. split.
  - intros H. apply (f_equal (@rev N)) in H. rewrite rev_involutive in H. cbn in H.
    apply trimStart_nil in H. apply List.Forall_rev in H. rewrite rev_involutive in H.
    pose proof (trimStart_head s) as Hh.
    destruct (trimStart s) as [|c r]; [reflexivity|].
    inversion H; subst. congruence.
  - now intros ->.
Qed.

Lemma blank_spec (param : option jstring) :
  blank param = true <-> forall v, param = Some v -> blank_string v.
Proof.
  unfold blank. destruct param as [v|].
  - rewrite negb_true_iff, truthy_false, trim_nil.
    split; [now intros H ? [= <-] | intros H; now apply H].
  - split; [discriminate | reflexivity].
Qed.

(** The search route answers 400 exactly when the parameter [q] is missing
    or holds white space only; nothing is fetched then. *)
Theorem search_GET_blank (w : world) (q location : option jstring) :
  (forall v, q = Some v -> blank_string v)
  <-> search_GET w q location
      = {| status := 400; json := ErrorBody (str "Job title is required") |}.
Proof.
  rewrite <- blank_spec. unfold search_GET. destruct (blank q).
  - split; reflexivity || discriminate.
  - split; [discriminate|]. destruct (fetch w _); discriminate.
Qed.

Lemma search_GET_blank_witness :
  search_GET (world_of two_card_listing) (Some (str "   ")) None
  = {| status := 400; json := ErrorBody (str "Job title is required") |}.
Proof.
  apply (proj1 (search_GET_blank (world_of two_card_listing) (Some (str "   ")) None)).
  intros v [= <-]. repeat constructor.
Defined.

(** A body of results that the search route sends goes with status 200;
    each of its jobs has a title and a company; and when it has no jobs its
    [totalResults] is 0, whatever count the page showed. *)
Theorem search_GET_results (w : world) (q location : option jstring)
    (results : SearchResults.t) :
  json (search_GET w q location) = SearchBody results ->
  status (search_GET w q location) = 200%nat
  /\ Forall named (SearchResults.jobs results)
  /\ (SearchResults.jobs results = [] ->
      SearchResults.totalResults results = Some (Int 0)).
Proof.
  unfold search_GET. destruct (blank q); [discriminate|].
  destruct (fetch w _) as [html|m]; [|discriminate].
  cbn [json status]. intros [= <-]. split; [reflexivity|].
  unfold searchJobs_results.
  destruct (Nat.ltb_spec 0 (length (SearchResults.jobs
              (scrapeSearchResults (load w) html (now w))))) as [Hlen|Hlen].
  - split.
    + unfold scrapeSearchResults, extractJobSearchResults. cbn [SearchResults.jobs].
      destruct (length _ =? 0)%nat.
      * apply Forall_app. split;
          [apply omap_job_card_named | apply omap_similar_job_card_named].
      * apply omap_job_card_named.
    + intros H. rewrite H in Hlen. cbn in Hlen. lia.
  - cbn [SearchResults.jobs SearchResults.totalResults]. split; [constructor | reflexivity].
Qed.

Lemma search_GET_results_witness :
  match json (search_GET (world_of count_only_page) (Some (str "engineer")) None) with
  | SearchBody results => SearchResults.totalResults results = Some (Int 0)
  | _ => False
  end.
Proof.
  destruct (json (search_GET (world_of count_only_page) (Some (str "engineer")) None))
    as [m|results|d] eqn:E;
    [vm_compute in E; discriminate E | | vm_compute in E; discriminate E].
  destruct (search_GET_results _ _ _ results E) as (_ & _ & H).
  apply H. vm_compute in E. injection E as <-. reflexivity.
Defined.

(** The details route answers 404 exactly when a URL was given, its fetch
    succeeded, and the page has no title and no company: a fetch that
    fails is a 500, never a 404. *)
Theorem details_GET_not_found (w : world) (url : option jstring) :
  status (details_GET w url) = 404%nat
  <-> exists u html,
        url = Some u /\ ~ blank_string u /\ fetch w u = Resolved html
        /\ detail_title (load w (preprocessHtml html)) = []
        /\ detail_company (load w (preprocessHtml html)) = [].
Proof.
  unfold details_GET. destruct (blank url) eqn:Hb.
  - split; [discriminate|]. intros (u & html & -> & Hnb & _).
    exfalso. apply Hnb. exact (proj1 (blank_spec (Some u)) Hb u eq_refl).
  - destruct url as [u|]; [|cbn in Hb; discriminate Hb].
    change (default [] (Some u)) with u.
    assert (Hnb : ~ blank_string u).
    { intros H. assert (blank (Some u) = true); [|congruence].
      apply blank_spec. now intros v [= <-]. }
    destruct (fetch w u) as [html|m] eqn:Hf.
    + unfold scrape_detail.
      destruct (extractJobDetail (load w (preprocessHtml html)) (now w)) as [r|] eqn:E.
      * split; [discriminate|]. intros (u' & html' & [= <-] & _ & Hf' & Ht & Hc).
        rewrite Hf in Hf'. injection Hf' as <-.
        pose proof (proj2 (extractJobDetail_None _ (now w)) (conj Ht Hc)). congruence.
      * split; [|reflexivity]. intros _. apply extractJobDetail_None in E as [Ht Hc].
        now exists u, html.
    + split; [discriminate|]. intros (u' & html' & [= <-] & _ & Hf' & _). congruence.
Qed.

Lemma details_GET_not_found_witness :
  status (details_GET (world_of blank_page)
            (Some (str "https://www.linkedin.com/jobs/view/1"))) = 404%nat.
Proof.
  apply (proj2 (details_GET_not_found (world_of blank_page)
                  (Some (str "https://www.linkedin.com/jobs/view/1")))).
  exists (str "https://www.linkedin.com/jobs/view/1"), (str "<html>").
  split; [reflexivity|]. split; [|repeat split].
  intros H. apply Forall_cons in H as [H _]. discriminate H.
Defined.

End RouteFacts.

(** * The record of a detail page, further *)

Module DetailFacts.
Import ParseFacts CleanFacts TextFacts RouteFacts.

Lemma take_while_split (f : N -> bool) (s : jstring) :
  s = take_while f s ++ drop (length (take_while f s)) s
  /\ Forall (fun c => f c = true) (take_while f s).
Proof.
  induction s as [|c s [IH1 IH2]]; cbn [take_while]; [now split|].
  destruct (f c) eqn:Hc; cbn [length drop app].
  - split; [now rewrite <- IH1 | now constructor].
  - now split.
Qed.

Lemma posted_at_shape (s m : jstring) :
  posted_at s = Some m ->
  (exists b, s = m ++ b)
  /\ exists w1 d w2 c,
       m = str "Posted" ++ w1 ++ d ++ w2 ++ [c; 77]
       /\ w1 <> [] /\ blank_string w1
       /\ d <> [] /\ Forall (fun x => is_digit_or_colon x = true) d
       /\ w2 <> [] /\ blank_string w2
       /\ (c = 65 \/ c = 80).
Proof.
  unfold posted_at. destruct (startsWith (str "Posted") s) eqn:Hp; [|discriminate].
  apply startsWith_app in Hp as [r0 ->].
  change (drop 6 (str "Posted" ++ r0)) with r0.
  destruct (take_while_split is_space r0) as [E1 F1].
  set (w1 := take_while is_space r0) in *.
  set (r1 := drop (length w1) r0) in *.
  destruct (take_while_split is_digit_or_colon r1) as [E2 F2].
  set (d := take_while is_digit_or_colon r1) in *.
  set (r2 := drop (length d) r1) in *.
  destruct (take_while_split is_space r2) as [E3 F3].
  set (w2 := take_while is_space r2) in *.
  set (r3 := drop (length w2) r2) in *.
  clearbody w1 r1 d r2 w2 r3.
  destruct w1 as [|a1 w1]; [discriminate|].
  destruct d as [|a2 d]; [discriminate|].
  destruct w2 as [|a3 w2]; [discriminate|].
  destruct r3 as [|c [|c' r3]]; try discriminate.
  destruct (N.eqb_spec c' 77) as [->|Hne].
  2: { destruct c' as [|p]; [discriminate|].
       do 7 (destruct p as [p|p|]; try discriminate); congruence. }
  destruct ((c =? 65) || (c =? 80)) eqn:Hc; [|discriminate].
  intros H.
  assert (Hm : m = str "Posted" ++ (a1 :: w1) ++ (a2 :: d) ++ (a3 :: w2) ++ [c; 77])
    by congruence.
  clear H. subst m. split.
  - exists r3. rewrite E1, E2, E3. rewrite <- !app_assoc. reflexivity.
  - exists (a1 :: w1), (a2 :: d), (a3 :: w2), c.
    apply orb_true_iff in Hc. rewrite !N.eqb_eq in Hc.
    repeat split; try discriminate; assumption.
Qed.

Lemma match_posted_shape (s m : jstring) :
  match_posted s = Some m ->
  occurs m s
  /\ exists w1 d w2 c,
       m = str "Posted" ++ w1 ++ d ++ w2 ++ [c; 77]
       /\ w1 <> [] /\ blank_string w1
       /\ d <> [] /\ Forall (fun x => is_digit_or_colon x = true) d
       /\ w2 <> [] /\ blank_string w2
       /\ (c = 65 \/ c = 80).
Proof.
  induction s as [|x s IH]; cbn [match_posted].
  - destruct (posted_at []) as [m'|] eqn:E; [|discriminate].
    intros [= ->]. destruct (posted_at_shape _ _ E) as [[b Hb] Hs].
    split; [now exists [], b | exact Hs].
  - destruct (posted_at (x :: s)) as [m'|] eqn:E.
    + intros [= ->]. destruct (posted_at_shape _ _ E) as [[b Hb] Hs].
      split; [now exists [], b | exact Hs].
    + intros H. destruct (IH H) as [Ho Hs]. split; [now apply occurs_cons | exact Hs].
Qed.

Lemma extractJobDetail_rest (doc : Document) (now : jstring) (r : JobData.t) :
  extractJobDetail doc now = Some r ->
  JobData.jobDescription r = first_description doc descSelectors
  /\ JobData.postedTime r
     = match cleanText (select_text doc ".posted-time-ago__text") with
       | (_ :: _) as t => Some t
       | [] => select_attr doc "meta[name='description']" "content" ≫= match_posted
       end.
Proof.
  unfold extractJobDetail.
  destruct (negb (truthy (detail_title doc)) && negb (truthy (detail_company doc)));
    [discriminate|].
  intros H. apply (inj Some) in H. subst r. split; reflexivity.
Qed.

(** The posted time of a record is never the empty string: it is the
    cleaned text of the posted-time element when that is not empty, and
    otherwise a part of the description meta tag made of [Posted], white
    space, digits and colons, white space, and [AM] or [PM]. *)
Theorem extractJobDetail_postedTime (doc : Document) (now : jstring)
    (r : JobData.t) (t : jstring) :
  extractJobDetail doc now = Some r ->
  JobData.postedTime r = Some t ->
  (t <> [] /\ t = cleanText (select_text doc ".posted-time-ago__text"))
  \/ (cleanText (select_text doc ".posted-time-ago__text") = []
      /\ exists content w1 d w2 c,
           select_attr doc "meta[name='description']" "content" = Some content
           /\ occurs t content
           /\ t = str "Posted" ++ w1 ++ d ++ w2 ++ [c; 77]
           /\ w1 <> [] /\ blank_string w1
           /\ d <> [] /\ Forall (fun x => is_digit_or_colon x = true) d
           /\ w2 <> [] /\ blank_string w2
           /\ (c = 65 \/ c = 80)).
Proof.
  intros E. destruct (extractJobDetail_rest doc now r E) as [_ ->].
  destruct (cleanText (select_text doc ".posted-time-ago__text")) as [|c0 t0].
  - destruct (select_attr doc "meta[name='description']" "content") as [content|];
      [|discriminate].
    cbn. intros H. right. split; [reflexivity|].
    destruct (match_posted_shape _ _ H) as (Ho & w1 & d & w2 & c & Hs).
    exists content, w1, d, w2, c. tauto.
  - intros H. assert (t = c0 :: t0) as -> by congruence.
    left. split; [discriminate | reflexivity].
Qed.

Lemma extractJobDetail_postedTime_witness :
  match extractJobDetail posted_page [] with
  | Some r => JobData.postedTime r = Some (str "Posted 10:30 AM")
  | None => False
  end.
Proof.
  destruct (extractJobDetail posted_page []) as [r|] eqn:E;
    [|vm_compute in E; discriminate E].
  assert (Ht : JobData.postedTime r = Some (str "Posted 10:30 AM"))
    by (vm_compute in E; injection E as <-; reflexivity).
  destruct (extractJobDetail_postedTime posted_page [] r _ E Ht) as [[H _]|_];
    exact Ht.
Defined.

(** ** The description *)

Lemma first_description_trimmed (doc : Document) (selectors : list string) :
  trimmed (first_description doc selectors).
Proof.
  induction selectors as [|sel rest IH]; cbn [first_description]; [now left|].
  destruct (select_html doc sel) as [[h|]|]; cbn; [apply trim_trimmed | now left | exact IH].
Qed.

Lemma first_description_first (doc : Document) (selectors : list string) :
  (Forall (fun sel => select_html doc sel = None) selectors
   /\ first_description doc selectors = [])
  \/ exists pre sel post h,
       selectors = pre ++ sel :: post
       /\ Forall (fun sel => select_html doc sel = None) pre
       /\ select_html doc sel = Some h
       /\ first_description doc selectors = opt_or_empty (trim <$> h).
Proof.
  induction selectors as [|sel rest IH]; cbn [first_description]; [left; now split|].
  destruct (select_html doc sel) as [h|] eqn:Hs.
  - right. exists [], sel, rest, h.
    split; [reflexivity|]. split; [constructor|]. split; [exact Hs | reflexivity].
  - destruct IH as [[Hall Hd]|(pre & sel' & post & h & -> & Hpre & Hsel & Hd)].
    + left. split; [now constructor | exact Hd].
    + right. exists (sel :: pre), sel', post, h.
      split; [reflexivity|]. split; [now constructor|]. split; assumption.
Qed.

(** The description of a record neither starts nor ends with white space.
    It comes from the first of the three selectors that matches an element,
    and no later one is looked at, also when the markup of that element is
    missing or blank; it is empty when none matches. *)
Theorem extractJobDetail_description (doc : Document) (now : jstring) (r : JobData.t) :
  extractJobDetail doc now = Some r ->
  trimmed (JobData.jobDescription r)
  /\ ((Forall (fun sel => select_html doc sel = None) descSelectors
       /\ JobData.jobDescription r = [])
      \/ exists pre sel post h,
           descSelectors = pre ++ sel :: post
           /\ Forall (fun sel => select_html doc sel = None) pre
           /\ select_html doc sel = Some h
           /\ JobData.jobDescription r = opt_or_empty (trim <$> h)).
Proof.
  intros E. destruct (extractJobDetail_rest doc now r E) as [-> _].
  split; [apply first_description_trimmed | apply first_description_first].
Qed.

Lemma extractJobDetail_description_witness :
  match extractJobDetail company_only_page [] with
  | Some r => trimmed (JobData.jobDescription r)
  | None => False
  end.
Proof.
  destruct (extractJobDetail company_only_page []) as [r|] eqn:E;
    [|vm_compute in E; discriminate E].
  exact (proj1 (extractJobDetail_description company_only_page [] r E)).
Defined.

(** ** The company of the page title *)

Lemma indexOf_first (p a b : jstring) :
  p <> [] ->
  ~ occurs p (a ++ removelast p) ->
  indexOf p (a ++ p ++ b) = Some (length a).
Proof.
  intros Hp Hno.
  assert (Hlast : p = removelast p ++ [List.last p 0]) by now apply app_removelast_last.
  induction a as [|x a IH].
  - cbn [app length]. destruct p as [|c p]; [congruence|].
    assert (E : startsWith (c :: p) (c :: p ++ b) = true)
      by (apply startsWith_app; now exists b).
    cbn [app indexOf]. now rewrite E.
  - cbn [app length indexOf].
    assert (E : startsWith p (x :: a ++ p ++ b) = false).
    { destruct (startsWith p (x :: a ++ p ++ b)) eqn:E; [|reflexivity].
      exfalso. apply startsWith_app in E as [t Ht]. apply Hno.
      exists [], (drop (length p) (x :: a ++ removelast p)). cbn [app].
      assert (Hlen : (length p <= length (x :: a ++ removelast p))%nat).
      { cbn [length]. rewrite length_app.
        rewrite Hlast at 1. rewrite length_app. cbn [length]. lia. }
      assert (Htake : take (length p) (x :: a ++ removelast p) = p).
      { assert (H1 : take (length p) ((x :: a ++ removelast p)
                                       ++ List.last p 0 :: b) = p).
        { replace ((x :: a ++ removelast p) ++ List.last p 0 :: b)
            with (x :: a ++ p ++ b).
          - rewrite Ht. now rewrite take_app_length.
          - rewrite Hlast at 1. cbn [app]. now rewrite <- !app_assoc. }
        rewrite take_app_le in H1 by exact Hlen. exact H1. }
      rewrite <- Htake at 2. now rewrite take_drop. }
    rewrite E. rewrite IH; [reflexivity|].
    intros H. apply Hno. now apply occurs_cons.
Qed.

(** When neither company element gives a name and the [og:title] reads
    [A hiring B], the company is [A] with the white space at its ends
    removed; [A] is taken up to the first [" hiring "], and it is not
    cleaned as the other texts are. *)
Theorem detail_company_og_title (doc : Document) (a b : jstring) :
  cleanText (select_text doc ".topcard__org-name-link") = [] ->
  cleanText (select_text doc ".sub-nav-cta__optional-url") = [] ->
  select_attr doc "meta[property='og:title']" "content"
  = Some (a ++ str " hiring " ++ b) ->
  ~ occurs (str " hiring ") (a ++ str " hiring") ->
  detail_company doc = trim a.
Proof.
  intros H1 H2 H3 Hno. unfold detail_company. rewrite H1, H2, H3.
  cbn [or_else truthy fmap option_fmap option_map opt_or_empty].
  unfold split_first.
  rewrite (indexOf_first (str " hiring ") a b); [|discriminate | exact Hno].
  rewrite take_app_length.
  destruct (trim a); reflexivity.
Qed.

Lemma detail_company_og_title_witness :
  detail_company og_title_page = str "Acme* Corp".
Proof.
  apply (detail_company_og_title og_title_page (str "Acme* Corp") (str "Engineer in Paris")).
  - reflexivity.
  - reflexivity.
  - reflexivity.
  - apply includes_not_occurs. vm_compute. reflexivity.
Defined.

(** ** When there is no record *)

Lemma occurs_length (p s : jstring) : occurs p s -> (length p <= length s)%nat.
Proof. intros (a & b & ->). rewrite !length_app. lia. Qed.

Lemma removelast_shorter (p : jstring) : p <> [] -> ~ occurs p (removelast p).
Proof.
  intros Hp H. apply occurs_length in H.
  rewrite (app_removelast_last 0 Hp) in H at 1. rewrite length_app in H.
  cbn [length] in H. lia.
Qed.

Lemma indexOf_Some (p s : jstring) (i : nat) :
  p <> [] -> indexOf p s = Some i ->
  exists a b, s = a ++ p ++ b /\ length a = i /\ ~ occurs p (a ++ removelast p).
Proof.
  intros Hp. revert i. induction s as [|c s IH]; intros i; cbn [indexOf].
  - destruct (startsWith p []) eqn:E; [|discriminate].
    intros [= <-]. apply startsWith_app in E as [b Hb].
    exists [], b. split; [exact Hb|]. split; [reflexivity|].
    now apply removelast_shorter.
  - destruct (startsWith p (c :: s)) eqn:E.
    + intros [= <-]. apply startsWith_app in E as [b Hb].
      exists [], b. split; [exact Hb|]. split; [reflexivity|].
      now apply removelast_shorter.
    + destruct (indexOf p s) as [j|] eqn:Ej; [|discriminate].
      intros [= <-]. destruct (IH j eq_refl) as (a & b & -> & <- & Hno).
      exists (c :: a), b. split; [reflexivity|]. split; [reflexivity|].
      intros (x & y & Hxy). destruct x as [|c' x].
      * assert (startsWith p (c :: a ++ p ++ b) = true); [|congruence].
        apply startsWith_app. exists (y ++ List.last p 0 :: b).
        assert (Hpb : p ++ b = removelast p ++ List.last p 0 :: b).
        { rewrite (app_removelast_last 0 Hp) at 1. now rewrite <- app_assoc. }
        rewrite Hpb. change ([] ++ p ++ y) with (p ++ y) in Hxy.
        change (c :: a ++ removelast p ++ List.last p 0 :: b)
          with ((c :: a) ++ removelast p ++ List.last p 0 :: b).
        rewrite app_assoc, Hxy. now rewrite <- app_assoc.
      * cbn [app] in Hxy. injection Hxy as _ Hxy. apply Hno. now exists x, y.
Qed.

Lemma split_first_before (sep s : jstring) :
  sep <> [] -> before_first sep s (split_first sep s).
Proof.
  intros Hp. unfold split_first, before_first.
  destruct (indexOf sep s) as [i|] eqn:E.
  - right. destruct (indexOf_Some sep s i Hp E) as (a & b & -> & <- & Hno).
    rewrite take_app_length. now exists b.
  - left. split; [|reflexivity]. rewrite <- indexOf_occurs, E. now intros [x Hx].
Qed.

Lemma before_first_split (sep s a : jstring) :
  sep <> [] -> before_first sep s a -> split_first sep s = a.
Proof.
  intros Hp [[Hno ->]|(b & -> & Hno)]; unfold split_first.
  - destruct (indexOf sep s) as [i|] eqn:E; [|reflexivity].
    exfalso. apply Hno. apply indexOf_occurs. now rewrite E.
  - rewrite (indexOf_first sep a b Hp Hno). apply take_app_length.
Qed.

Lemma detail_title_nil (doc : Document) :
  detail_title doc = []
  <-> cleanText (select_text doc ".topcard__title") = []
      /\ cleanText (select_text doc "h1[data-test-id='job-title']") = []
      /\ cleanText (strip_site_suffix (select_text doc "title")) = [].
Proof. unfold detail_title. rewrite !or_else_nil. tauto. Qed.

Lemma detail_company_nil (doc : Document) :
  detail_company doc = []
  <-> cleanText (select_text doc ".topcard__org-name-link") = []
      /\ cleanText (select_text doc ".sub-nav-cta__optional-url") = []
      /\ forall content a,
           select_attr doc "meta[property='og:title']" "content" = Some content ->
           before_first (str " hiring ") content a -> blank_string a.
Proof.
  unfold detail_company. rewrite !or_else_nil.
  assert (Hsep : str " hiring " <> []) by discriminate.
  destruct (select_attr doc "meta[property='og:title']" "content") as [content|];
    cbn [fmap option_fmap option_map opt_or_empty].
  - rewrite trim_nil. split.
    + intros (H1 & H2 & H3 & _). split; [exact H1|]. split; [exact H2|].
      intros c a [= <-] Ha. now rewrite <- (before_first_split _ _ _ Hsep Ha).
    + intros (H1 & H2 & H3). split; [exact H1|]. split; [exact H2|].
      split; [|reflexivity].
      exact (H3 content _ eq_refl (split_first_before _ content Hsep)).
  - split.
    + intros (H1 & H2 & _). split; [exact H1|]. split; [exact H2|]. discriminate.
    + intros (H1 & H2 & _). now repeat split.
Qed.

(** C8, as the code has it. No record is produced exactly when the three
    title texts (of [.topcard__title], of the job-title [h1], and of
    [title] without its site suffix) and the two company texts are empty
    once cleaned, and the Open-Graph title is missing or blank before its
    first [" hiring "]; so in particular when none of the six queries
    matches anything. When the title texts clean to nothing and a record
    is produced, its title is ["Unknown Title"] and its company is what
    one of the three company sources gave. *)
Theorem extractJobDetail_absent (doc : Document) (now : jstring) :
  (extractJobDetail doc now = None
   <-> cleanText (select_text doc ".topcard__title") = []
       /\ cleanText (select_text doc "h1[data-test-id='job-title']") = []
       /\ cleanText (strip_site_suffix (select_text doc "title")) = []
       /\ cleanText (select_text doc ".topcard__org-name-link") = []
       /\ cleanText (select_text doc ".sub-nav-cta__optional-url") = []
       /\ forall content a,
            select_attr doc "meta[property='og:title']" "content" = Some content ->
            before_first (str " hiring ") content a -> blank_string a)
  /\ (select_text doc ".topcard__title" = [] ->
      select_text doc "h1[data-test-id='job-title']" = [] ->
      select_text doc "title" = [] ->
      select_text doc ".topcard__org-name-link" = [] ->
      select_text doc ".sub-nav-cta__optional-url" = [] ->
      select_attr doc "meta[property='og:title']" "content" = None ->
      extractJobDetail doc now = None)
  /\ (cleanText (select_text doc ".topcard__title") = [] ->
      cleanText (select_text doc "h1[data-test-id='job-title']") = [] ->
      cleanText (strip_site_suffix (select_text doc "title")) = [] ->
      forall r, extractJobDetail doc now = Some r ->
        JobData.jobTitle r = str "Unknown Title"
        /\ JobData.companyName r <> []
        /\ (JobData.companyName r = cleanText (select_text doc ".topcard__org-name-link")
            \/ JobData.companyName r
               = cleanText (select_text doc ".sub-nav-cta__optional-url")
            \/ exists content a,
                 select_attr doc "meta[property='og:title']" "content" = Some content
                 /\ before_first (str " hiring ") content a
                 /\ JobData.companyName r = trim a)).
Proof.
  assert (Hiff : extractJobDetail doc now = None
     <-> cleanText (select_text doc ".topcard__title") = []
       /\ cleanText (select_text doc "h1[data-test-id='job-title']") = []
       /\ cleanText (strip_site_suffix (select_text doc "title")) = []
       /\ cleanText (select_text doc ".topcard__org-name-link") = []
       /\ cleanText (select_text doc ".sub-nav-cta__optional-url") = []
       /\ forall content a,
            select_attr doc "meta[property='og:title']" "content" = Some content ->
            before_first (str " hiring ") content a -> blank_string a).
  { rewrite extractJobDetail_None, detail_title_nil, detail_company_nil. tauto. }
  split; [exact Hiff|]. split.
  - intros H1 H2 H3 H4 H5 H6. apply Hiff. rewrite H1, H2, H3, H4, H5, H6.
    repeat split. discriminate.
  - intros H1 H2 H3 r E.
    assert (Ht : detail_title doc = []) by (apply detail_title_nil; tauto).
    assert (Hc : detail_company doc <> []).
    { intros Hc. assert (extractJobDetail doc now = None); [|congruence].
      apply extractJobDetail_None. now split. }
    apply extractJobDetail_Some in E as (-> & -> & _). rewrite Ht.
    split; [reflexivity|].
    rewrite or_else_truthy by exact Hc.
    split; [exact Hc|].
    unfold detail_company in *.
    destruct (cleanText (select_text doc ".topcard__org-name-link")) as [|c1 t1];
      [|now left].
    destruct (cleanText (select_text doc ".sub-nav-cta__optional-url")) as [|c2 t2];
      [|right; now left].
    right; right. cbn [or_else truthy] in *.
    destruct (select_attr doc "meta[property='og:title']" "content") as [content|];
      cbn [fmap option_fmap option_map opt_or_empty] in *;
      [|exfalso; apply Hc; reflexivity].
    exists content, (split_first (str " hiring ") content).
    split; [reflexivity|]. split; [apply split_first_before; discriminate|].
    destruct (trim (split_first (str " hiring ") content));
      [exfalso; apply Hc; reflexivity | reflexivity].
Qed.

Lemma extractJobDetail_absent_witness :
  extractJobDetail blank_page [] = None
  /\ extractJobDetail suffix_title_page [] = None
  /\ extractJobDetail og_title_page [] <> None
  /\ exists r, extractJobDetail company_only_page [] = Some r
       /\ JobData.jobTitle r = str "Unknown Title"
       /\ JobData.companyName r = str "Acme Corp".
Proof.
  split; [|split; [|split]].
  - apply (proj1 (proj2 (extractJobDetail_absent blank_page []))); reflexivity.
  - apply (proj1 (extractJobDetail_absent suffix_title_page [])).
    repeat split; try reflexivity. discriminate.
  - intros E.
    apply (proj1 (extractJobDetail_absent og_title_page [])) in E
      as (_ & _ & _ & _ & _ & H).
    specialize (H (str "Acme* Corp hiring Engineer in Paris") (str "Acme* Corp") eq_refl).
    assert (Hb : blank_string (str "Acme* Corp")).
    { apply H. right. exists (str "Engineer in Paris"). split; [reflexivity|].
      apply includes_not_occurs. vm_compute. reflexivity. }
    apply Forall_cons in Hb as [Hb _]. discriminate Hb.
  - destruct (extractJobDetail company_only_page []) as [r|] eqn:E;
      [|vm_compute in E; discriminate E].
    exists r. split; [reflexivity|].
    destruct (proj2 (proj2 (extractJobDetail_absent company_only_page []))
                eq_refl eq_refl eq_refl r E) as (Ht & _ & _).
    split; [exact Ht|]. vm_compute in E. injection E as <-. reflexivity.
Defined.

(** C8, as the specification has it, fails on a page that has a title
    element whose text is all asterisks, and on a page whose Open-Graph
    title starts with the separator: each has one of the elements named,
    and no record is produced. *)
Lemma extractJobDetail_absent_with_title :
  (select_text starred_title_page ".topcard__title" = str "***"
   /\ extractJobDetail starred_title_page [] = None)
  /\ (select_attr hiring_only_page "meta[property='og:title']" "content"
      = Some (str " hiring Engineer")
      /\ extractJobDetail hiring_only_page [] = None).
Proof. vm_compute. repeat split. Qed.

End DetailFacts.
